(** * SLADE 2D map renderer: a shallow embedding of MapRenderer2D.cpp

    The renderer of [src/MapEditor/Renderer/MapRenderer2D.cpp] turns the map
    model (vertices, lines, sectors, things) into draw calls.  This file
    embeds the parts of it that the specification makes statements about:
    zoom-invariant vertex sizing ([vertexRadius]), the sector visibility
    table ([updateVisibility], [visOK]), the cached line and thing buffers
    ([renderLines], [renderThings]), the hilight overlays, the moving-vertex
    overlay ([renderMovingVertices]) and the thing path graph
    ([updateThingPaths]).  Further passes of the renderer (the vertices, the
    selection overlays, the moving lines, sectors and things) and the view
    ([View.cpp]) are embedded after them.

    C++ [double] is IEEE binary64, modelled by Rocq's primitive [float];
    C++ [float] values are binary64 values that went through [f32], the
    rounding to binary32.  C++ [int], [long] and [unsigned] are [Z] or [nat]. *)

From Stdlib Require Import ZArith Floats Lia Bool String.
From stdpp Require Import base list.

Local Open Scope Z_scope.

(** ** Numbers *)

Module Num.

(** Conversion [double -> float]: round to nearest even at 24 bits of
    precision, overflow to infinity; zeros, infinities and NaN are kept. *)
Definition f32 (x : float) : float :=
  match Prim2SF x with
  | S754_finite s m e =>
      SF2Prim (binary_normalize 24 128 (cond_Zopp s (Zpos m)) e s)
  | _ => x
  end.

(** Conversion [int -> double], exact for every 32-bit integer. *)
Definition of_int (z : Z) : float :=
  SF2Prim (binary_normalize 53 1024 z 0 false).

(** The literals of the source that are written with an [f] suffix. *)
Definition c_0_01f : float := Eval cbv in f32 0x1.47ae147ae147bp-7.
Definition c_0_5f : float := 0.5.
Definition c_1_0f : float := 1.
Definition c_4_0f : float := 4.
Definition c_0_6f : float := Eval cbv in f32 0x1.3333333333333p-1.
Definition c_0_25f : float := 0.25.
Definition c_0_2f : float := Eval cbv in f32 0x1.999999999999ap-3.
Definition c_0_75f : float := 0.75.
Definition c_1_8f : float := Eval cbv in f32 0x1.ccccccccccccdp+0.
Definition c_3_0f : float := 3.

(** Arithmetic on C++ [float]: the operation on the widened operands,
    rounded back to binary32. *)
Definition fadd (a b : float) : float := f32 (a + b)%float.
Definition fsub (a b : float) : float := f32 (a - b)%float.
Definition fmul (a b : float) : float := f32 (a * b)%float.
Definition fdiv (a b : float) : float := f32 (a / b)%float.

End Num.
Import Num.

(** ** Geometry and view *)

Record Vec2d := mkVec2d { vx : float; vy : float }.

Record BBox := mkBBox { bb_min : Vec2d; bb_max : Vec2d }.

(** [gl::View] (View.cpp): the target scale [scale_] and the interpolated
    scale [scale_inter_] that follows it.  [scale(inter)] picks one; the
    renderer calls it as [scale(true)] for the interpolated scale and as
    [scale()] for the target scale. *)
Record View := mkView { scale_ : Vec2d; scale_inter_ : Vec2d }.

Definition View_scale (v : View) (inter : bool) : Vec2d :=
  if inter then scale_inter_ v else scale_ v.

(** ** Console variables read by the renderer *)

Record CVars := mkCVars {
  vertex_round : bool;
  vertex_size : Z;
  line_width : float;
  thing_shape : Z;
  thing_sprites : bool;
  thing_overlay_square : bool;
  sector_hilight_fill : bool;
  map_animate_hilight : bool
}.

(** ** vertexRadius *)

Module VertexRadius.

(** [auto size = vertex_size / vscale;] *)
Definition raw_size (cv : CVars) (vscale : float) : float :=
  (of_int (vertex_size cv) / vscale)%float.

(** [if (vscale < 1.0f) size *= vscale;] *)
Definition shrink (vscale size : float) : float :=
  if (vscale <? c_1_0f)%float then (size * vscale)%float else size.

(** [auto min = 4.0f / vscale;] *)
Definition min_size (vscale : float) : float := (c_4_0f / vscale)%float.

(** [if (size < min) size = min;] *)
Definition clamp_min (size mn : float) : float :=
  if (size <? mn)%float then mn else size.

Definition vertexRadius (cv : CVars) (view_ : View) (scale : float) : float :=
  let vscale := vx (View_scale view_ true) in
  let size := raw_size cv vscale in
  let size := shrink vscale size in
  let mn := min_size vscale in
  let size := clamp_min size mn in
  f32 (size * c_0_5f * scale)%float.

End VertexRadius.

(** ** The map model (SLADEMap), as far as the renderer reads it

    Map objects are owned by the map; the renderer's pointers to them are
    modelled by their index in the map's collections, so pointer equality
    is index equality and a null pointer is [None]. *)

Record MapVertex := mkMapVertex {
  v_position : Vec2d;
  connected_lines_ : list nat      (* indices of the lines attached *)
}.

Record MapLine := mkMapLine {
  l_v1 : nat;                      (* index of the first vertex *)
  l_v2 : nat;                      (* index of the second vertex *)
  l_special : Z;
  l_s1 : option nat;               (* front side, if any *)
  l_s2 : option nat;               (* back side, if any *)
  l_filtered : bool;
  l_modified_time : Z
}.

Record MapSector := mkMapSector {
  boundingBox : BBox;
  s_lines : list (option nat)      (* what putLines collects *)
}.

Record MapThing := mkMapThing {
  t_index : nat;
  t_id : Z;
  t_type : Z;
  t_args : list Z;                 (* arg0 .. arg4 *)
  t_position : Vec2d;
  t_angle : Z;
  t_filtered : bool;
  t_modified_time : Z
}.

(** [putDragonTargets], [getPoint(Mid)] and [dirTabPoint] are methods of the
    map and of its lines that are not under src; the map carries them as
    functions: from the root thing to the list [putDragonTargets] fills, and
    from a line to its mid point and to the end of its direction tab. *)
Record SLADEMap := mkSLADEMap {
  vertices : list MapVertex;
  lines : list MapLine;
  sectors : list MapSector;
  things : list MapThing;
  geometryUpdated : Z;
  thingsUpdated : Z;
  putDragonTargets : MapThing -> list MapThing;
  line_mid : MapLine -> Vec2d;
  line_dirTabPoint : MapLine -> Vec2d
}.

Definition nVertices (m : SLADEMap) : nat := length (vertices m).
Definition nLines (m : SLADEMap) : nat := length (lines m).
Definition nSectors (m : SLADEMap) : nat := length (sectors m).
Definition nThings (m : SLADEMap) : nat := length (things m).

(** Lookup by a signed index, as [map_->vertex(index)] and its siblings do:
    a null pointer when the index is out of range. *)
Definition at_index {A} (l : list A) (index : Z) : option A :=
  if index <? 0 then None else l !! Z.to_nat index.

(** A pointer tested as a condition: true when it is not null. *)
Definition is_set {A} (p : option A) : bool :=
  match p with Some _ => true | None => false end.

Definition map_vertex (m : SLADEMap) (index : Z) : option MapVertex :=
  at_index (vertices m) index.
Definition map_line (m : SLADEMap) (index : Z) : option MapLine :=
  at_index (lines m) index.
Definition map_sector (m : SLADEMap) (index : Z) : option MapSector :=
  at_index (sectors m) index.
Definition map_thing (m : SLADEMap) (index : Z) : option MapThing :=
  at_index (things m) index.

(** Modelled from the spec: [MapObjectCollection::modifiedSince] is not under
    src; per the staleness rule it tells whether any individual feature's
    modifiedTime exceeds the given timestamp (here for lines). *)
Definition modifiedSince_lines (m : SLADEMap) (since : Z) : bool :=
  existsb (fun l => since <? l_modified_time l) (lines m).

(** Modelled from the spec: [ThingList::firstWithId] is not under src; it
    locates the first thing in the whole map with the given identifier. *)
Definition firstWithId (m : SLADEMap) (id : Z) : option MapThing :=
  List.find (fun t => t_id t =? id) (things m).

(** Modelled from the spec: [MapThing::arg] is not under src; a thing has
    five numeric argument slots, 0 to 4.  A read of any other slot (which the
    rules of the configuration never ask for) is taken to give 0. *)
Definition thing_arg (t : MapThing) (index : Z) : Z :=
  if (index <? 0) || (5 <=? index) then 0
  else nth (Z.to_nat index) (t_args t) 0.

(** Coordinates of a line's end points ([x1()], [y1()], [x2()], [y2()],
    [start()], [end()]).  A line's vertex pointers are always valid in the
    map; an index outside the map, which a well-formed map never holds, reads
    as the origin. *)
Definition vertex_pos (m : SLADEMap) (i : nat) : Vec2d :=
  match vertices m !! i with
  | Some v => v_position v
  | None => mkVec2d 0 0
  end.
Definition line_start (m : SLADEMap) (l : MapLine) : Vec2d := vertex_pos m (l_v1 l).
Definition line_end (m : SLADEMap) (l : MapLine) : Vec2d := vertex_pos m (l_v2 l).

(** Modelled from the spec: [mapeditor::Item] and its [asVertex] are not under
    src; an item names a feature by kind and index, and resolves to the
    vertex at that index when it names a vertex, to a null pointer otherwise. *)
Inductive ItemType := IT_Vertex | IT_Line | IT_Sector | IT_Thing.

Record Item := mkItem { item_index : Z; item_type : ItemType }.

Definition asVertex (it : Item) (m : SLADEMap) : option (nat * MapVertex) :=
  match item_type it with
  | IT_Vertex =>
      match map_vertex m (item_index it) with
      | Some v => Some (Z.to_nat (item_index it), v)
      | None => None
      end
  | _ => None
  end.

(** ** Game configuration (external collaborator)

    [Flags_Dragon] is the value of the enumerator
    [game::ThingType::Flags::Dragon], declared outside src. *)

Record ThingType := mkThingType {
  tt_flags : Z;
  tt_nextType : Z;
  tt_nextArgs : Z;
  tt_radius : Z;
  tt_shrinkOnZoom : bool;
  tt_icon : string;
  tt_sprite : string
}.

Record Configuration := mkConfiguration {
  thingType : Z -> ThingType;
  Flags_Dragon : Z
}.

(** Texture manager (external collaborator): symbolic names to texture ids,
    id 0 meaning that no texture is available. *)
Record TextureManager := mkTextureManager {
  tm_sprite : string -> Z;
  tm_editorImage : string -> Z
}.

(** ** Colours and blend modes

    Colours come from the colour configuration, which is outside this core;
    they are kept as terms that record how the renderer derived them. *)

Inductive ColRGBA :=
| col_default
| col_config (name : string)
| col_config_fade (name : string) (fade : float)
| col_mul_a (c : ColRGBA) (f : float)
| col_div_a (c : ColRGBA) (n : Z)
| col_ampf (c : ColRGBA) (fr fg fb fa : float)
| col_fa_mul (c : ColRGBA) (f : float)
| col_vec4 (r g b a : float).

Inductive Blend := Blend_Normal | Blend_Additive | Blend_config (name : string).

Inductive PointSpriteType :=
| PS_Textured | PS_Circle | PS_CircleOutline | PS_RoundedSquare
| PS_RoundedSquareOutline.

(** ** Geometry buffers

    [gl::LineBuffer] is LineBuffer.cpp: [push] uploads the staged lines and
    clears the staging list, [draw] draws the uploaded lines; both return at
    once when there is no GL context, and [draw] also when nothing is
    uploaded.  The vertex array object a buffer creates on its first [push]
    is bookkeeping of the GL and is not part of the model.

    Modelled from the spec: the buffer classes [gl::PointSpriteBuffer] and
    [gl::ThingBuffer2D] are not under src.  [add] accumulates on the CPU
    side, [push] uploads the accumulated batch and clears the CPU staging
    list, [draw] draws the last pushed contents. *)

Record Rectf := mkRectf { r_x1 : float; r_y1 : float; r_x2 : float; r_y2 : float }.

Record LineEntry := mkLineEntry {
  le_x1 : float; le_y1 : float; le_x2 : float; le_y2 : float;
  le_colour : ColRGBA;
  le_width : float
}.

Record LineBuffer := mkLineBuffer {
  lb_lines : list LineEntry;       (* CPU staging list *)
  lb_buffer : list LineEntry;      (* last pushed contents *)
  lb_width_mult : float
}.

Definition LineBuffer_new : LineBuffer := mkLineBuffer [] [] 1.

Definition lb_add2d (e : LineEntry) (b : LineBuffer) : LineBuffer :=
  mkLineBuffer (lb_lines b ++ [e]) (lb_buffer b) (lb_width_mult b).

(** [LineBuffer::push], with [gl_context] telling whether [getContext()]
    finds a GL context. *)
Definition lb_push (gl_context : bool) (b : LineBuffer) : LineBuffer :=
  if gl_context then mkLineBuffer [] (lb_lines b) (lb_width_mult b) else b.

(** Whether [LineBuffer::draw] gets past its two guards. *)
Definition lb_draws (gl_context : bool) (b : LineBuffer) : bool :=
  gl_context && negb (bool_decide (lb_buffer b = [])).

Definition lb_setWidthMult (w : float) (b : LineBuffer) : LineBuffer :=
  mkLineBuffer (lb_lines b) (lb_buffer b) w.

Record PointSprite := mkPointSprite { ps_x : float; ps_y : float; ps_radius : float }.

Record PointSpriteBuffer := mkPointSpriteBuffer {
  psb_points : list PointSprite;   (* CPU staging list *)
  psb_buffer : list PointSprite;   (* last pushed contents *)
  psb_colour : ColRGBA;
  psb_point_radius : float;
  psb_fill_opacity : float;
  psb_outline_width : float
}.

Definition PointSpriteBuffer_new : PointSpriteBuffer :=
  mkPointSpriteBuffer [] [] col_default 1 0 1.

Record ThingEntry := mkThingEntry {
  te_x : float; te_y : float; te_angle : Z; te_alpha : float
}.

Record ThingBuffer2D := mkThingBuffer2D {
  tb_type : Z;                     (* the thing type it was set up for *)
  tb_texture : Z;
  tb_sprite : bool;
  tb_things : list ThingEntry;     (* CPU staging list *)
  tb_buffer : list ThingEntry      (* last pushed contents *)
}.

Definition tb_add (e : ThingEntry) (b : ThingBuffer2D) : ThingBuffer2D :=
  mkThingBuffer2D (tb_type b) (tb_texture b) (tb_sprite b)
    (tb_things b ++ [e]) (tb_buffer b).

Definition tb_push (b : ThingBuffer2D) : ThingBuffer2D :=
  mkThingBuffer2D (tb_type b) (tb_texture b) (tb_sprite b) [] (tb_things b).

(** ** The 2d drawing context and the rendering backend

    [gl::draw2d::Context] is passed by reference to the overlay passes, which
    set its fields and call its draw operations.  The backend is opaque: what
    reaches it is recorded as a trace of calls, in order. *)

Record Context := mkContext {
  dc_colour : ColRGBA;
  dc_blend : Blend;
  dc_texture : Z;
  dc_line_thickness : float;
  dc_pointsprite_type : PointSpriteType;
  dc_pointsprite_radius : float;
  dc_view : View
}.

Inductive BufferName :=
| buf_lines | buf_temp_lines | buf_thing_overlay | buf_things.

Inductive GLCall :=
| gl_setBlend (b : Blend)
| gl_enable_texture_2d
| gl_bind_texture (id : Z)
| gl_shader_colour (c : ColRGBA)
| gl_setup_shader (v : View)
| gl_upload_lines (target : BufferName) (ls : list LineEntry)
| gl_upload_points (target : BufferName) (ps : list PointSprite)
| gl_upload_things (type : Z) (ts : list ThingEntry)
| gl_draw_lines (b : LineBuffer) (colour : option ColRGBA)
| gl_draw_points (b : PointSpriteBuffer) (type : PointSpriteType)
    (range : option (Z * Z))
| gl_draw_things (b : ThingBuffer2D) (colour : ColRGBA) (square : bool)
    (force_dir : bool)
| gl_draw_polygon (sector : Z)
| dc_drawLines (dc : Context) (ls : list Rectf)
| dc_drawPointSprites (dc : Context) (ps : list Vec2d)
| dc_drawRect (dc : Context) (r : Rectf)
| dc_drawRectOutline (dc : Context) (r : Rectf).

(** ** Renderer state *)

(** Modelled from the spec: the [VIS_*] constants are declared in the
    renderer's header, which is not under src; the visibility entry is one of
    Visible (the value 0), Left, Right, Above, Below, TooSmall. *)
Inductive Vis := VIS_NONE | VIS_LEFT | VIS_RIGHT | VIS_ABOVE | VIS_BELOW | VIS_SMALL.

#[global] Instance Vis_eq_dec : EqDecision Vis.
Proof. solve_decision. Defined.

Inductive PathType := Normal | NormalBoth | Dragon | DragonBoth.

(** A thing path as the code fills it in.  The struct is declared outside
    src; a field that the code never assigned holds [None]. *)
Record ThingPath := mkThingPath {
  from_index : option nat;
  to_index : option nat;
  path_type : option PathType
}.

Record MapRenderer2D := mkMapRenderer2D {
  vertices_buffer_ : option PointSpriteBuffer;
  lines_buffer_ : option LineBuffer;
  lines_dirs_ : bool;
  n_lines_ : nat;
  lines_updated_ : Z;
  flats_buffer_ : option unit;
  thing_buffers_ : list ThingBuffer2D;
  things_updated_ : Z;
  things_angles_ : bool;
  temp_lines_buffer_ : LineBuffer;
  thing_overlay_buffer_ : PointSpriteBuffer;
  vis_s_ : list Vis;
  thing_paths_ : list ThingPath;
  thing_paths_updated_ : Z
}.

(** The renderer right after construction: the cached buffers are absent,
    the transient ones are allocated and empty. *)
Definition MapRenderer2D_new : MapRenderer2D :=
  mkMapRenderer2D None None false 0 0 None [] 0 false
    LineBuffer_new PointSpriteBuffer_new [] [] 0.

Definition set_vertices_buffer_ (x : option PointSpriteBuffer) (r : MapRenderer2D) :=
  mkMapRenderer2D x (lines_buffer_ r) (lines_dirs_ r) (n_lines_ r)
    (lines_updated_ r) (flats_buffer_ r) (thing_buffers_ r) (things_updated_ r)
    (things_angles_ r) (temp_lines_buffer_ r) (thing_overlay_buffer_ r)
    (vis_s_ r) (thing_paths_ r) (thing_paths_updated_ r).

Definition set_lines_cache (b : option LineBuffer) (dirs : bool) (n : nat)
    (updated : Z) (r : MapRenderer2D) :=
  mkMapRenderer2D (vertices_buffer_ r) b dirs n updated (flats_buffer_ r)
    (thing_buffers_ r) (things_updated_ r) (things_angles_ r)
    (temp_lines_buffer_ r) (thing_overlay_buffer_ r) (vis_s_ r)
    (thing_paths_ r) (thing_paths_updated_ r).

Definition set_lines_buffer_ (b : option LineBuffer) (r : MapRenderer2D) :=
  set_lines_cache b (lines_dirs_ r) (n_lines_ r) (lines_updated_ r) r.

Definition set_thing_buffers_ (bs : list ThingBuffer2D) (r : MapRenderer2D) :=
  mkMapRenderer2D (vertices_buffer_ r) (lines_buffer_ r) (lines_dirs_ r)
    (n_lines_ r) (lines_updated_ r) (flats_buffer_ r) bs (things_updated_ r)
    (things_angles_ r) (temp_lines_buffer_ r) (thing_overlay_buffer_ r)
    (vis_s_ r) (thing_paths_ r) (thing_paths_updated_ r).

Definition set_things_updated_ (t : Z) (r : MapRenderer2D) :=
  mkMapRenderer2D (vertices_buffer_ r) (lines_buffer_ r) (lines_dirs_ r)
    (n_lines_ r) (lines_updated_ r) (flats_buffer_ r) (thing_buffers_ r) t
    (things_angles_ r) (temp_lines_buffer_ r) (thing_overlay_buffer_ r)
    (vis_s_ r) (thing_paths_ r) (thing_paths_updated_ r).

Definition set_things_angles_ (b : bool) (r : MapRenderer2D) :=
  mkMapRenderer2D (vertices_buffer_ r) (lines_buffer_ r) (lines_dirs_ r)
    (n_lines_ r) (lines_updated_ r) (flats_buffer_ r) (thing_buffers_ r)
    (things_updated_ r) b (temp_lines_buffer_ r) (thing_overlay_buffer_ r)
    (vis_s_ r) (thing_paths_ r) (thing_paths_updated_ r).

Definition set_temp_lines_buffer_ (b : LineBuffer) (r : MapRenderer2D) :=
  mkMapRenderer2D (vertices_buffer_ r) (lines_buffer_ r) (lines_dirs_ r)
    (n_lines_ r) (lines_updated_ r) (flats_buffer_ r) (thing_buffers_ r)
    (things_updated_ r) (things_angles_ r) b (thing_overlay_buffer_ r)
    (vis_s_ r) (thing_paths_ r) (thing_paths_updated_ r).

Definition set_thing_overlay_buffer_ (b : PointSpriteBuffer) (r : MapRenderer2D) :=
  mkMapRenderer2D (vertices_buffer_ r) (lines_buffer_ r) (lines_dirs_ r)
    (n_lines_ r) (lines_updated_ r) (flats_buffer_ r) (thing_buffers_ r)
    (things_updated_ r) (things_angles_ r) (temp_lines_buffer_ r) b
    (vis_s_ r) (thing_paths_ r) (thing_paths_updated_ r).

Definition set_vis_s_ (v : list Vis) (r : MapRenderer2D) :=
  mkMapRenderer2D (vertices_buffer_ r) (lines_buffer_ r) (lines_dirs_ r)
    (n_lines_ r) (lines_updated_ r) (flats_buffer_ r) (thing_buffers_ r)
    (things_updated_ r) (things_angles_ r) (temp_lines_buffer_ r)
    (thing_overlay_buffer_ r) v (thing_paths_ r) (thing_paths_updated_ r).

Definition set_thing_paths (ps : list ThingPath) (updated : Z) (r : MapRenderer2D) :=
  mkMapRenderer2D (vertices_buffer_ r) (lines_buffer_ r) (lines_dirs_ r)
    (n_lines_ r) (lines_updated_ r) (flats_buffer_ r) (thing_buffers_ r)
    (things_updated_ r) (things_angles_ r) (temp_lines_buffer_ r)
    (thing_overlay_buffer_ r) (vis_s_ r) ps updated.

(** ** Render passes as state transformers

    A render pass runs on the renderer and the backend trace.  It either
    completes, or dereferences a null pointer ([Fault]): the cached buffers are
    [unique_ptr]s that stay null until their first build. *)

Record World := mkWorld { rd : MapRenderer2D; backend : list GLCall }.

Inductive Res (A : Type) :=
| Ok (a : A) (w : World)
| Fault.
Arguments Ok {A} a w.
Arguments Fault {A}.

Definition Render (A : Type) := World -> Res A.

Definition ret {A} (a : A) : Render A := fun w => Ok a w.

Definition bind {A B} (m : Render A) (k : A -> Render B) : Render B :=
  fun w => match m w with Ok a w' => k a w' | Fault => Fault end.

Notation "'do' x <- m ; k" := (bind m (fun x => k))
  (at level 10, x name, m at level 100, k at level 200).
Notation "m ;; k" := (bind m (fun _ => k))
  (at level 100, k at level 200, right associativity).

Definition fault {A} : Render A := fun _ => Fault.
Definition get_rd : Render MapRenderer2D := fun w => Ok (rd w) w.
Definition modify_rd (f : MapRenderer2D -> MapRenderer2D) : Render unit :=
  fun w => Ok tt (mkWorld (f (rd w)) (backend w)).
Definition emit (c : GLCall) : Render unit :=
  fun w => Ok tt (mkWorld (rd w) (backend w ++ [c])).

(** Rebuild counters, read off the backend trace: the number of uploads of
    the cached lines buffer, and of the thing buffers. *)
Definition is_lines_upload (c : GLCall) : bool :=
  match c with gl_upload_lines buf_lines _ => true | _ => false end.
Definition is_things_upload (c : GLCall) : bool :=
  match c with gl_upload_things _ _ => true | _ => false end.
Definition is_draw (c : GLCall) : bool :=
  match c with
  | gl_draw_lines _ _ | gl_draw_points _ _ _ | gl_draw_things _ _ _ _
  | gl_draw_polygon _ | dc_drawLines _ _ | dc_drawPointSprites _ _
  | dc_drawRect _ _ | dc_drawRectOutline _ _ => true
  | _ => false
  end.
Definition lines_rebuilds (w : World) : nat :=
  length (filter (fun c => is_lines_upload c = true) (backend w)).
Definition things_rebuilds (w : World) : nat :=
  length (filter (fun c => is_things_upload c = true) (backend w)).
Definition draw_calls (w : World) : nat :=
  length (filter (fun c => is_draw c = true) (backend w)).

Fixpoint for_each {A} (l : list A) (body : A -> Render unit) : Render unit :=
  match l with
  | [] => ret tt
  | x :: l' => body x ;; for_each l' body
  end.

(** [LineBuffer::push] on [b], seen by the backend as an upload to
    [target] when it gets past its guard. *)
Definition push_lines (gl_context : bool) (target : BufferName) (b : LineBuffer)
    : Render LineBuffer :=
  (if gl_context then emit (gl_upload_lines target (lb_lines b)) else ret tt) ;;
  ret (lb_push gl_context b).

(** [LineBuffer::draw] on [b], seen by the backend when it gets past its
    guards. *)
Definition draw_lines (gl_context : bool) (b : LineBuffer)
    (colour : option ColRGBA) : Render unit :=
  if lb_draws gl_context b then emit (gl_draw_lines b colour) else ret tt.

(** External collaborators and settings a pass reads. *)
Record Env := mkEnv {
  cv : CVars;
  textures : TextureManager;
  configuration : Configuration;
  lineHilightWidth : float;         (* colourconfig::lineHilightWidth() *)
  gl_context : bool                 (* gl::getContext() is not null *)
}.

(** ** Sector visibility *)

Module Visibility.

(** One turn of the loop of [updateVisibility], for sector [a]. *)
Definition visit_sector (m : SLADEMap) (view_ : View) (view_tl view_br : Vec2d)
    (vis : list Vis) (a : nat) : list Vis :=
  match sectors m !! a with
  | None => vis
  | Some s =>
      let bbox := boundingBox s in
      let vis := <[a := VIS_NONE]> vis in
      let vis := if (vx (bb_max bbox) <? vx view_tl)%float
                 then <[a := VIS_LEFT]> vis else vis in
      let vis := if (vy (bb_max bbox) <? vy view_tl)%float
                 then <[a := VIS_ABOVE]> vis else vis in
      let vis := if (vx view_br <? vx (bb_min bbox))%float
                 then <[a := VIS_RIGHT]> vis else vis in
      let vis := if (vy view_br <? vy (bb_min bbox))%float
                 then <[a := VIS_BELOW]> vis else vis in
      (* Check if the sector is worth drawing *)
      if ((vx (bb_max bbox) - vx (bb_min bbox)) * vx (View_scale view_ false) <? 4)%float
         || ((vy (bb_max bbox) - vy (bb_min bbox)) * vx (View_scale view_ false) <? 4)%float
      then <[a := VIS_SMALL]> vis else vis
  end.

(** The entry a turn of the loop leaves for a sector with bounding box
    [bbox]: the last assignment whose test holds. *)
Definition classify (view_ : View) (view_tl view_br : Vec2d) (bbox : BBox) : Vis :=
  if ((vx (bb_max bbox) - vx (bb_min bbox)) * vx (View_scale view_ false) <? 4)%float
     || ((vy (bb_max bbox) - vy (bb_min bbox)) * vx (View_scale view_ false) <? 4)%float
  then VIS_SMALL
  else if (vy view_br <? vy (bb_min bbox))%float then VIS_BELOW
  else if (vx view_br <? vx (bb_min bbox))%float then VIS_RIGHT
  else if (vy (bb_max bbox) <? vy view_tl)%float then VIS_ABOVE
  else if (vx (bb_max bbox) <? vx view_tl)%float then VIS_LEFT
  else VIS_NONE.

Definition updateVisibility (m : SLADEMap) (view_ : View) (view_tl view_br : Vec2d)
    (r : MapRenderer2D) : MapRenderer2D :=
  (* Number of sectors changed, reset array *)
  let vis := if bool_decide (nSectors m <> length (vis_s_ r))
             then replicate (nSectors m) VIS_NONE else vis_s_ r in
  set_vis_s_ (foldl (visit_sector m view_ view_tl view_br) vis (seq 0 (nSectors m))) r.

Definition visOK (m : SLADEMap) (r : MapRenderer2D) : bool :=
  bool_decide (nSectors m = length (vis_s_ r)).

End Visibility.

(** ** Lines *)

Module Lines.

Definition lineColour (line : option MapLine) (ignore_filter : bool) : ColRGBA :=
  match line with
  | None => col_default
  | Some l =>
      let col :=
        if 0 <? l_special l then col_config "map_line_special"
        else if is_set (l_s1 l) then col_config "map_line_normal"
        else col_config "map_line_invalid" in
      let col := if is_set (l_s2 l) then col_mul_a col c_0_6f else col in
      if l_filtered l && negb ignore_filter then col_mul_a col c_0_25f else col
  end.

(** What [updateLinesBuffer] adds for one line. *)
Definition line_entries (m : SLADEMap) (show_direction : bool) (line : MapLine)
    : list LineEntry :=
  let col := lineColour (Some line) false in
  let s := line_start m line in
  let e := line_end m line in
  mkLineEntry (f32 (vx s)) (f32 (vy s)) (f32 (vx e)) (f32 (vy e)) col c_1_0f ::
  (if show_direction then
     let mid := line_mid m line in
     let tab := line_dirTabPoint m line in
     [mkLineEntry (f32 (vx mid)) (f32 (vy mid)) (f32 (vx tab)) (f32 (vy tab))
        (col_fa_mul col c_0_6f) c_1_0f]
   else []).

Definition updateLinesBuffer (E : Env) (m : SLADEMap) (now : Z)
    (show_direction : bool) : Render unit :=
  do r <- get_rd;
  (* Init buffer *)
  let lb := default LineBuffer_new (lines_buffer_ r) in
  (* Add all map lines to buffer *)
  let lb := foldl (fun b line => foldl (fun b e => lb_add2d e b) b
                                   (line_entries m show_direction line))
              lb (lines m) in
  do lb <- push_lines (gl_context E) buf_lines lb;
  modify_rd (set_lines_cache (Some lb) show_direction (nLines m) now).

(** The staleness test of [renderLines]. *)
Definition lines_stale (m : SLADEMap) (show_direction : bool) (r : MapRenderer2D)
    : bool :=
  match lines_buffer_ r with
  | None => true
  | Some lb => bool_decide (lb_buffer lb = [])
  end
  || negb (eqb show_direction (lines_dirs_ r))
  || bool_decide (nLines m <> n_lines_ r)
  || (lines_updated_ r <? geometryUpdated m)
  || modifiedSince_lines m (lines_updated_ r).

Definition renderLines (E : Env) (m : SLADEMap) (view_ : View) (now : Z)
    (show_direction : bool) (alpha : float) : Render unit :=
  (* Check there are any lines to render *)
  if bool_decide (nLines m = 0%nat) then ret tt
  (* Don't bother if (practically) invisible *)
  else if (alpha <=? c_0_01f)%float then ret tt
  else
    do r <- get_rd;
    (* Update lines buffer if needed *)
    (if lines_stale m show_direction r
     then updateLinesBuffer E m now show_direction else ret tt) ;;
    (* Render lines buffer *)
    do r <- get_rd;
    match lines_buffer_ r with
    | None => fault
    | Some lb =>
        let lb := lb_setWidthMult (line_width (cv E)) lb in
        modify_rd (set_lines_buffer_ (Some lb)) ;;
        draw_lines (gl_context E) lb (Some (col_vec4 1 1 1 alpha))
    end.

End Lines.

(** ** Things *)

Module Things.

(** [setupThingBuffer]: the texture a thing type is drawn with, and whether
    it is a sprite. *)
Definition thing_texture (E : Env) (tt : ThingType) : Z * bool :=
  let '(tex, sprite) :=
    if thing_sprites (cv E) then (tm_sprite (textures E) (tt_sprite tt), true)
    else (0, false) in
  if (tex =? 0) && negb (String.eqb (tt_icon tt) "")
  then (tm_editorImage (textures E) ("thing/" ++ tt_icon tt), false)
  else (tex, sprite).

Definition setupThingBuffer (E : Env) (type : Z) (b : ThingBuffer2D) : ThingBuffer2D :=
  let '(tex, sprite) := thing_texture E (thingType (configuration E) type) in
  mkThingBuffer2D type tex sprite (tb_things b) (tb_buffer b).

Definition ThingBuffer2D_new : ThingBuffer2D := mkThingBuffer2D 0 0 false [] [].

(** The entry [updateThingBuffers] adds for a thing. *)
Definition thing_entry (t : MapThing) : ThingEntry :=
  mkThingEntry (f32 (vx (t_position t))) (f32 (vy (t_position t))) (t_angle t)
    (if t_filtered t then c_0_25f else c_1_0f).

(** Adds [e] to the buffer registered for [type], if there is one. *)
Fixpoint add_to_type (type : Z) (e : ThingEntry) (bs : list ThingBuffer2D)
    : option (list ThingBuffer2D) :=
  match bs with
  | [] => None
  | b :: bs' =>
      if tb_type b =? type then Some (tb_add e b :: bs')
      else cons b <$> add_to_type type e bs'
  end.

(** One turn of the loop of [updateThingBuffers]: the buffer of the thing's
    type is looked up, created and set up if the type is new, and the thing
    is added to it. *)
Definition add_thing (E : Env) (bs : list ThingBuffer2D) (t : MapThing)
    : list ThingBuffer2D :=
  match add_to_type (t_type t) (thing_entry t) bs with
  | Some bs' => bs'
  | None =>
      bs ++ [tb_add (thing_entry t) (setupThingBuffer E (t_type t) ThingBuffer2D_new)]
  end.

Definition updateThingBuffers (E : Env) (m : SLADEMap) (now : Z) : Render unit :=
  let bs := foldl (add_thing E) [] (things m) in
  (* Upload buffers *)
  for_each bs (fun b => emit (gl_upload_things (tb_type b) (tb_things b))) ;;
  modify_rd (set_thing_buffers_ (tb_push <$> bs)) ;;
  modify_rd (set_things_updated_ now).

Definition renderThings (E : Env) (m : SLADEMap) (view_ : View) (now : Z)
    (alpha : float) (force_dir : bool) : Render unit :=
  (* Don't bother if (practically) invisible *)
  if (alpha <=? c_0_01f)%float || bool_decide (nThings m = 0%nat) then ret tt
  else
    modify_rd (set_things_angles_ force_dir) ;;
    do r <- get_rd;
    (if bool_decide (thing_buffers_ r = []) || (things_updated_ r <? thingsUpdated m)
     then updateThingBuffers E m now else ret tt) ;;
    (* Draw thing buffers *)
    emit (gl_setBlend Blend_Normal) ;;
    do r <- get_rd;
    for_each (thing_buffers_ r) (fun b =>
      emit (gl_draw_things b (col_vec4 1 1 1 alpha)
              (thing_shape (cv E) =? 1) force_dir)).

(** [scaledRadius]: the radius capped at 16 and divided by the zoom when
    zoomed in. *)
Definition scaledRadius (view_ : View) (radius : Z) : float :=
  let radius := if 16 <? radius then 16 else radius in
  if (1 <? vx (View_scale view_ false))%float
  then (of_int radius / vx (View_scale view_ false))%float
  else of_int radius.

(** [float radius = tt.shrinkOnZoom() ? scaledRadius(tt.radius()) : tt.radius();] *)
Definition overlay_radius (view_ : View) (tt : ThingType) : float :=
  if tt_shrinkOnZoom tt then f32 (scaledRadius view_ (tt_radius tt))
  else f32 (of_int (tt_radius tt)).

End Things.

(** ** Hilight overlays *)

Module Hilight.
Import VertexRadius Things.

(** Modelled from the spec: [Context::setColourFromConfig] is not under src;
    it takes the colour and the blend mode of the named colour definition,
    the colour faded by [fade]. *)
Definition setColourFromConfig (name : string) (fade : float) (dc : Context) : Context :=
  mkContext (col_config_fade name fade) (Blend_config name) (dc_texture dc)
    (dc_line_thickness dc) (dc_pointsprite_type dc) (dc_pointsprite_radius dc)
    (dc_view dc).

Definition set_dc_colour (c : ColRGBA) (dc : Context) : Context :=
  mkContext c (dc_blend dc) (dc_texture dc) (dc_line_thickness dc)
    (dc_pointsprite_type dc) (dc_pointsprite_radius dc) (dc_view dc).

Definition set_dc_texture (t : Z) (dc : Context) : Context :=
  mkContext (dc_colour dc) (dc_blend dc) t (dc_line_thickness dc)
    (dc_pointsprite_type dc) (dc_pointsprite_radius dc) (dc_view dc).

Definition set_dc_line_thickness (t : float) (dc : Context) : Context :=
  mkContext (dc_colour dc) (dc_blend dc) (dc_texture dc) t
    (dc_pointsprite_type dc) (dc_pointsprite_radius dc) (dc_view dc).

Definition set_dc_pointsprite (t : PointSpriteType) (radius : float) (dc : Context)
    : Context :=
  mkContext (dc_colour dc) (dc_blend dc) (dc_texture dc) (dc_line_thickness dc)
    t radius (dc_view dc).

(** [vertexTexture] *)
Definition vertexTexture (E : Env) (overlay : bool) : Z :=
  if overlay then
    tm_editorImage (textures E)
      (if vertex_round (cv E) then "vertex/hilight_r" else "vertex/hilight_s")
  else
    tm_editorImage (textures E)
      (if vertex_round (cv E) then "vertex/round" else "vertex/square").

(** Reset fade if hilight animation is disabled *)
Definition hilight_fade (E : Env) (fade : float) : float :=
  if map_animate_hilight (cv E) then fade else c_1_0f.

Definition renderVertexHilight (E : Env) (m : SLADEMap) (view_ : View)
    (index : Z) (fade : float) : Render unit :=
  (* Check hilight *)
  match map_vertex m index with
  | None => ret tt
  | Some _ =>
      let fade := hilight_fade E fade in
      do r <- get_rd;
      match vertices_buffer_ r with
      | None => fault
      | Some vb =>
          (* Setup rendering options *)
          let vb := mkPointSpriteBuffer (psb_points vb) (psb_buffer vb)
                      (col_ampf (col_config "map_hilight") 1 1 1 fade)
                      (vertexRadius (cv E) view_ (fadd c_1_8f (fmul c_0_6f fade)))
                      (psb_fill_opacity vb) (psb_outline_width vb) in
          modify_rd (set_vertices_buffer_ (Some vb)) ;;
          emit (gl_setBlend (Blend_config "map_hilight")) ;;
          (* Set texture *)
          emit gl_enable_texture_2d ;;
          emit (gl_bind_texture (vertexTexture E true)) ;;
          (* Render *)
          emit (gl_draw_points vb PS_Textured (Some (index, 1)))
      end
  end.

Definition rect_of (a b : Vec2d) : Rectf :=
  mkRectf (f32 (vx a)) (f32 (vy a)) (f32 (vx b)) (f32 (vy b)).

Definition renderLineHilight (E : Env) (m : SLADEMap) (dc : Context)
    (index : Z) (fade : float) : Render Context :=
  (* Check hilight *)
  match map_line m index with
  | None => ret dc
  | Some line =>
      let fade := hilight_fade E fade in
      (* Render line hilight (+ direction tab) *)
      let mid := line_mid m line in
      let tab := line_dirTabPoint m line in
      let dc := setColourFromConfig "map_hilight" fade dc in
      let dc := set_dc_line_thickness
                  (fmul (line_width (cv E)) (fmul (lineHilightWidth E) fade)) dc in
      emit (dc_drawLines dc [rect_of (line_start m line) (line_end m line);
                             rect_of mid tab]) ;;
      ret dc
  end.

(** [renderThingOverlays], for [things] with their radius enlarged by
    [radius_extra] and their position moved by [offset]. *)
Definition renderThingOverlays (E : Env) (view_ : View) (dc : Context)
    (things : list MapThing) (radius_extra : float) (offset : Vec2d)
    : Render Context :=
  let radius_of t := overlay_radius view_ (thingType (configuration E) (t_type t)) in
  (* Check if we want square overlays *)
  if thing_overlay_square (cv E) then
    let dc := set_dc_texture 0 dc in
    let dc := set_dc_colour (col_div_a (dc_colour dc) 2) dc in
    for_each things (fun t =>
      let radius := radius_of t in
      (* Draw simple rect *)
      emit (dc_drawRect dc
              (mkRectf (f32 (vx (t_position t) + vx offset - radius))
                       (f32 (vy (t_position t) + vy offset - radius))
                       (f32 (vx (t_position t) + vx offset + radius))
                       (f32 (vy (t_position t) + vy offset + radius))))) ;;
    ret (set_dc_colour (col_mul_a (dc_colour dc) 2) dc)
  else
    (* Otherwise, setup the thing overlay buffer with values from the dc *)
    emit (gl_setBlend (dc_blend dc)) ;;
    do r <- get_rd;
    let ob := thing_overlay_buffer_ r in
    let outline := let w := fdiv c_3_0f (f32 (vx (View_scale view_ false))) in
                   if (c_4_0f <? w)%float then c_4_0f else w in
    (* Populate thing overlay buffer *)
    let sprites := (fun t =>
      mkPointSprite (f32 (vx (t_position t) + vx offset))
                    (f32 (vy (t_position t) + vy offset))
                    (fadd (fadd (radius_of t) c_4_0f) radius_extra)) <$> things in
    let staged := psb_points ob ++ sprites in
    emit (gl_upload_points buf_thing_overlay staged) ;;
    let ob := mkPointSpriteBuffer [] staged (dc_colour dc)
                (dc_pointsprite_radius dc) c_0_25f outline in
    modify_rd (set_thing_overlay_buffer_ ob) ;;
    (* Draw the buffer *)
    emit (gl_draw_points ob
            (if thing_shape (cv E) =? 1 then PS_RoundedSquareOutline
             else PS_CircleOutline) None) ;;
    ret dc.

Definition renderThingHilight (E : Env) (m : SLADEMap) (view_ : View)
    (dc : Context) (index : Z) (fade : float) : Render Context :=
  (* Check hilight *)
  match map_thing m index with
  | None => ret dc
  | Some thing =>
      let fade := hilight_fade E fade in
      (* Set hilight colour *)
      let dc := setColourFromConfig "map_hilight" fade dc in
      (* Check if we want square overlays *)
      if thing_overlay_square (cv E) then
        let tt := thingType (configuration E) (t_type thing) in
        let x := f32 (vx (t_position thing)) in
        let y := f32 (vy (t_position thing)) in
        let radius := f32 (of_int (tt_radius tt)) in
        (* Draw simple rect+outline *)
        let rect := mkRectf (fsub x radius) (fsub y radius)
                      (fadd x radius) (fadd y radius) in
        let dc := set_dc_texture 0 dc in
        let dc := set_dc_line_thickness c_3_0f dc in
        emit (dc_drawRectOutline dc rect) ;;
        let dc := set_dc_colour (col_div_a (dc_colour dc) 2) dc in
        emit (dc_drawRect dc rect) ;;
        ret dc
      else
        (* Otherwise draw point sprite overlay *)
        renderThingOverlays E view_ dc [thing] (fmul c_4_0f fade) (mkVec2d 0 0)
  end.

Definition renderFlatHilight (E : Env) (m : SLADEMap) (dc : Context)
    (index : Z) (fade : float) : Render Context :=
  (* Check hilight *)
  match map_sector m index with
  | None => ret dc
  | Some sector =>
      let fade := hilight_fade E fade in
      (* Set render options *)
      let dc := setColourFromConfig "map_hilight" fade dc in
      let dc := set_dc_line_thickness
                  (fmul (line_width (cv E)) (fmul (lineHilightWidth E) fade)) dc in
      (* Fill if cvar is set *)
      do dc <- (if sector_hilight_fill (cv E) then
                  emit (gl_shader_colour
                          (col_ampf (dc_colour dc) 1 1 1 c_0_2f)) ;;
                  emit (gl_setup_shader (dc_view dc)) ;;
                  do r <- get_rd;
                  match flats_buffer_ r with
                  | None => fault
                  | Some _ =>
                      emit (gl_draw_polygon index) ;;
                      ret (set_dc_line_thickness
                             (fmul (dc_line_thickness dc) c_0_75f) dc)
                  end
                else ret dc);
      (* Build list of lines to render *)
      let render_lines :=
        omap (fun ol => match ol with
                        | Some i =>
                            (fun line => rect_of (line_start m line) (line_end m line))
                              <$> lines m !! i
                        | None => None
                        end) (s_lines sector) in
      (* Render lines *)
      emit (dc_drawLines dc render_lines) ;;
      ret dc
  end.

End Hilight.

(** ** Moving overlays *)

Module Moving.
Import VertexRadius Lines Hilight.

(** [lines_drawn[l] |= bit] *)
Definition set_bit (bit : Z) (l : nat) (lines_drawn : list Z) : list Z :=
  alter (fun d => Z.lor d bit) l lines_drawn.

(** The body of the loop over the lines connected to vertex [v]: the line's
    first end is marked with bit 1 and its second end with bit 2 when it is
    the vertex being moved. *)
Definition mark_line (m : SLADEMap) (v : nat) (lines_drawn : list Z) (l : nat)
    : list Z :=
  match lines m !! l with
  | None => lines_drawn
  | Some line =>
      let lines_drawn :=
        if bool_decide (l_v1 line = v) then set_bit 1 l lines_drawn
        else lines_drawn in
      if bool_decide (l_v2 line = v) then set_bit 2 l lines_drawn
      else lines_drawn
  end.



(** What the second loop adds to the moving lines buffer for line [a]. *)
Definition moving_line (m : SLADEMap) (move_vec : Vec2d) (lines_drawn : list Z)
    (a : nat) : list LineEntry :=
  match lines m !! a with
  | None => []
  | Some line =>
      let drawn := default 0 (lines_drawn !! a) in
      (* Skip if not attached to any moving vertices *)
      if drawn =? 0 then []
      else
        let s := line_start m line in
        let e := line_end m line in
        (* First vertex *)
        let v1 := if negb (Z.land drawn 1 =? 0)
                  then (f32 (vx s + vx move_vec), f32 (vy s + vy move_vec))
                  else (f32 (vx s), f32 (vy s)) in
        (* Second vertex *)
        let v2 := if negb (Z.land drawn 2 =? 0)
                  then (f32 (vx e + vx move_vec), f32 (vy e + vy move_vec))
                  else (f32 (vx e), f32 (vy e)) in
        [mkLineEntry v1.1 v1.2 v2.1 v2.2 (lineColour (Some line) true) c_1_0f]
  end.




End Moving.

(** ** Thing paths *)

Module PathGraph.

(** [tt.flags() & game::ThingType::Flags::Dragon] *)
Definition is_dragon (cfg : Configuration) (flags : Z) : bool :=
  negb (Z.land flags (Flags_Dragon cfg) =? 0).

(** A result of [int] arithmetic: the value reduced to 32 bits, two's
    complement. *)
Definition wrap_int (z : Z) : Z :=
  (z + 2147483648) mod 4294967296 - 2147483648.

(** The target id a thing's arguments encode under the rule [nextargs]: the
    low digit names the slot of the low byte, the high digit (if any) the slot
    of the high byte.  [tid] is the value the variable held before; it is
    kept when the rule is 0.  ([%] and [/] truncate; the product and the sum
    are [int] operations.) *)
Definition decode_target (nextargs : Z) (t : MapThing) (tid : Z) : Z :=
  let tid := if nextargs =? 0 then tid
             else thing_arg t (Z.rem nextargs 10 - 1) in
  if 10 <=? nextargs
  then wrap_int (tid + wrap_int (256 * thing_arg t (Z.quot nextargs 10 - 1)))
  else tid.

(** One turn of the inner loop of the normal path: [st] holds the variables
    [path] and [tid2], which live across the turns, and the paths pushed so
    far. *)
Definition normal_step (cfg : Configuration) (thing : MapThing) (nexttype tid : Z)
    (st : ThingPath * Z * list ThingPath) (thing2 : MapThing)
    : ThingPath * Z * list ThingPath :=
  let '(path, tid2, out) := st in
  if t_type thing2 =? nexttype then
    let tt2 := thingType cfg (t_type thing2) in
    let tid2 := decode_target (tt_nextArgs tt2) thing2 tid2 in
    let path :=
      if t_id thing2 =? tid then
        mkThingPath (Some (t_index thing)) (Some (t_index thing2))
          (Some (if tid2 =? t_id thing then NormalBoth else Normal))
      else if t_id thing =? tid2 then
        mkThingPath (Some (t_index thing2)) (Some (t_index thing)) (Some Normal)
      else path in
    (path, tid2, out ++ [path])
  else st.

(** The paths pushed for a non-dragon [thing] followed by [rest]. *)
Definition normal_paths (cfg : Configuration) (thing : MapThing)
    (rest : list MapThing) : list ThingPath :=
  let tt := thingType cfg (t_type thing) in
  let path := mkThingPath (Some 0%nat) (Some 0%nat) None in
  let tid := decode_target (tt_nextArgs tt) thing (-1) in
  (foldl (normal_step cfg thing (tt_nextType tt) tid) (path, -1, []) rest).2.

(** Whether one of the five arguments of [t] is [id]. *)
Definition links_to (t : MapThing) (id : Z) : bool :=
  (thing_arg t 0 =? id) || (thing_arg t 1 =? id) || (thing_arg t 2 =? id)
  || (thing_arg t 3 =? id) || (thing_arg t 4 =? id).

(** The path pushed for the pair of dragon targets [t1] (at position d) and
    [t2] (at a later position e), none when one of them is dragon-flagged. *)
Definition dragon_pair (cfg : Configuration) (t1 t2 : MapThing) : option ThingPath :=
  let tt1 := thingType cfg (t_type t1) in
  let tt2 := thingType cfg (t_type t2) in
  let l1to2 := links_to t1 (t_id t2) in
  let l2to1 := links_to t2 (t_id t1) in
  if negb (is_dragon cfg (Z.lor (tt_flags tt1) (tt_flags tt2))) then
    Some (if l1to2 then
            mkThingPath (Some (t_index t2)) (Some (t_index t1))
              (Some (if l2to1 then DragonBoth else Dragon))
          else if l2to1 then
            mkThingPath (Some (t_index t1)) (Some (t_index t2)) (Some Dragon)
          else mkThingPath None None None)
  else None.

(** The loops over d and e = d+1 .. of the dragon path. *)
Fixpoint dragon_pairs (cfg : Configuration) (dragon_things : list MapThing)
    : list ThingPath :=
  match dragon_things with
  | [] => []
  | t1 :: rest => omap (dragon_pair cfg t1) rest ++ dragon_pairs cfg rest
  end.

(** The paths pushed for a dragon-flagged [thing]. *)
Definition dragon_paths (cfg : Configuration) (m : SLADEMap) (thing : MapThing)
    : list ThingPath :=
  match firstWithId m (t_id thing) with
  | None => []
  | Some first =>
      mkThingPath (Some (t_index thing)) (Some (t_index first)) (Some Dragon)
      :: dragon_pairs cfg (putDragonTargets m first)
  end.

(** The outer loop: thing [a] with the things after it. *)
Fixpoint collect_paths (cfg : Configuration) (m : SLADEMap) (things : list MapThing)
    : list ThingPath :=
  match things with
  | [] => []
  | thing :: rest =>
      (if is_dragon cfg (tt_flags (thingType cfg (t_type thing)))
       then dragon_paths cfg m thing
       else normal_paths cfg thing rest)
      ++ collect_paths cfg m rest
  end.

Definition updateThingPaths (cfg : Configuration) (m : SLADEMap) (now : Z)
    (things : list MapThing) (r : MapRenderer2D) : MapRenderer2D :=
  set_thing_paths (collect_paths cfg m things) now r.

End PathGraph.

(** *** The loops of [updateThingPaths] with their counters

    The same pass with its [for] loops written as the code has them: a
    counter that runs up to the size of a vector, and the vector read at the
    counter.  [gas] bounds the number of turns a loop may take; a loop that
    would need more gives [None]. *)

Module PathLoops.
Import PathGraph.

(** [for (i = start; i < n; ++i) body] from the state [s]. *)
Fixpoint for_loop {T} (gas i n : nat) (body : nat -> T -> option T) (s : T)
    : option T :=
  match gas with
  | O => if (n <=? i)%nat then Some s else None
  | S gas' =>
      if (n <=? i)%nat then Some s
      else match body i s with
           | Some s' => for_loop gas' (S i) n body s'
           | None => None
           end
  end.

(** The loop over [b] of the normal path, for [thing] at position [a]. *)
Definition normal_loop (gas : nat) (cfg : Configuration) (things : list MapThing)
    (a : nat) (thing : MapThing) (out : list ThingPath) : option (list ThingPath) :=
  let tt := thingType cfg (t_type thing) in
  let path := mkThingPath (Some 0%nat) (Some 0%nat) None in
  let tid := decode_target (tt_nextArgs tt) thing (-1) in
  (fun st => st.2) <$>
  for_loop gas (S a) (length things)
    (fun b st => normal_step cfg thing (tt_nextType tt) tid st <$> things !! b)
    (path, -1, out).

(** The loops over [d] and [e] of the dragon path. *)
Definition dragon_loop (gas : nat) (cfg : Configuration)
    (dragon_things : list MapThing) (out : list ThingPath)
    : option (list ThingPath) :=
  for_loop gas 0 (length dragon_things)
    (fun d out =>
       match dragon_things !! d with
       | Some t1 =>
           for_loop gas (S d) (length dragon_things)
             (fun e out =>
                (fun t2 => match dragon_pair cfg t1 t2 with
                           | Some dpath => out ++ [dpath]
                           | None => out
                           end) <$> dragon_things !! e)
             out
       | None => None
       end)
    out.

(** The loop over [a]. *)
Definition updateThingPaths_loops (gas : nat) (cfg : Configuration) (m : SLADEMap)
    (things : list MapThing) : option (list ThingPath) :=
  for_loop gas 0 (length things)
    (fun a out =>
       match things !! a with
       | Some thing =>
           if is_dragon cfg (tt_flags (thingType cfg (t_type thing))) then
             match firstWithId m (t_id thing) with
             | Some first =>
                 dragon_loop gas cfg (putDragonTargets m first)
                   (out ++ [mkThingPath (Some (t_index thing))
                              (Some (t_index first)) (Some Dragon)])
             | None => Some out
             end
           else normal_loop gas cfg things a thing out
       | None => None
       end)
    [].

End PathLoops.

(** ** Further passes of the renderer

    The passes below read settings, default arguments and members of the
    renderer that the passes above do not touch.  A member that is not part
    of [MapRenderer2D] above is passed to the pass that uses it and handed
    back by it. *)

(** Modelled from the spec: [Item::asLine], [asSector] and [asThing] are not
    under src; like [asVertex], each resolves an item to the feature at its
    index when the item names a feature of that kind, and to a null pointer
    otherwise. *)
Definition asLine (it : Item) (m : SLADEMap) : option (nat * MapLine) :=
  match item_type it with
  | IT_Line =>
      match map_line m (item_index it) with
      | Some l => Some (Z.to_nat (item_index it), l)
      | None => None
      end
  | _ => None
  end.

Definition asSector (it : Item) (m : SLADEMap) : option (nat * MapSector) :=
  match item_type it with
  | IT_Sector =>
      match map_sector m (item_index it) with
      | Some s => Some (Z.to_nat (item_index it), s)
      | None => None
      end
  | _ => None
  end.

Definition asThing (it : Item) (m : SLADEMap) : option MapThing :=
  match item_type it with
  | IT_Thing => map_thing m (item_index it)
  | _ => None
  end.

(** What the overlay passes read of a sector besides [MapSector] above: the
    parent lines of its connected sides, in the order of [connectedSides],
    and whether its polygon could be built.  Both are kept by the map, by
    sector index. *)
Record SectorSides := mkSectorSides {
  side_lines : nat -> list nat;
  hasPolygon : nat -> bool
}.

(** The settings of [Env], the two console variables of the selection
    passes, and the default arguments that the calls below leave out; the
    defaults are written in headers that are not under src. *)
Record Env2 := mkEnv2 {
  env : Env;
  map_animate_selection : bool;
  sector_selected_fill : bool;
  lineSelectionWidth : float;       (* colourconfig::lineSelectionWidth() *)
  vertexRadius_scale : float;       (* vertexRadius(): scale *)
  add_point_radius : float;         (* PointSpriteBuffer::add: radius *)
  add_thing_alpha : float;          (* ThingBuffer2D::add: alpha *)
  draw_force_dir : bool;            (* ThingBuffer2D::draw: last argument *)
  overlay_radius_extra : float;     (* renderThingOverlays: radius_extra *)
  overlay_offset : Vec2d            (* renderThingOverlays: offset *)
}.

(** A loop that carries a value from turn to turn. *)
Fixpoint fold_each {A B} (l : list A) (s : B) (body : B -> A -> Render B)
    : Render B :=
  match l with
  | [] => ret s
  | x :: l' => do s' <- body s x; fold_each l' s' body
  end.

(** *** Vertices *)

Module Vertices.
Import VertexRadius Hilight.

(** The members [n_vertices_] and [vertices_updated_]. *)
Record VerticesCache := mkVerticesCache {
  n_vertices_ : nat;
  vertices_updated_ : Z
}.

Definition vertex_sprite (E : Env2) (v : MapVertex) : PointSprite :=
  mkPointSprite (f32 (vx (v_position v))) (f32 (vy (v_position v)))
    (add_point_radius E).

(** [updateVerticesBuffer].  The backend trace has no name for the vertices
    buffer; its upload is not recorded. *)
Definition updateVerticesBuffer (E : Env2) (m : SLADEMap) (now : Z)
    : Render VerticesCache :=
  do r <- get_rd;
  let vb := default PointSpriteBuffer_new (vertices_buffer_ r) in
  (* Fill vertices buffer *)
  let staged := psb_points vb ++ (vertex_sprite E <$> vertices m) in
  modify_rd (set_vertices_buffer_
               (Some (mkPointSpriteBuffer [] staged (psb_colour vb)
                        (psb_point_radius vb) (psb_fill_opacity vb)
                        (psb_outline_width vb)))) ;;
  ret (mkVerticesCache (nVertices m) now).

(** The staleness test of [renderVertices]. *)
Definition vertices_stale (m : SLADEMap) (r : MapRenderer2D) (vc : VerticesCache)
    : bool :=
  negb (is_set (vertices_buffer_ r))
  || bool_decide (nVertices m <> n_vertices_ vc)
  || (vertices_updated_ vc <? geometryUpdated m).

Definition renderVertices (E : Env2) (m : SLADEMap) (view_ : View) (now : Z)
    (alpha : float) (vc : VerticesCache) : Render VerticesCache :=
  (* Check there are any vertices to render *)
  if bool_decide (nVertices m = 0%nat) then ret vc
  (* Don't bother if (practically) invisible *)
  else if (alpha <=? c_0_01f)%float then ret vc
  else
    do r <- get_rd;
    (* Update vertices buffer if required *)
    do vc <- (if vertices_stale m r vc then updateVerticesBuffer E m now
              else ret vc);
    do r <- get_rd;
    match vertices_buffer_ r with
    | None => fault
    | Some vb =>
        (* Setup rendering options *)
        let vb := mkPointSpriteBuffer (psb_points vb) (psb_buffer vb)
                    (col_ampf (col_config "map_vertex") 1 1 1 alpha)
                    (vertexRadius (cv (env E)) view_ (vertexRadius_scale E))
                    (psb_fill_opacity vb) (psb_outline_width vb) in
        modify_rd (set_vertices_buffer_ (Some vb)) ;;
        emit (gl_setBlend Blend_Normal) ;;
        (* Set texture *)
        emit gl_enable_texture_2d ;;
        emit (gl_bind_texture (vertexTexture (env E) false)) ;;
        (* Render vertices *)
        emit (gl_draw_points vb PS_Textured None) ;;
        ret vc
    end.

End Vertices.

(** *** Selection overlays *)

Module Selection.
Import VertexRadius Things Hilight.

Definition c_2_0f : float := 2.

(** Reset fade if selection animation is disabled *)
Definition selection_fade (E : Env2) (fade : float) : float :=
  if map_animate_selection E then fade else c_1_0f.

(** Build vertex position list *)
Definition selected_points (m : SLADEMap) (selection : list Item) : list Vec2d :=
  omap (fun item =>
          match asVertex item m with
          | Some (_, v) =>
              Some (mkVec2d (f32 (vx (v_position v))) (f32 (vy (v_position v))))
          | None => None
          end) selection.

Definition renderVertexSelection (E : Env2) (m : SLADEMap) (view_ : View)
    (dc : Context) (selection : list Item) (fade : float) : Render Context :=
  (* Check anything is selected *)
  if bool_decide (selection = []) then ret dc
  else
    let fade := selection_fade E fade in
    (* Draw as point sprites *)
    let dc := setColourFromConfig "map_selection" fade dc in
    let dc := set_dc_texture (vertexTexture (env E) true) dc in
    let dc := set_dc_pointsprite PS_Textured
                (fmul c_1_8f
                   (vertexRadius (cv (env E)) view_ (vertexRadius_scale E))) dc in
    emit (dc_drawPointSprites dc (selected_points m selection)) ;;
    ret dc.

(** Build lines list: a line and its direction tab for every item that
    resolves to a line. *)
Definition selected_lines (m : SLADEMap) (selection : list Item) : list Rectf :=
  flat_map (fun item =>
              match asLine item m with
              | Some (_, line) =>
                  [rect_of (line_start m line) (line_end m line);
                   rect_of (line_mid m line) (line_dirTabPoint m line)]
              | None => []
              end) selection.

Definition renderLineSelection (E : Env2) (m : SLADEMap) (dc : Context)
    (selection : list Item) (fade : float) : Render Context :=
  (* Check anything is selected *)
  if bool_decide (selection = []) then ret dc
  else
    let fade := selection_fade E fade in
    (* Render lines *)
    let dc := setColourFromConfig "map_selection" fade dc in
    let dc := set_dc_line_thickness
                (fmul (line_width (cv (env E))) (lineSelectionWidth E)) dc in
    emit (dc_drawLines dc (selected_lines m selection)) ;;
    ret dc.

Definition renderThingSelection (E : Env2) (m : SLADEMap) (view_ : View)
    (dc : Context) (selection : list Item) (fade : float) : Render Context :=
  (* Check anything is selected *)
  if bool_decide (selection = []) then ret dc
  else
    let fade := selection_fade E fade in
    (* Build list of things *)
    let things := omap (fun item => asThing item m) selection in
    (* Render overlays *)
    let dc := setColourFromConfig "map_selection" fade dc in
    renderThingOverlays (env E) view_ dc things (overlay_radius_extra E)
      (overlay_offset E).

(** One turn of the loop over the sides of a sector: the parent line [l] of
    the side is added to the render list unless [lines_added] has it.  A
    side's parent line is a line of the map; an index outside the map, which
    a well-formed map never holds, is passed over. *)
Definition overlay_side (m : SLADEMap) (acc : list Z * list Rectf) (l : nat)
    : list Z * list Rectf :=
  let '(lines_added, render_lines) := acc in
  match lines m !! l with
  | None => acc
  | Some line =>
      (* Ignore if already added *)
      if 0 <? default 0 (lines_added !! l) then acc
      else
        (* Add line to render list *)
        (<[l := 1]> lines_added,
         render_lines ++ [rect_of (line_start m line) (line_end m line)])
  end.

(** Whether [renderFlatOverlays] passes over a sector with visibility [v]:
    [vis_s_[i] > 0 && vis_s_[i] != VIS_SMALL]. *)
Definition outside_screen (v : Vis) : bool :=
  negb (bool_decide (v = VIS_NONE)) && negb (bool_decide (v = VIS_SMALL)).

(** One turn of the loop of [renderFlatOverlays] over the sectors.  The
    sector pointer is dereferenced unchecked, and the visibility table is
    read at the sector's index unchecked: a null sector, and likewise a read
    past the end of the table, is a fault. *)
Definition overlay_sector (E : Env2) (m : SLADEMap) (ss : SectorSides)
    (acc : list Z * list Rectf) (sector : option nat)
    : Render (list Z * list Rectf) :=
  match sector with
  | None => fault
  | Some s =>
      do r <- get_rd;
      match vis_s_ r !! s with
      | None => fault
      | Some v =>
          (* Don't draw if outside screen (but still draw if it's small) *)
          if outside_screen v then ret acc
          else
            (* Render fill if needed *)
            (if sector_selected_fill E && hasPolygon ss s then
               match flats_buffer_ r with
               | None => fault
               | Some _ => emit (gl_draw_polygon (Z.of_nat s))
               end
             else ret tt) ;;
            (* Go through sides *)
            ret (foldl (overlay_side m) acc (side_lines ss s))
      end
  end.

Definition renderFlatOverlays (E : Env2) (m : SLADEMap) (ss : SectorSides)
    (dc : Context) (sectors : list (option nat)) : Render unit :=
  (* Setup shader (for fill) *)
  emit (gl_shader_colour (col_ampf (dc_colour dc) 1 1 1 c_0_2f)) ;;
  emit (gl_setup_shader (dc_view dc)) ;;
  (* Go through selection, render fill (if needed) and build list of lines
     to render (for outline) *)
  do acc <- fold_each sectors (replicate (nLines m) 0, [])
              (overlay_sector E m ss);
  (* Render lines *)
  emit (dc_drawLines dc acc.2).

Definition renderFlatSelection (E : Env2) (m : SLADEMap) (ss : SectorSides)
    (dc : Context) (selection : list Item) (fade : float) : Render Context :=
  (* Check anything is selected *)
  if bool_decide (selection = []) then ret dc
  else
    let fade := selection_fade E fade in
    (* Set render options *)
    let dc := setColourFromConfig "map_selection" fade dc in
    let dc := set_dc_line_thickness (fmul (line_width (cv (env E))) c_2_0f) dc in
    (* Render flat overlays for selection *)
    let sectors := (fun item => fst <$> asSector item m) <$> selection in
    renderFlatOverlays E m ss dc sectors ;;
    ret dc.

End Selection.

(** *** Moving lines, sectors and things *)

Module MovingMore.
Import VertexRadius Lines Things Hilight Moving.

(** The loop over the lines connected to the vertex [v] of a moving line. *)
Definition mark_vertex (m : SLADEMap) (v : nat) (lines_drawn : list Z) : list Z :=
  match vertices m !! v with
  | Some vertex => foldl (mark_line m v) lines_drawn (connected_lines_ vertex)
  | None => lines_drawn
  end.

(** Determine what lines need drawing (and which of their vertices are being
    moved) *)
Definition mark_line_item (m : SLADEMap) (lines_drawn : list Z) (item : Item)
    : list Z :=
  match asLine item m with
  | Some (_, line) =>
      (* Check first vertex *)
      let lines_drawn := mark_vertex m (l_v1 line) lines_drawn in
      (* Check second vertex *)
      mark_vertex m (l_v2 line) lines_drawn
  | None => lines_drawn
  end.

Definition lines_drawn_of_lines (m : SLADEMap) (items : list Item) : list Z :=
  foldl (mark_line_item m) (replicate (nLines m) 0) items.

Definition moving_lines_of_lines (m : SLADEMap) (items : list Item)
    (move_vec : Vec2d) : list LineEntry :=
  let lines_drawn := lines_drawn_of_lines m items in
  flat_map (moving_line m move_vec lines_drawn) (seq 0 (nLines m)).

(** Build list of moving lines (for overlays) *)
Definition line_overlays (m : SLADEMap) (items : list Item) (move_vec : Vec2d)
    : list Rectf :=
  omap (fun item =>
          match asLine item m with
          | Some (_, line) =>
              let s := line_start m line in
              let e := line_end m line in
              Some (mkRectf (f32 (vx s + vx move_vec)) (f32 (vy s + vy move_vec))
                            (f32 (vx e + vx move_vec)) (f32 (vy e + vy move_vec)))
          | None => None
          end) items.

Definition renderMovingLines (E : Env) (m : SLADEMap) (dc : Context)
    (items : list Item) (move_vec : Vec2d) : Render Context :=
  (* Update moving lines buffer with lines attached to moving vertices *)
  do r <- get_rd;
  let lb := foldl (fun b e => lb_add2d e b) (temp_lines_buffer_ r)
              (moving_lines_of_lines m items move_vec) in
  do lb <- push_lines (gl_context E) buf_temp_lines lb;
  (* Draw moving lines *)
  emit (gl_setBlend Blend_Normal) ;;
  let lb := lb_setWidthMult (line_width (cv E)) lb in
  modify_rd (set_temp_lines_buffer_ lb) ;;
  draw_lines (gl_context E) lb None ;;
  (* Draw moving line overlays *)
  let dc := setColourFromConfig "map_moving" c_1_0f dc in
  let dc := set_dc_line_thickness (fmul (line_width (cv E)) c_3_0f) dc in
  emit (dc_drawLines dc (line_overlays m items move_vec)) ;;
  ret dc.

(** Determine what lines are being moved: the parent line of every
    connected side of every sector of the selection is marked. *)
Definition lines_moved_of (m : SLADEMap) (ss : SectorSides) (sectors : list Item)
    : list Z :=
  foldl (fun lines_moved item =>
           match asSector item m with
           | Some (s, _) =>
               foldl (fun lines_moved l => <[l := 1]> lines_moved) lines_moved
                 (side_lines ss s)
           | None => lines_moved
           end) (replicate (nLines m) 0) sectors.

(** Build list of moving lines *)
Definition moved_line_items (m : SLADEMap) (ss : SectorSides) (sectors : list Item)
    : list Item :=
  let lines_moved := lines_moved_of m ss sectors in
  omap (fun a => if 0 <? default 0 (lines_moved !! a)
                 then Some (mkItem (Z.of_nat a) IT_Line) else None)
    (seq 0 (nLines m)).

Definition renderMovingSectors (E : Env) (m : SLADEMap) (ss : SectorSides)
    (dc : Context) (sectors : list Item) (move_vec : Vec2d) : Render Context :=
  (* Draw moving lines *)
  renderMovingLines E m dc (moved_line_items m ss sectors) move_vec.

(** The entry [renderThings] adds for a thing of the list it is given: the
    thing's position moved by [offset]. *)
Definition moved_entry (E : Env2) (offset : Vec2d) (t : MapThing) : ThingEntry :=
  mkThingEntry (f32 (vx (t_position t) + vx offset))
    (f32 (vy (t_position t) + vy offset)) (t_angle t) (add_thing_alpha E).

(** Add all subsequent things of same type to buffer *)
Definition add_same_type (E : Env2) (offset : Vec2d) (ttype : Z)
    (things : list MapThing) (tb : ThingBuffer2D) : ThingBuffer2D :=
  foldl (fun b t => if t_type t =? ttype then tb_add (moved_entry E offset t) b
                    else b) tb things.

(** The loop of [renderThings] over the list it is given, from the thing at
    [index] on: [things] are the things from [index] to the end of the list,
    [tb] is the member [temp_things_buffer_]. *)
Fixpoint render_by_type (E : Env2) (alpha : float) (offset : Vec2d)
    (things : list MapThing) (types_rendered : list Z) (tb : ThingBuffer2D)
    : Render ThingBuffer2D :=
  match things with
  | [] => ret tb
  | t :: rest =>
      let ttype := t_type t in
      (* Ignore if things of this type were already rendered *)
      if bool_decide (ttype ∈ types_rendered)
      then render_by_type E alpha offset rest types_rendered tb
      else
        (* Setup buffer with thing type properties from game configuration *)
        let tb := setupThingBuffer (env E) ttype tb in
        let tb := add_same_type E offset ttype (t :: rest) tb in
        emit (gl_upload_things ttype (tb_things tb)) ;;
        let tb := tb_push tb in
        (* Render *)
        emit (gl_draw_things tb (col_vec4 1 1 1 alpha)
                (thing_shape (cv (env E)) =? 1) (draw_force_dir E)) ;;
        (* Continue *)
        render_by_type E alpha offset rest (types_rendered ++ [ttype]) tb
  end.

(** [renderThings] for a list of things. *)
Definition renderThings_list (E : Env2) (things : list MapThing) (alpha : float)
    (offset : Vec2d) (tb : ThingBuffer2D) : Render ThingBuffer2D :=
  emit (gl_setBlend Blend_Normal) ;;
  (* Render given things (by type) *)
  render_by_type E alpha offset things [] tb.

Definition renderMovingThings (E : Env2) (m : SLADEMap) (view_ : View)
    (dc : Context) (items : list Item) (move_vec : Vec2d) (tb : ThingBuffer2D)
    : Render (Context * ThingBuffer2D) :=
  let moving_things := omap (fun item => asThing item m) items in
  (* Render things *)
  do tb <- renderThings_list E moving_things c_1_0f move_vec tb;
  (* Render overlays *)
  let dc := setColourFromConfig "map_moving" c_1_0f dc in
  do dc <- renderThingOverlays (env E) view_ dc moving_things 0 move_vec;
  ret (dc, tb).

Definition renderPasteThings (E : Env2) (view_ : View) (dc : Context)
    (things : list MapThing) (pos : Vec2d) (tb : ThingBuffer2D)
    : Render (Context * ThingBuffer2D) :=
  (* Render things *)
  do tb <- renderThings_list E things c_1_0f pos tb;
  (* Render overlays *)
  let dc := setColourFromConfig "map_linedraw" c_1_0f dc in
  do dc <- renderThingOverlays (env E) view_ dc things 0 pos;
  ret (dc, tb).

End MovingMore.

(** ** The view (View.cpp)

    The state of a [gl::View] besides the two scales of [View] above.  The
    projection and view matrices, which [updateMatrices] builds with glm and
    which only [setupShader] reads, are not part of the model. *)

Module ViewOps.

Record ViewState := mkViewState {
  view : View;                     (* scale_ and scale_inter_ *)
  size_ : Z * Z;                   (* Vec2i: width and height in pixels *)
  offset_ : Vec2d;
  offset_inter_ : Vec2d;
  min_scale_ : float;
  max_scale_ : float;
  interpolated_ : bool;
  centered_ : bool;
  y_flipped_ : bool;
  visible_tl : Vec2d;              (* visible_region_.tl *)
  visible_br : Vec2d               (* visible_region_.br *)
}.

Definition set_scale_ (s : Vec2d) (v : ViewState) : ViewState :=
  mkViewState (mkView s (scale_inter_ (view v))) (size_ v) (offset_ v)
    (offset_inter_ v) (min_scale_ v) (max_scale_ v) (interpolated_ v)
    (centered_ v) (y_flipped_ v) (visible_tl v) (visible_br v).

Definition set_scale_inter_ (s : Vec2d) (v : ViewState) : ViewState :=
  mkViewState (mkView (scale_ (view v)) s) (size_ v) (offset_ v)
    (offset_inter_ v) (min_scale_ v) (max_scale_ v) (interpolated_ v)
    (centered_ v) (y_flipped_ v) (visible_tl v) (visible_br v).

Definition set_offset_ (o : Vec2d) (v : ViewState) : ViewState :=
  mkViewState (view v) (size_ v) o (offset_inter_ v) (min_scale_ v)
    (max_scale_ v) (interpolated_ v) (centered_ v) (y_flipped_ v)
    (visible_tl v) (visible_br v).

Definition set_offset_inter_ (o : Vec2d) (v : ViewState) : ViewState :=
  mkViewState (view v) (size_ v) (offset_ v) o (min_scale_ v) (max_scale_ v)
    (interpolated_ v) (centered_ v) (y_flipped_ v) (visible_tl v) (visible_br v).

Definition set_visible_region_ (tl br : Vec2d) (v : ViewState) : ViewState :=
  mkViewState (view v) (size_ v) (offset_ v) (offset_inter_ v) (min_scale_ v)
    (max_scale_ v) (interpolated_ v) (centered_ v) (y_flipped_ v) tl br.

(** Subtraction on [int], with its wrap-around. *)
Definition int_sub (a b : Z) : Z :=
  (a - b + 2147483648) mod 4294967296 - 2147483648.

Definition canvasXUninterpolated (v : ViewState) (screen_x : Z) : float :=
  let s := vx (scale_ (view v)) in
  if centered_ v
  then (of_int screen_x / s + vx (offset_ v) - of_int (size_ v).1 * 0.5 / s)%float
  else (of_int screen_x / s + vx (offset_ v))%float.

Definition canvasYUninterpolated (v : ViewState) (screen_y : Z) : float :=
  let screen_y := if y_flipped_ v then int_sub (size_ v).2 screen_y else screen_y in
  let s := vy (scale_ (view v)) in
  if centered_ v
  then (of_int screen_y / s + vy (offset_ v) - of_int (size_ v).2 * 0.5 / s)%float
  else (of_int screen_y / s + vy (offset_ v))%float.

Definition canvasPosUninterpolated (v : ViewState) (screen_pos : Z * Z) : Vec2d :=
  mkVec2d (canvasXUninterpolated v screen_pos.1)
    (canvasYUninterpolated v screen_pos.2).

Definition canvasX (v : ViewState) (screen_x : Z) : float :=
  let s := vx (scale_inter_ (view v)) in
  if centered_ v
  then (of_int screen_x / s + vx (offset_inter_ v) - of_int (size_ v).1 * 0.5 / s)%float
  else (of_int screen_x / s + vx (offset_inter_ v))%float.

Definition canvasY (v : ViewState) (screen_y : Z) : float :=
  let screen_y := if y_flipped_ v then int_sub (size_ v).2 screen_y else screen_y in
  let s := vy (scale_inter_ (view v)) in
  if centered_ v
  then (of_int screen_y / s + vy (offset_inter_ v) - of_int (size_ v).2 * 0.5 / s)%float
  else (of_int screen_y / s + vy (offset_inter_ v))%float.

(** [updateVisibleRegion] *)
Definition updateVisibleRegion (v : ViewState) : ViewState :=
  if y_flipped_ v then
    set_visible_region_
      (mkVec2d (canvasXUninterpolated v 0) (canvasYUninterpolated v (size_ v).2))
      (mkVec2d (canvasXUninterpolated v (size_ v).1) (canvasYUninterpolated v 0)) v
  else
    set_visible_region_
      (mkVec2d (canvasXUninterpolated v 0) (canvasYUninterpolated v 0))
      (mkVec2d (canvasXUninterpolated v (size_ v).1)
         (canvasYUninterpolated v (size_ v).2)) v.

(** Check for zoom limits: one component of the scale against the limits,
    the lower one first. *)
Definition limit_scale (v : ViewState) (s : float) : float :=
  let s := if (s <? min_scale_ v)%float then min_scale_ v else s in
  if (max_scale_ v <? s)%float then max_scale_ v else s.

Definition limit_scales (v : ViewState) : ViewState :=
  set_scale_ (mkVec2d (limit_scale v (vx (scale_ (view v))))
                (limit_scale v (vy (scale_ (view v))))) v.

(** [setScale] *)
Definition setScale (v : ViewState) (scale : Vec2d) (focus_point : Z * Z)
    : ViewState :=
  (* Get current [point] in canvas coords before scaling *)
  let orig_point := canvasPosUninterpolated v focus_point in
  (* Update scale *)
  let v := set_scale_ scale v in
  (* Check for zoom limits *)
  let v := limit_scales v in
  (* Update offset so that [focus_point] stays at the same relative
     screen/canvas position *)
  let v := set_offset_
             (mkVec2d (vx (offset_ v)
                       + (vx orig_point - canvasXUninterpolated v focus_point.1))%float
                (vy (offset_ v))) v in
  let v := set_offset_
             (mkVec2d (vx (offset_ v))
                (vy (offset_ v)
                 + (vy orig_point - canvasYUninterpolated v focus_point.2))%float) v in
  let v := if interpolated_ v then v
           else set_scale_inter_ (scale_ (view v))
                  (set_offset_inter_ (offset_ v) v) in
  (* Update screen limits *)
  updateVisibleRegion v.

(** [resetInter] *)
Definition resetInter (v : ViewState) (x y scale : bool) : ViewState :=
  let v := if x then set_offset_inter_
                       (mkVec2d (vx (offset_ v)) (vy (offset_inter_ v))) v
           else v in
  let v := if y then set_offset_inter_
                       (mkVec2d (vx (offset_inter_ v)) (vy (offset_ v))) v
           else v in
  if scale then set_scale_inter_ (scale_ (view v)) v else v.

(** [pan] *)
Definition pan (v : ViewState) (x y : float) : ViewState :=
  let v := set_offset_ (mkVec2d (vx (offset_ v) + x) (vy (offset_ v) + y))%float v in
  let v := if interpolated_ v then v else set_offset_inter_ (offset_ v) v in
  updateVisibleRegion v.

(** [zoom] *)
Definition zoom (v : ViewState) (amount : float) : ViewState :=
  (* Zoom view *)
  let v := set_scale_ (mkVec2d (vx (scale_ (view v)) * amount)
                         (vy (scale_ (view v)) * amount))%float v in
  (* Check for zoom limits *)
  let v := limit_scales v in
  let v := if interpolated_ v then v else set_scale_inter_ (scale_ (view v)) v in
  (* Update screen limits *)
  updateVisibleRegion v.

Definition c_scale_eps : float := 0x1.ad7f29abcaf48p-24.    (* 0.0000001 *)
Definition c_offset_eps : float := 0x1.999999999999ap-5.    (* 0.05 *)

(** One of the two offset parts of [interpolate]: the interpolated offset
    [inter] after the step towards [target], and whether it is still on its
    way. *)
Definition interpolate_offset (target inter mult : float) : float * bool :=
  let diff := (target - inter)%float in
  if (diff <? - c_offset_eps)%float || (c_offset_eps <? diff)%float then
    (* Interpolate offset *)
    let inter := (inter + diff * mult)%float in
    if ((diff <? 0) && (inter <? target))%float
       || ((0 <? diff) && (target <? inter))%float
    then (target, false)
    else (inter, true)
  else (target, false).

Section Interpolate.
(** The conversion of a [double] to the [int] that [canvasX] and [canvasY]
    take, and [View::setOffset], which is written in the header. *)
Variable to_int : float -> Z.
Variable setOffset : ViewState -> float -> float -> ViewState.

(** [interpolate]: the view after the step, and whether any of the three
    interpolations is still on its way. *)
Definition interpolate (v : ViewState) (mult : float) (towards : option Vec2d)
    : ViewState * bool :=
  (* Scale *)
  let diff_scale :=
    mkVec2d (vx (scale_ (view v)) - vx (scale_inter_ (view v)))
      (vy (scale_ (view v)) - vy (scale_inter_ (view v)))%float in
  let '(v, interpolating) :=
    if (vx diff_scale <? - c_scale_eps)%float || (c_scale_eps <? vx diff_scale)%float
    then
      (* Get current mouse position in canvas coordinates *)
      let '(mx, my) := match towards with
                       | Some t => (canvasX v (to_int (vx t)), canvasY v (to_int (vy t)))
                       | None => (0, 0)%float
                       end in
      (* Interpolate zoom *)
      let v := set_scale_inter_
                 (mkVec2d (vx (scale_inter_ (view v)) + vx diff_scale * mult)
                    (vy (scale_inter_ (view v)) + vy diff_scale * mult))%float v in
      (* Check for zoom finish *)
      let '(v, interpolating) :=
        if ((vx diff_scale <? 0)
            && (vx (scale_inter_ (view v)) <? vx (scale_ (view v))))%float
           || ((0 <? vx diff_scale)
               && (vx (scale_ (view v)) <? vx (scale_inter_ (view v))))%float
        then (set_scale_inter_ (scale_ (view v)) v, false)
        else (v, true) in
      match towards with
      | Some t =>
          let v := setOffset v
                     (vx (offset_inter_ v) + mx - canvasX v (to_int (vx t)))%float
                     (vy (offset_inter_ v) + my - canvasY v (to_int (vy t)))%float in
          (set_offset_inter_ (offset_ v) v, interpolating)
      | None => (v, interpolating)
      end
    else (set_scale_inter_ (scale_ (view v)) v, false) in
  (* X offset *)
  let '(x, moving_x) :=
    interpolate_offset (vx (offset_ v)) (vx (offset_inter_ v)) mult in
  let v := set_offset_inter_ (mkVec2d x (vy (offset_inter_ v))) v in
  (* Y offset *)
  let '(y, moving_y) :=
    interpolate_offset (vy (offset_ v)) (vy (offset_inter_ v)) mult in
  let v := set_offset_inter_ (mkVec2d (vx (offset_inter_ v)) y) v in
  (v, interpolating || moving_x || moving_y).

End Interpolate.

End ViewOps.

(** * Properties *)

(** ** Sample inputs *)

Module Samples.

(** A map with one line between two vertices, untouched since time 0. *)
Definition one_line_map : SLADEMap :=
  mkSLADEMap
    [mkMapVertex (mkVec2d 0 0) [0%nat]; mkMapVertex (mkVec2d 64 0) [0%nat]]
    [mkMapLine 0 1 0 (Some 0%nat) None false 0]
    [] [] 0 0 (fun _ => [])
    (fun _ => mkVec2d 32 0) (fun _ => mkVec2d 32 8).

(** The default settings, with a game configuration of plain thing types. *)
Definition default_env : Env :=
  mkEnv (mkCVars true 7 1.5 0 true false true true)
    (mkTextureManager (fun _ => 0) (fun _ => 1))
    (mkConfiguration (fun _ => mkThingType 0 0 0 20 false "" "") 2)
    3 true.

(** The same settings where no GL context is current. *)
Definition headless_env : Env :=
  mkEnv (cv default_env) (textures default_env) (configuration default_env)
    (lineHilightWidth default_env) false.

Definition unit_view : View := mkView (mkVec2d 1 1) (mkVec2d 1 1).

(** A freshly constructed renderer in front of a backend that has seen no
    call yet. *)
Definition new_world : World := mkWorld MapRenderer2D_new [].

(** The world a pass leaves, for a pass that completes. *)
Definition world_after {A} (res : Res A) : World :=
  match res with Ok _ w => w | Fault => new_world end.

Definition plain_context : Context :=
  mkContext col_default Blend_Normal 0 1 PS_Circle 1 unit_view.

End Samples.

(** ** Geometry buffers *)

Module BufferFacts.

(** Adding entries appends them to the staging list, in order. *)
Lemma lb_lines_fold_add (es : list LineEntry) (b : LineBuffer) :
  lb_lines (foldl (fun b e => lb_add2d e b) b es) = lb_lines b ++ es.
Proof.
  revert b. induction es as [|e es IH]; intros b; simpl.
  - rewrite app_nil_r. reflexivity.
  - rewrite IH. simpl. rewrite <- app_assoc. reflexivity.
Qed.

End BufferFacts.

(** ** Sector visibility *)

Module VisibilityFacts.
Import Visibility.

Section Loop.
Variables (m : SLADEMap) (view_ : View) (view_tl view_br : Vec2d).

Lemma visit_sector_classify vis a s :
  sectors m !! a = Some s ->
  visit_sector m view_ view_tl view_br vis a
  = <[a := classify view_ view_tl view_br (boundingBox s)]> vis.
Proof.
  intros Hs. unfold visit_sector, classify. rewrite Hs.
  repeat match goal with
         | |- context [if ?c then _ else _] => destruct c; simpl
         end;
    rewrite ?list_insert_insert_eq; reflexivity.
Qed.

(** The state of the table after the first [k] turns of the loop. *)
Lemma loop_prefix vis k :
  (k <= nSectors m)%nat ->
  length vis = nSectors m ->
  let res := foldl (visit_sector m view_ view_tl view_br) vis (seq 0 k) in
  length res = nSectors m
  /\ (forall a s, (a < k)%nat -> sectors m !! a = Some s ->
        res !! a = Some (classify view_ view_tl view_br (boundingBox s)))
  /\ (forall a, (k <= a)%nat -> res !! a = vis !! a).
Proof.
  intros Hk Hlen. induction k as [|k IH]; cbv zeta.
  - simpl. split; [assumption|]. split; [intros; lia | reflexivity].
  - destruct IH as (IHlen & IHlt & IHge); [lia|].
    rewrite seq_S, foldl_snoc. simpl.
    destruct (lookup_lt_is_Some_2 (sectors m) k) as [sk Hsk];
      [unfold nSectors in Hk; lia|].
    rewrite (visit_sector_classify _ _ _ Hsk).
    repeat split.
    + rewrite length_insert. exact IHlen.
    + intros a s Ha Hs. destruct (decide (a = k)) as [->|Hne].
      * rewrite list_lookup_insert_eq by lia. congruence.
      * rewrite list_lookup_insert_ne by congruence. apply IHlt; [lia|exact Hs].
    + intros a Ha. rewrite list_lookup_insert_ne by lia. apply IHge. lia.
Qed.

Lemma updateVisibility_length r :
  length (vis_s_ (updateVisibility m view_ view_tl view_br r)) = nSectors m.
Proof.
  unfold updateVisibility; simpl.
  apply loop_prefix; [lia|].
  case_bool_decide as Hn; [apply length_replicate|].
  destruct (decide (nSectors m = length (vis_s_ r))); congruence.
Qed.

Lemma updateVisibility_lookup r a s :
  sectors m !! a = Some s ->
  vis_s_ (updateVisibility m view_ view_tl view_br r) !! a
  = Some (classify view_ view_tl view_br (boundingBox s)).
Proof.
  intros Hs. unfold updateVisibility; simpl.
  apply loop_prefix; [lia| |apply lookup_lt_Some in Hs; exact Hs|exact Hs].
  case_bool_decide as Hn; [apply length_replicate|].
  destruct (decide (nSectors m = length (vis_s_ r))); congruence.
Qed.

Lemma updateVisibility_table r :
  vis_s_ (updateVisibility m view_ view_tl view_br r)
  = (fun s => classify view_ view_tl view_br (boundingBox s)) <$> sectors m.
Proof.
  apply list_eq. intros a. rewrite list_lookup_fmap.
  destruct (sectors m !! a) as [s|] eqn:Hs.
  - apply updateVisibility_lookup, Hs.
  - apply lookup_ge_None. rewrite updateVisibility_length.
    apply lookup_ge_None in Hs. exact Hs.
Qed.
End Loop.

(** C1. A sector whose bounding box lies entirely to the left of the
    viewport ([bbox.max.x < view_tl.x]) and whose width or height, multiplied
    by the view scale, is below 4 is entered in the table as TooSmall, not as
    Left: the TooSmall test is the last one and overwrites the direction. *)
Theorem updateVisibility_small_beats_left
    (m : SLADEMap) (view_ : View) (view_tl view_br : Vec2d) (r : MapRenderer2D)
    (a : nat) (s : MapSector) :
  sectors m !! a = Some s ->
  (vx (bb_max (boundingBox s)) <? vx view_tl)%float = true ->
  ((vx (bb_max (boundingBox s)) - vx (bb_min (boundingBox s)))
     * vx (View_scale view_ false) <? 4)%float = true
  \/ ((vy (bb_max (boundingBox s)) - vy (bb_min (boundingBox s)))
        * vx (View_scale view_ false) <? 4)%float = true ->
  vis_s_ (updateVisibility m view_ view_tl view_br r) !! a = Some VIS_SMALL
  /\ vis_s_ (updateVisibility m view_ view_tl view_br r) !! a <> Some VIS_LEFT.
Proof.
  intros Hs _ Hsmall.
  rewrite (updateVisibility_lookup _ _ _ _ _ _ _ Hs).
  assert (classify view_ view_tl view_br (boundingBox s) = VIS_SMALL) as ->.
  { unfold classify. destruct Hsmall as [-> | ->]; [reflexivity|].
    rewrite orb_true_r. reflexivity. }
  split; [reflexivity | discriminate].
Qed.

(** C5. After [updateVisibility] the table has one entry per live sector,
    and [visOK] holds exactly when the size of the table is the live sector
    count; so it holds right after the update. *)
Theorem updateVisibility_table_size
    (m : SLADEMap) (view_ : View) (view_tl view_br : Vec2d) (r : MapRenderer2D) :
  length (vis_s_ (updateVisibility m view_ view_tl view_br r)) = nSectors m
  /\ (forall (m' : SLADEMap) (r' : MapRenderer2D),
        visOK m' r' = true <-> length (vis_s_ r') = nSectors m')
  /\ visOK m (updateVisibility m view_ view_tl view_br r) = true.
Proof.
  assert (forall (m' : SLADEMap) (r' : MapRenderer2D),
            visOK m' r' = true <-> length (vis_s_ r') = nSectors m') as Hok.
  { intros m' r'. unfold visOK. rewrite bool_decide_eq_true. split; congruence. }
  repeat split.
  - apply updateVisibility_length.
  - apply Hok.
  - apply Hok.
  - apply Hok, updateVisibility_length.
Qed.

(** C10. The TooSmall test multiplies the width and the height of the
    bounding box by the horizontal view scale: a sector's entry is TooSmall
    exactly when one of the two products is below 4, and two runs that differ
    only in the vertical view scale give the same table. *)
Theorem updateVisibility_ignores_vertical_scale
    (m : SLADEMap) (sx sy sy' : float) (inter : Vec2d)
    (view_tl view_br : Vec2d) (r : MapRenderer2D) :
  updateVisibility m (mkView (mkVec2d sx sy) inter) view_tl view_br r
  = updateVisibility m (mkView (mkVec2d sx sy') inter) view_tl view_br r
  /\ (fun v => bool_decide (v = VIS_SMALL))
     <$> vis_s_ (updateVisibility m (mkView (mkVec2d sx sy) inter) view_tl view_br r)
     = (fun s =>
          let bbox := boundingBox s in
          ((vx (bb_max bbox) - vx (bb_min bbox)) * sx <? 4)%float
          || ((vy (bb_max bbox) - vy (bb_min bbox)) * sx <? 4)%float)
       <$> sectors m.
Proof.
  split.
  - unfold updateVisibility. f_equal.
  - rewrite updateVisibility_table, <- list_fmap_compose.
    apply list_fmap_ext. intros _ s _.
    unfold classify; simpl.
    repeat match goal with
           | |- context [if ?c then _ else _] => destruct c; simpl
           end; reflexivity.
Qed.

(** A map with one sector of 2 by 2 map units left of a viewport that starts
    at the origin, seen at scale 1. *)
Definition tiny_left_sector : MapSector :=
  mkMapSector (mkBBox (mkVec2d (-10) (-10)) (mkVec2d (-8) (-8))) [].

Definition tiny_left_map : SLADEMap :=
  mkSLADEMap [] [] [tiny_left_sector] [] 0 0 (fun _ => [])
    (fun _ => mkVec2d 0 0) (fun _ => mkVec2d 0 0).

Lemma updateVisibility_small_beats_left_witness :
  let r := updateVisibility tiny_left_map (mkView (mkVec2d 1 1) (mkVec2d 1 1))
             (mkVec2d 0 0) (mkVec2d 100 100) MapRenderer2D_new in
  vis_s_ r !! 0%nat = Some VIS_SMALL /\ vis_s_ r !! 0%nat <> Some VIS_LEFT.
Proof.
  apply (updateVisibility_small_beats_left tiny_left_map _ _ _ _ 0 tiny_left_sector);
    [reflexivity | reflexivity | left; reflexivity].
Defined.

End VisibilityFacts.

(** ** Vertex radius *)

Module VertexRadiusFacts.
Import VertexRadius.

Definition default_cvars : CVars := mkCVars true 7 1.5 0 true false true true.

(** With vertex_size 2 at scale 2.0 the raw size 1.0 is below the minimum 2.0:
    the result is 2.0 * 0.5 = 1.0, where clamping after the 0.5 factor would
    have given 2.0. *)
Example vertexRadius_clamped :
  vertexRadius (mkCVars true 2 1.5 0 true false true true)
    (mkView (mkVec2d 2 2) (mkVec2d 2 2)) 1 = 1%float.
Proof. reflexivity. Qed.

(** C8. At horizontal view scale 2.0 with vertex_size 7 the raw size is
    7/2.0 = 3.5, the shrink for scales below 1.0 is skipped, the minimum is
    4.0/2.0 = 2.0 and leaves 3.5 as it is, and the result is 3.5 * 0.5 * scale,
    that is 1.75 * scale, as a [float].  In general the size is clamped to the
    minimum before it is multiplied by 0.5 and by the caller's scale. *)
Theorem vertexRadius_clamp_order (cv : CVars) (view_ : View) (scale : float) :
  (vertex_size cv = 7 -> vx (scale_inter_ view_) = 2%float ->
     raw_size cv 2 = 3.5%float
     /\ shrink 2 3.5 = 3.5%float
     /\ min_size 2 = 2%float
     /\ clamp_min 3.5 2 = 3.5%float
     /\ vertexRadius cv view_ scale = f32 (3.5 * 0.5 * scale)%float
     /\ vertexRadius cv view_ scale = f32 (1.75 * scale)%float)
  /\ (let vscale := vx (scale_inter_ view_) in
      let size := shrink vscale (raw_size cv vscale) in
      vertexRadius cv view_ scale
      = if (size <? min_size vscale)%float
        then f32 (min_size vscale * 0.5 * scale)%float
        else f32 (size * 0.5 * scale)%float).
Proof.
  split.
  - intros Hsize Hscale.
    assert (raw_size cv 2 = 3.5%float) as Hraw
      by (unfold raw_size; rewrite Hsize; reflexivity).
    repeat split; try reflexivity; try exact Hraw.
    + unfold vertexRadius; simpl. rewrite Hscale, Hraw. reflexivity.
    + unfold vertexRadius; simpl. rewrite Hscale, Hraw. reflexivity.
  - unfold vertexRadius, clamp_min; simpl.
    destruct (_ <? _)%float; reflexivity.
Qed.

Lemma vertexRadius_clamp_order_witness :
  vertexRadius default_cvars (mkView (mkVec2d 2 2) (mkVec2d 2 2)) 1 = 1.75%float.
Proof.
  destruct (vertexRadius_clamp_order default_cvars
              (mkView (mkVec2d 2 2) (mkVec2d 2 2)) 1) as [H _].
  destruct H as (_ & _ & _ & _ & _ & H); [reflexivity | reflexivity |].
  rewrite H. reflexivity.
Defined.

End VertexRadiusFacts.

(** ** The cached lines buffer *)

Module LinesFacts.
Import Lines Samples BufferFacts.

(** A rebuild on a map that has a line stages at least one entry. *)
Lemma rebuild_stages_entries (m : SLADEMap) (sd : bool) (b : LineBuffer) :
  lines m <> [] ->
  lb_lines (foldl (fun b line => foldl (fun b e => lb_add2d e b) b
                                   (line_entries m sd line)) b (lines m)) <> [].
Proof.
  intros Hne. destruct (lines m) as [|l ls] using rev_ind; [congruence|].
  rewrite foldl_snoc, lb_lines_fold_add. unfold line_entries.
  intros Habs. apply app_eq_nil in Habs as [_ Habs]. discriminate.
Qed.

Lemma lines_rebuilds_snoc (w : World) (r : MapRenderer2D) (c : GLCall) :
  lines_rebuilds (mkWorld r (backend w ++ [c]))
  = (lines_rebuilds w + if is_lines_upload c then 1 else 0)%nat.
Proof.
  unfold lines_rebuilds; simpl. rewrite filter_app, length_app. f_equal.
  rewrite filter_cons. destruct (is_lines_upload c); simpl.
  - destruct (decide (true = true)); [reflexivity | congruence].
  - destruct (decide (false = true)); [congruence | reflexivity].
Qed.

(** The cached buffer after a call of [renderLines] that does not rebuild
    it: when the call is not rejected, the line width is set on it. *)
Definition lb_setWidthMult_opt (E : Env) (alpha : float) (m : SLADEMap)
    (b : option LineBuffer) : option LineBuffer :=
  if bool_decide (nLines m = 0%nat) then b
  else if (alpha <=? c_0_01f)%float then b
  else lb_setWidthMult (line_width (cv E)) <$> b.

Lemma lb_setWidthMult_opt_buffer (E : Env) (alpha : float) (m : SLADEMap)
    (b : option LineBuffer) :
  lb_buffer <$> lb_setWidthMult_opt E alpha m b = lb_buffer <$> b.
Proof.
  unfold lb_setWidthMult_opt.
  destruct (bool_decide (nLines m = 0%nat)), (alpha <=? c_0_01f)%float, b;
    reflexivity.
Qed.

Lemma lb_setWidthMult_opt_lines (E : Env) (alpha : float) (m : SLADEMap)
    (b : option LineBuffer) :
  lb_lines <$> lb_setWidthMult_opt E alpha m b = lb_lines <$> b.
Proof.
  unfold lb_setWidthMult_opt.
  destruct (bool_decide (nLines m = 0%nat)), (alpha <=? c_0_01f)%float, b;
    reflexivity.
Qed.

Lemma draw_lines_run (ctx : bool) (lb : LineBuffer) (colour : option ColRGBA)
    (w : World) :
  draw_lines ctx lb colour w
  = Ok tt (mkWorld (rd w)
             (backend w ++ if lb_draws ctx lb then [gl_draw_lines lb colour] else [])).
Proof.
  unfold draw_lines. destruct (lb_draws ctx lb); [reflexivity|].
  unfold ret. rewrite app_nil_r. destruct w; reflexivity.
Qed.

Lemma push_lines_run (ctx : bool) (target : BufferName) (lb : LineBuffer)
    (w : World) :
  push_lines ctx target lb w
  = Ok (lb_push ctx lb)
      (mkWorld (rd w)
         (backend w ++ if ctx then [gl_upload_lines target (lb_lines lb)] else [])).
Proof.
  unfold push_lines, bind. destruct ctx; [reflexivity|].
  unfold ret. rewrite app_nil_r. destruct w; reflexivity.
Qed.

(** Calls that are not uploads of the lines buffer do not count as
    rebuilds. *)
Lemma lines_rebuilds_draw (w : World) (r : MapRenderer2D) (cs : list GLCall) :
  Forall (fun c => is_lines_upload c = false) cs ->
  lines_rebuilds (mkWorld r (backend w ++ cs)) = lines_rebuilds w.
Proof.
  intros Hcs. unfold lines_rebuilds. cbn [backend].
  rewrite filter_app, length_app.
  replace (filter (fun c => is_lines_upload c = true) cs) with (@nil GLCall);
    [simpl; lia|].
  induction Hcs as [|c cs Hc _ IH]; [reflexivity|].
  rewrite filter_cons_False by congruence. exact IH.
Qed.

(** A call that finds the cache fresh draws the cached buffer and leaves the
    cache as it is. *)
Lemma renderLines_fresh (E : Env) (m : SLADEMap) (view_ : View) (now : Z)
    (sd : bool) (alpha : float) (w : World) :
  nLines m = 0%nat \/ lines_stale m sd (rd w) = false ->
  exists w', renderLines E m view_ now sd alpha w = Ok tt w'
    /\ lines_rebuilds w' = lines_rebuilds w
    /\ lines_buffer_ (rd w') = lb_setWidthMult_opt E alpha m (lines_buffer_ (rd w))
    /\ lines_dirs_ (rd w') = lines_dirs_ (rd w)
    /\ n_lines_ (rd w') = n_lines_ (rd w)
    /\ lines_updated_ (rd w') = lines_updated_ (rd w)
    /\ ((forall lb, lines_buffer_ (rd w) = Some lb ->
                    lb_width_mult lb = line_width (cv E)) ->
        rd w' = rd w).
Proof.
  intros Hfresh. unfold renderLines, lb_setWidthMult_opt.
  case_bool_decide as Hn; [exists w; repeat split|].
  destruct (alpha <=? c_0_01f)%float; [exists w; repeat split|].
  destruct Hfresh as [Hz | Hfresh]; [congruence|].
  unfold bind, get_rd, ret. rewrite Hfresh. cbn [rd].
  unfold lines_stale in Hfresh.
  destruct (lines_buffer_ (rd w)) as [lb|] eqn:Hlb; [|discriminate].
  unfold modify_rd. rewrite draw_lines_run. cbn [rd backend].
  eexists. split; [reflexivity|]. cbn [rd backend].
  split; [|repeat split].
  - apply lines_rebuilds_draw.
    destruct (lb_draws _ _); repeat constructor.
  - intros Hwidth. specialize (Hwidth lb eq_refl).
    destruct (rd w) as []; simpl in *. subst.
    destruct lb as []; simpl in *. subst. reflexivity.
Qed.

(** With a GL context, a call that is not fast-rejected completes and leaves
    a buffer that was drawn with the current line width; when nothing in the
    map is newer than the cache timestamp it leaves, the cache is fresh for
    the same [show_direction]. *)
Lemma renderLines_leaves_fresh (E : Env) (m : SLADEMap) (view_ : View) (now : Z)
    (sd : bool) (alpha : float) (w : World) :
  gl_context E = true ->
  (alpha <=? c_0_01f)%float = false ->
  exists w1, renderLines E m view_ now sd alpha w = Ok tt w1
    /\ (nLines m = 0%nat
        \/ ((geometryUpdated m <= lines_updated_ (rd w1) ->
             modifiedSince_lines m (lines_updated_ (rd w1)) = false ->
             lines_stale m sd (rd w1) = false)
            /\ forall lb, lines_buffer_ (rd w1) = Some lb ->
                          lb_width_mult lb = line_width (cv E))).
Proof.
  intros Hctx Halpha. unfold renderLines. rewrite Halpha.
  case_bool_decide as Hn; [exists w; split; [reflexivity | left; exact Hn]|].
  assert (lines m <> []) as Hlines
    by (intros Habs; apply Hn; unfold nLines; rewrite Habs; reflexivity).
  unfold bind at 1. unfold get_rd at 1.
  destruct (lines_stale m sd (rd w)) eqn:Hstale.
  - (* the call rebuilds the cache *)
    unfold updateLinesBuffer, bind, get_rd, modify_rd.
    rewrite push_lines_run, Hctx. cbn [rd backend lines_buffer_ set_lines_cache].
    rewrite draw_lines_run. cbn [rd backend].
    eexists. split; [reflexivity | right]. cbn [rd]. split.
    + intros Hgeo Hmod. unfold lines_stale.
      cbn [set_lines_buffer_ set_lines_cache lines_buffer_ lines_dirs_ n_lines_
           lines_updated_ lb_setWidthMult lb_push lb_buffer] in *.
      rewrite eqb_reflx. cbn [negb orb].
      rewrite bool_decide_eq_false_2 by (apply rebuild_stages_entries, Hlines).
      rewrite bool_decide_eq_false_2 by (intros Hne; apply Hne; reflexivity).
      rewrite Hmod. cbn [orb].
      rewrite orb_false_r. apply Z.ltb_ge. exact Hgeo.
    + intros lb [= <-]. reflexivity.
  - (* the call finds the cache fresh *)
    unfold ret. cbn [rd]. unfold lines_stale in Hstale.
    destruct (lines_buffer_ (rd w)) as [lb|] eqn:Hlb; [|discriminate].
    unfold bind, get_rd, modify_rd. cbn [rd]. rewrite Hlb.
    rewrite draw_lines_run. cbn [rd backend].
    eexists. split; [reflexivity | right]. cbn [rd]. split.
    + intros _ _. unfold lines_stale.
      cbn [set_lines_buffer_ set_lines_cache lines_buffer_ lines_dirs_ n_lines_
           lines_updated_ lb_setWidthMult lb_buffer].
      exact Hstale.
    + intros lb' [= <-]. reflexivity.
Qed.

(** C2 (amended). With a GL context, a first call of [renderLines] that is
    not fast-rejected for its alpha completes; when the map is then as old as
    the cache that call leaves (no geometry update and no line modified past
    the cache timestamp, the same lines), a second call with the same
    [show_direction] performs no rebuild: the rebuild counter, the cached
    buffer contents, direction flag, count and timestamp are those left by
    the first call, and with an unchanged line width so is the whole renderer
    state. *)
Theorem renderLines_second_call_no_rebuild
    (E1 E2 : Env) (m : SLADEMap) (view_ : View) (now1 now2 : Z)
    (show_direction : bool) (alpha1 alpha2 : float) (w : World) :
  gl_context E1 = true ->
  (alpha1 <=? c_0_01f)%float = false ->
  exists w1,
    renderLines E1 m view_ now1 show_direction alpha1 w = Ok tt w1
    /\ (geometryUpdated m <= lines_updated_ (rd w1) ->
        modifiedSince_lines m (lines_updated_ (rd w1)) = false ->
        exists w2,
          renderLines E2 m view_ now2 show_direction alpha2 w1 = Ok tt w2
          /\ lines_rebuilds w2 = lines_rebuilds w1
          /\ lb_buffer <$> lines_buffer_ (rd w2) = lb_buffer <$> lines_buffer_ (rd w1)
          /\ lb_lines <$> lines_buffer_ (rd w2) = lb_lines <$> lines_buffer_ (rd w1)
          /\ lines_dirs_ (rd w2) = lines_dirs_ (rd w1)
          /\ n_lines_ (rd w2) = n_lines_ (rd w1)
          /\ lines_updated_ (rd w2) = lines_updated_ (rd w1)
          /\ (line_width (cv E2) = line_width (cv E1) -> rd w2 = rd w1)).
Proof.
  intros Hctx Halpha.
  destruct (renderLines_leaves_fresh E1 m view_ now1 show_direction alpha1 w
              Hctx Halpha) as (w1 & Hrun1 & Hw1).
  exists w1. split; [exact Hrun1|]. intros Hgeo Hmod.
  destruct (renderLines_fresh E2 m view_ now2 show_direction alpha2 w1)
    as (w2 & Hrun2 & Hcount & Hbuf & Hdirs & Hn & Htime & Hsame).
  { destruct Hw1 as [Hz | [Hfresh _]]; [left; exact Hz | right; auto]. }
  exists w2. split; [exact Hrun2|]. split; [exact Hcount|].
  split; [rewrite Hbuf; apply lb_setWidthMult_opt_buffer|].
  split; [rewrite Hbuf; apply lb_setWidthMult_opt_lines|].
  repeat split; try assumption.
  intros Hwidth. destruct Hw1 as [Hz | [_ Hlb]].
  - unfold renderLines in Hrun2. rewrite bool_decide_eq_true_2 in Hrun2 by exact Hz.
    injection Hrun2 as <-. reflexivity.
  - apply Hsame. intros lb Hlb'. rewrite Hwidth. apply Hlb, Hlb'.
Qed.

(** C2 (as stated) fails, in two ways.  On a fresh renderer a first call with
    alpha 0 is fast-rejected and builds nothing; with the map untouched, a
    second call with the same [show_direction] and alpha 1 rebuilds the
    buffer and moves the cache timestamp.  And without a GL context
    [LineBuffer::push] uploads nothing, so the buffer a first call builds
    stays empty: a second call with the very same arguments on the untouched
    map runs [updateLinesBuffer] again, which moves the cache timestamp and
    stages the lines a second time. *)
Lemma renderLines_second_call_rebuilds :
  (exists w1 w2,
     renderLines default_env one_line_map unit_view 100 false 0 new_world = Ok tt w1
     /\ geometryUpdated one_line_map <= lines_updated_ (rd w1)
     /\ modifiedSince_lines one_line_map (lines_updated_ (rd w1)) = false
     /\ renderLines default_env one_line_map unit_view 200 false 1 w1 = Ok tt w2
     /\ lines_rebuilds w1 = 0%nat
     /\ lines_rebuilds w2 = 1%nat
     /\ lines_updated_ (rd w1) = 0
     /\ lines_updated_ (rd w2) = 200
     /\ lines_buffer_ (rd w1) = None
     /\ is_set (lines_buffer_ (rd w2)) = true)
  /\ (exists w1 w2,
        renderLines headless_env one_line_map unit_view 100 false 1 new_world
        = Ok tt w1
        /\ geometryUpdated one_line_map <= lines_updated_ (rd w1)
        /\ modifiedSince_lines one_line_map (lines_updated_ (rd w1)) = false
        /\ renderLines headless_env one_line_map unit_view 200 false 1 w1 = Ok tt w2
        /\ lines_updated_ (rd w1) = 100
        /\ lines_updated_ (rd w2) = 200
        /\ (length <$> (lb_lines <$> lines_buffer_ (rd w1))) = Some 1%nat
        /\ (length <$> (lb_lines <$> lines_buffer_ (rd w2))) = Some 2%nat).
Proof.
  split.
  - exists new_world.
    exists (world_after (renderLines default_env one_line_map unit_view 200 false 1
                           new_world)).
    split; [reflexivity|].
    split; [simpl; lia|].
    split; [reflexivity|].
    split; [vm_compute; reflexivity|].
    repeat split.
  - exists (world_after (renderLines headless_env one_line_map unit_view 100 false 1
                           new_world)).
    exists (world_after
              (renderLines headless_env one_line_map unit_view 200 false 1
                 (world_after (renderLines headless_env one_line_map unit_view 100
                                 false 1 new_world)))).
    split; [vm_compute; reflexivity|].
    split; [vm_compute; discriminate|].
    split; [vm_compute; reflexivity|].
    split; [vm_compute; reflexivity|].
    repeat split.
Qed.

Lemma renderLines_second_call_no_rebuild_witness :
  exists w1 w2,
    renderLines default_env one_line_map unit_view 100 false 1 new_world = Ok tt w1
    /\ renderLines default_env one_line_map unit_view 200 false 1 w1 = Ok tt w2
    /\ lines_rebuilds w2 = lines_rebuilds w1
    /\ rd w2 = rd w1.
Proof.
  destruct (renderLines_second_call_no_rebuild default_env default_env one_line_map
              unit_view 100 200 false 1 1 new_world eq_refl eq_refl)
    as (w1 & Hrun1 & Hsecond).
  assert (w1 = world_after (renderLines default_env one_line_map unit_view 100
                              false 1 new_world)) as Hw1
    by (rewrite Hrun1; reflexivity).
  destruct Hsecond as (w2 & Hrun2 & Hcount & _ & _ & _ & _ & _ & Hsame);
    [rewrite Hw1; simpl; lia | rewrite Hw1; reflexivity |].
  exists w1, w2. repeat split; [exact Hrun1 | exact Hrun2 | exact Hcount |].
  apply Hsame. reflexivity.
Defined.

End LinesFacts.

(** ** The cached thing buffers *)

Module ThingsFacts.
Import Things Samples.

(** C6. [renderThings] with alpha at most 0.01 (alpha 0.0 in particular) or
    on a map without things returns at once: the renderer with its thing
    buffers, timestamp and force-direction flag, and the backend trace (so no
    upload and no draw call) are what they were. *)
Theorem renderThings_fast_reject
    (E : Env) (m : SLADEMap) (view_ : View) (now : Z) (alpha : float)
    (force_dir : bool) (w : World) :
  (alpha <=? c_0_01f)%float = true \/ nThings m = 0%nat ->
  renderThings E m view_ now alpha force_dir w = Ok tt w
  /\ renderThings E m view_ now 0 force_dir w = Ok tt w.
Proof.
  intros Hrej. unfold renderThings. split; [|reflexivity].
  destruct Hrej as [-> | Hn]; [reflexivity|].
  rewrite bool_decide_eq_true_2 by exact Hn.
  rewrite orb_true_r. reflexivity.
Qed.

(** A world whose thing cache is stale: one thing in the map, no buffer. *)
Definition one_thing_map : SLADEMap :=
  mkSLADEMap [] [] []
    [mkMapThing 0 0 1 [0; 0; 0; 0; 0] (mkVec2d 16 16) 90 false 5]
    0 5 (fun _ => []) (fun _ => mkVec2d 0 0) (fun _ => mkVec2d 0 0).

Lemma renderThings_fast_reject_witness :
  renderThings default_env one_thing_map unit_view 100 0.0078125 true new_world
  = Ok tt new_world
  /\ renderThings default_env one_line_map unit_view 100 1 true new_world
     = Ok tt new_world.
Proof.
  split.
  - apply (renderThings_fast_reject default_env one_thing_map unit_view 100
             0.0078125 true new_world).
    left. reflexivity.
  - apply (renderThings_fast_reject default_env one_line_map unit_view 100
             1 true new_world).
    right. reflexivity.
Defined.

(** Past the fast reject the same call does touch the cache. *)
Example renderThings_visible_rebuilds :
  things_rebuilds
    (world_after (renderThings default_env one_thing_map unit_view 100 1 true new_world))
  = 1%nat
  /\ things_angles_
       (rd (world_after (renderThings default_env one_thing_map unit_view 100 1 true
                           new_world)))
     = true.
Proof. split; reflexivity. Qed.

End ThingsFacts.

(** ** Hilight overlays *)

Module HilightFacts.
Import Hilight Samples.

(** C9. When the map's lookup for the hilighted index finds no feature, each
    of the four hilight passes completes without a fault and leaves the
    renderer, the drawing context and the backend trace as they were: nothing
    is drawn. *)
Theorem hilight_of_missing_feature_is_noop
    (E : Env) (m : SLADEMap) (view_ : View) (dc : Context) (index : Z)
    (fade : float) (w : World) :
  (map_vertex m index = None ->
     renderVertexHilight E m view_ index fade w = Ok tt w)
  /\ (map_line m index = None ->
        renderLineHilight E m dc index fade w = Ok dc w)
  /\ (map_thing m index = None ->
        renderThingHilight E m view_ dc index fade w = Ok dc w)
  /\ (map_sector m index = None ->
        renderFlatHilight E m dc index fade w = Ok dc w).
Proof.
  repeat split; intros Hnone.
  - unfold renderVertexHilight. rewrite Hnone. reflexivity.
  - unfold renderLineHilight. rewrite Hnone. reflexivity.
  - unfold renderThingHilight. rewrite Hnone. reflexivity.
  - unfold renderFlatHilight. rewrite Hnone. reflexivity.
Qed.

(** An index is stale exactly when it is negative or past the end. *)
Lemma at_index_None {A} (l : list A) (index : Z) :
  at_index l index = None <-> index < 0 \/ Z.of_nat (length l) <= index.
Proof.
  unfold at_index. destruct (Z.ltb_spec index 0) as [Hneg | Hpos].
  - split; [left; exact Hneg | reflexivity].
  - rewrite lookup_ge_None. lia.
Qed.

Lemma hilight_of_missing_feature_is_noop_witness :
  renderVertexHilight default_env one_line_map unit_view 2 1 new_world
  = Ok tt new_world
  /\ renderLineHilight default_env one_line_map plain_context (-1) 1 new_world
     = Ok plain_context new_world
  /\ renderThingHilight default_env one_line_map unit_view plain_context 0 1 new_world
     = Ok plain_context new_world
  /\ renderFlatHilight default_env one_line_map plain_context 7 1 new_world
     = Ok plain_context new_world.
Proof.
  split; [|split; [|split]].
  - apply (hilight_of_missing_feature_is_noop default_env one_line_map unit_view
             plain_context 2 1 new_world). reflexivity.
  - apply (hilight_of_missing_feature_is_noop default_env one_line_map unit_view
             plain_context (-1) 1 new_world). reflexivity.
  - apply (hilight_of_missing_feature_is_noop default_env one_line_map unit_view
             plain_context 0 1 new_world). reflexivity.
  - apply (hilight_of_missing_feature_is_noop default_env one_line_map unit_view
             plain_context 7 1 new_world). reflexivity.
Defined.

(** For a feature that exists the pass does draw: the line hilight issues one
    draw call; the vertex hilight on a renderer whose vertices buffer was
    never built dereferences a null pointer. *)
Example hilight_of_present_feature :
  draw_calls
    (world_after (renderLineHilight default_env one_line_map plain_context 0 1
                    new_world)) = 1%nat
  /\ renderVertexHilight default_env one_line_map unit_view 0 1 new_world = Fault.
Proof. split; reflexivity. Qed.

End HilightFacts.

(** ** Moving vertices *)

Module MovingFacts.
Import Lines Moving Samples BufferFacts.


(** The overlay as the specification words it: a line is drawn when one of
    its ends is a selected vertex; an end that is a selected vertex is drawn
    at its position plus the offset, an end that is not stays where it is. *)
Definition moved_end (sel : bool) (p move_vec : Vec2d) : float * float :=
  if sel then (f32 (vx p + vx move_vec), f32 (vy p + vy move_vec))
  else (f32 (vx p), f32 (vy p)).


(** The map keeps, with every vertex, the lines attached to it. *)
Definition connected_lines_complete (m : SLADEMap) : Prop :=
  forall v vert l line,
    vertices m !! v = Some vert -> lines m !! l = Some line ->
    l_v1 line = v \/ l_v2 line = v -> l ∈ connected_lines_ vert.

Definition encode (b1 b2 : bool) : Z :=
  (if b1 then 1 else 0) + (if b2 then 2 else 0).

Section Marking.
Variable m : SLADEMap.

(** The flags of every line say which of its ends were found so far:
    [Q1 l] for the first end of line [l], [Q2 l] for the second. *)
Definition marked (Q1 Q2 : nat -> Prop) (lines_drawn : list Z) : Prop :=
  forall l line, lines m !! l = Some line ->
    exists b1 b2, lines_drawn !! l = Some (encode b1 b2)
      /\ (b1 = true <-> Q1 l) /\ (b2 = true <-> Q2 l).

Lemma marked_iff Q1 Q2 Q1' Q2' lines_drawn :
  (forall l, Q1 l <-> Q1' l) -> (forall l, Q2 l <-> Q2' l) ->
  marked Q1 Q2 lines_drawn -> marked Q1' Q2' lines_drawn.
Proof.
  intros H1 H2 Hm l line Hl. destruct (Hm l line Hl) as (b1 & b2 & Hd & Hb1 & Hb2).
  exists b1, b2. rewrite <- H1, <- H2. auto.
Qed.

Lemma marked_initial : marked (fun _ => False) (fun _ => False) (replicate (nLines m) 0).
Proof.
  intros l line Hl. exists false, false. split.
  - apply lookup_replicate_2. apply lookup_lt_Some in Hl. exact Hl.
  - split; split; (discriminate || contradiction).
Qed.

(** The first end of line [l] is vertex [v] and [l] is the line [l0]
    being looked at. *)
Definition hit (proj : MapLine -> nat) (v l0 l : nat) : Prop :=
  l = l0 /\ exists line, lines m !! l = Some line /\ proj line = v.

Lemma mark_line_marked Q1 Q2 v l0 lines_drawn :
  marked Q1 Q2 lines_drawn ->
  marked (fun l => Q1 l \/ hit l_v1 v l0 l) (fun l => Q2 l \/ hit l_v2 v l0 l)
    (mark_line m v lines_drawn l0).
Proof.
  intros Hm l line Hl.
  destruct (Hm l line Hl) as (b1 & b2 & Hd & Hb1 & Hb2).
  unfold mark_line, hit.
  destruct (decide (l = l0)) as [<- | Hne].
  - rewrite Hl.
    exists (b1 || bool_decide (l_v1 line = v)), (b2 || bool_decide (l_v2 line = v)).
    split.
    + unfold set_bit.
      do 2 case_bool_decide;
        rewrite ?list_lookup_alter_eq, ?Hd; simpl;
        destruct b1, b2; reflexivity.
    + rewrite !orb_true_iff, !bool_decide_eq_true, Hb1, Hb2.
      split; (split; [intros [H | H]; [left; exact H | right; eauto]
                     | intros [H | (_ & line' & Hl' & H)];
                       [left; exact H | right; congruence]]).
  - exists b1, b2. split.
    + destruct (lines m !! l0) as [line0|]; [|exact Hd].
      unfold set_bit.
      do 2 case_bool_decide;
        rewrite ?list_lookup_alter_ne by congruence; exact Hd.
    + rewrite Hb1, Hb2.
      split; (split; [intros H; left; exact H
                     | intros [H | (Heq & _)]; [exact H | congruence]]).
Qed.

Lemma mark_lines_marked v ls : forall Q1 Q2 lines_drawn,
  marked Q1 Q2 lines_drawn ->
  marked (fun l => Q1 l \/ exists l0, l0 ∈ ls /\ hit l_v1 v l0 l)
         (fun l => Q2 l \/ exists l0, l0 ∈ ls /\ hit l_v2 v l0 l)
    (foldl (mark_line m v) lines_drawn ls).
Proof.
  induction ls as [|l0 ls IH]; intros Q1 Q2 lines_drawn Hm; simpl.
  - eapply marked_iff; [| |exact Hm]; intros l; split;
      [auto | intros [H | (l0 & Hin & _)]; [exact H | inversion Hin]
      |auto | intros [H | (l0 & Hin & _)]; [exact H | inversion Hin]].
  - eapply marked_iff; [| |apply IH, mark_line_marked, Hm]; intros l; simpl;
      rewrite Logic.or_assoc; apply or_iff_compat_l;
      (split;
       [intros [H | (l1 & Hin & H)];
        [exists l0; split; [left | exact H]
        |exists l1; split; [right; exact Hin | exact H]]
       |intros (l1 & Hin & H); apply elem_of_cons in Hin as [-> | Hin];
        [left; exact H | right; eauto]]).
Qed.


End Marking.







(** Adding entries leaves the uploaded lines alone. *)
Lemma lb_buffer_fold_add (es : list LineEntry) (b : LineBuffer) :
  lb_buffer (foldl (fun b e => lb_add2d e b) b es) = lb_buffer b.
Proof.
  revert b. induction es as [|e es IH]; intros b; cbn [foldl]; [reflexivity|].
  rewrite IH. reflexivity.
Qed.

(** The backend calls of a push of [staged] lines followed by a draw of the
    temporary buffer [lb], as [renderMovingVertices] makes them. *)
Definition moving_calls (ctx : bool) (staged : list LineEntry) (lb : LineBuffer)
    : list GLCall :=
  (if ctx then [gl_upload_lines buf_temp_lines staged] else [])
  ++ [gl_setBlend Blend_Normal]
  ++ (if lb_draws ctx lb then [gl_draw_lines lb None] else []).


(** What the push and the draw of the temporary buffer come to, with the
    lines [staged] at the push. *)
Lemma moving_calls_spec (ctx : bool) (width : float) (lb : LineBuffer) :
  let lb' := lb_setWidthMult width (lb_push ctx lb) in
  let calls := moving_calls ctx (lb_lines lb) lb' in
  (ctx = true ->
   lb_buffer lb' = lb_lines lb /\ lb_lines lb' = []
   /\ gl_upload_lines buf_temp_lines (lb_lines lb) ∈ calls
   /\ (lb_lines lb <> [] -> gl_draw_lines lb' None ∈ calls)
   /\ (lb_lines lb = [] -> forall b c, gl_draw_lines b c ∉ calls))
  /\ (ctx = false ->
      lb_lines lb' = lb_lines lb /\ lb_buffer lb' = lb_buffer lb
      /\ calls = [gl_setBlend Blend_Normal]).
Proof.
  cbv zeta. unfold moving_calls, lb_draws, lb_push. split; intros ->.
  - cbn [lb_setWidthMult lb_buffer lb_lines andb].
    split; [reflexivity|]. split; [reflexivity|]. split; [left|]. split.
    + intros Hne. rewrite bool_decide_eq_false_2 by exact Hne. cbn [negb].
      do 2 right. left.
    + intros Hnil b c Hin. rewrite bool_decide_eq_true_2 in Hin by exact Hnil.
      cbn [negb app] in Hin.
      apply elem_of_cons in Hin as [Hin | Hin]; [discriminate|].
      apply list_elem_of_singleton in Hin. discriminate.
  - cbn [lb_setWidthMult lb_buffer lb_lines andb app]. repeat split.
Qed.



Lemma elem_of_flat_map_seq {A} (f : nat -> list A) (n l : nat) (x : A) :
  (l < n)%nat -> x ∈ f l -> x ∈ flat_map f (seq 0 n).
Proof.
  intros Hl Hx. apply list_elem_of_In, in_flat_map. exists l. split.
  - apply in_seq. lia.
  - apply list_elem_of_In, Hx.
Qed.


(** Three vertices A, B, C in a row joined by L1 = (A, B) and L2 = (B, C). *)
Definition two_line_map : SLADEMap :=
  mkSLADEMap
    [mkMapVertex (mkVec2d 0 0) [0%nat];
     mkMapVertex (mkVec2d 64 0) [0%nat; 1%nat];
     mkMapVertex (mkVec2d 128 0) [1%nat]]
    [mkMapLine 0 1 0 (Some 0%nat) None false 0;
     mkMapLine 1 2 0 (Some 1%nat) None false 0]
    [] [] 0 0 (fun _ => [])
    (fun _ => mkVec2d 0 0) (fun _ => mkVec2d 0 0).

Lemma two_line_map_complete : connected_lines_complete two_line_map.
Proof.
  intros v vert l line Hv Hl Hends.
  destruct l as [|[|l]]; simpl in Hl; try discriminate;
    injection Hl as <-; simpl in Hends;
    destruct Hends as [<- | <-]; simpl in Hv; injection Hv as <-; simpl;
    repeat constructor.
Qed.



End MovingFacts.

(** ** Thing paths *)

Module PathGraphFacts.
Import PathGraph PathLoops.

(** The two-slot encoding: rule 21 reads the low byte from argument 0 and
    the high byte from argument 1. *)
Example decode_target_two_slots :
  decode_target 21 (mkMapThing 0 1 1 [44; 1; 0; 0; 0] (mkVec2d 0 0) 0 false 0) (-1)
  = 300.
Proof. reflexivity. Qed.

(** C3. For the candidates A, B (both not dragon), where B's type is the
    next type A's type declares: when A's arguments decode to B's id and B's
    arguments, under the rule of B's own type, decode to A's id, the path list
    is the single edge A -> B of kind NormalBoth; when only A refers to B this
    way it is the single edge A -> B of kind Normal. *)
Theorem updateThingPaths_two_things
    (cfg : Configuration) (m : SLADEMap) (now : Z) (A B : MapThing)
    (r : MapRenderer2D) :
  is_dragon cfg (tt_flags (thingType cfg (t_type A))) = false ->
  is_dragon cfg (tt_flags (thingType cfg (t_type B))) = false ->
  t_type B = tt_nextType (thingType cfg (t_type A)) ->
  decode_target (tt_nextArgs (thingType cfg (t_type A))) A (-1) = t_id B ->
  (decode_target (tt_nextArgs (thingType cfg (t_type B))) B (-1) = t_id A ->
   thing_paths_ (updateThingPaths cfg m now [A; B] r)
   = [mkThingPath (Some (t_index A)) (Some (t_index B)) (Some NormalBoth)])
  /\ (decode_target (tt_nextArgs (thingType cfg (t_type B))) B (-1) <> t_id A ->
      thing_paths_ (updateThingPaths cfg m now [A; B] r)
      = [mkThingPath (Some (t_index A)) (Some (t_index B)) (Some Normal)]).
Proof.
  intros HA HB Htype HtidA.
  assert (forall kind,
            (if decode_target (tt_nextArgs (thingType cfg (t_type B))) B (-1)
                =? t_id A then NormalBoth else Normal) = kind ->
            thing_paths_ (updateThingPaths cfg m now [A; B] r)
            = [mkThingPath (Some (t_index A)) (Some (t_index B)) (Some kind)])
    as Hrun.
  { intros kind Hkind. unfold updateThingPaths; simpl.
    rewrite HA, HB. unfold normal_paths; simpl. unfold normal_step.
    rewrite <- Htype, Z.eqb_refl, HtidA, Z.eqb_refl, Hkind. reflexivity. }
  split; intros HtidB; apply Hrun.
  - rewrite HtidB, Z.eqb_refl. reflexivity.
  - apply Z.eqb_neq in HtidB. rewrite HtidB. reflexivity.
Qed.

(** A configuration with two chained types, 1 -> 2 -> 1, whose target id is
    in argument 0, and the dragon-flagged type 9. *)
Definition chain_cfg : Configuration :=
  mkConfiguration
    (fun type =>
       if type =? 1 then mkThingType 0 2 1 20 false "" ""
       else if type =? 2 then mkThingType 0 1 1 20 false "" ""
       else if type =? 9 then mkThingType 2 0 0 20 false "" ""
       else mkThingType 0 0 0 20 false "" "")
    2.

Definition thing_of (index : nat) (id type : Z) (args : list Z) : MapThing :=
  mkMapThing index id type args (mkVec2d 0 0) 0 false 0.

Definition empty_map : SLADEMap :=
  mkSLADEMap [] [] [] [] 0 0 (fun _ => [])
    (fun _ => mkVec2d 0 0) (fun _ => mkVec2d 0 0).

Lemma updateThingPaths_two_things_witness :
  thing_paths_
    (updateThingPaths chain_cfg empty_map 50
       [thing_of 0 10 1 [20; 0; 0; 0; 0]; thing_of 1 20 2 [10; 0; 0; 0; 0]]
       MapRenderer2D_new)
  = [mkThingPath (Some 0%nat) (Some 1%nat) (Some NormalBoth)]
  /\ thing_paths_
       (updateThingPaths chain_cfg empty_map 50
          [thing_of 0 10 1 [20; 0; 0; 0; 0]; thing_of 1 20 2 [0; 0; 0; 0; 0]]
          MapRenderer2D_new)
     = [mkThingPath (Some 0%nat) (Some 1%nat) (Some Normal)].
Proof.
  split.
  - apply (updateThingPaths_two_things chain_cfg empty_map 50
             (thing_of 0 10 1 [20; 0; 0; 0; 0]) (thing_of 1 20 2 [10; 0; 0; 0; 0])
             MapRenderer2D_new); reflexivity.
  - apply (updateThingPaths_two_things chain_cfg empty_map 50
             (thing_of 0 10 1 [20; 0; 0; 0; 0]) (thing_of 1 20 2 [0; 0; 0; 0; 0])
             MapRenderer2D_new); try reflexivity. discriminate.
Defined.

(** *** One pass over bounded candidate pairs *)

Lemma omap_length_le {A B} (f : A -> option B) (l : list A) :
  (length (omap f l) <= length l)%nat.
Proof.
  induction l as [|x l IH]; [simpl; lia|].
  change (omap f (x :: l))
    with (match f x with Some y => y :: omap f l | None => omap f l end).
  destruct (f x); simpl; lia.
Qed.

(** The pairs d < e of a list of [k] dragon targets: at most k(k-1)/2. *)
Lemma dragon_pairs_length (cfg : Configuration) (l : list MapThing) :
  (2 * length (dragon_pairs cfg l) <= length l * (length l - 1))%nat.
Proof.
  induction l as [|t1 rest IH]; simpl; [lia|].
  rewrite length_app, Nat.sub_0_r.
  pose proof (omap_length_le (dragon_pair cfg t1) rest) as Hle.
  destruct (length rest) as [|k]; simpl in *; nia.
Qed.

Lemma normal_steps_length (cfg : Configuration) (thing : MapThing) (nexttype tid : Z)
    (rest : list MapThing) : forall st,
  (length (foldl (normal_step cfg thing nexttype tid) st rest).2
   <= length st.2 + length rest)%nat.
Proof.
  induction rest as [|thing2 rest IH]; intros [[path tid2] out]; simpl; [lia|].
  etransitivity; [apply IH|].
  destruct (t_type thing2 =? nexttype); simpl; [rewrite length_app; simpl|]; lia.
Qed.

(** A thing is compared with the things after it only. *)
Lemma normal_paths_length (cfg : Configuration) (thing : MapThing)
    (rest : list MapThing) :
  (length (normal_paths cfg thing rest) <= length rest)%nat.
Proof. unfold normal_paths. apply (normal_steps_length _ _ _ _ _ (_, _, [])). Qed.

(** Every pair entry comes from two targets at positions d < e. *)
Lemma dragon_pairs_source (cfg : Configuration) (l : list MapThing) (p : ThingPath) :
  p ∈ dragon_pairs cfg l ->
  exists d e t1 t2, (d < e)%nat /\ l !! d = Some t1 /\ l !! e = Some t2
    /\ dragon_pair cfg t1 t2 = Some p.
Proof.
  induction l as [|t1 rest IH]; simpl; [intros H; inversion H|].
  rewrite elem_of_app, list_elem_of_omap. intros [(t2 & Hin & Hp) | Hin].
  - apply list_elem_of_lookup in Hin as [e He].
    exists 0%nat, (S e), t1, t2. repeat split; [lia | exact He | exact Hp].
  - destruct (IH Hin) as (d & e & t1' & t2' & Hlt & Hd & He & Hp).
    exists (S d), (S e), t1', t2'. repeat split; [lia | exact Hd | exact He | exact Hp].
Qed.

(** The entry of a pair depends on the two things alone: neither is
    dragon-flagged, and its end points are assigned, to these two things,
    only when the arguments of one hold the id of the other. *)
Lemma dragon_pair_entry (cfg : Configuration) (t1 t2 : MapThing) (p : ThingPath) :
  dragon_pair cfg t1 t2 = Some p ->
  is_dragon cfg (tt_flags (thingType cfg (t_type t1))) = false
  /\ is_dragon cfg (tt_flags (thingType cfg (t_type t2))) = false
  /\ (p = mkThingPath None None None
      \/ (links_to t1 (t_id t2) = true
          /\ from_index p = Some (t_index t2) /\ to_index p = Some (t_index t1))
      \/ (links_to t2 (t_id t1) = true
          /\ from_index p = Some (t_index t1) /\ to_index p = Some (t_index t2))).
Proof.
  unfold dragon_pair, is_dragon.
  destruct (Z.eqb_spec (Z.land (Z.lor (tt_flags (thingType cfg (t_type t1)))
                                  (tt_flags (thingType cfg (t_type t2))))
                          (Flags_Dragon cfg)) 0) as [Hz|]; [|discriminate].
  rewrite Z.land_lor_distr_l in Hz. apply Z.lor_eq_0_iff in Hz as [-> ->].
  simpl. intros [= <-]. repeat split.
  destruct (links_to t1 (t_id t2)); [right; left; repeat split|].
  destruct (links_to t2 (t_id t1)); [right; right; repeat split | left; reflexivity].
Qed.

(** Where an entry of the path list comes from: a candidate compared with
    the candidates after it, the root edge of a dragon-flagged candidate, or a
    pair of that candidate's dragon targets. *)
Inductive path_origin (cfg : Configuration) (m : SLADEMap) (things : list MapThing)
    (p : ThingPath) : Prop :=
| from_normal (before rest : list MapThing) (thing : MapThing) :
    things = before ++ thing :: rest ->
    is_dragon cfg (tt_flags (thingType cfg (t_type thing))) = false ->
    p ∈ normal_paths cfg thing rest ->
    path_origin cfg m things p
| from_root (thing first : MapThing) :
    thing ∈ things ->
    is_dragon cfg (tt_flags (thingType cfg (t_type thing))) = true ->
    firstWithId m (t_id thing) = Some first ->
    p = mkThingPath (Some (t_index thing)) (Some (t_index first)) (Some Dragon) ->
    path_origin cfg m things p
| from_pair (thing first t1 t2 : MapThing) (d e : nat) :
    thing ∈ things ->
    is_dragon cfg (tt_flags (thingType cfg (t_type thing))) = true ->
    firstWithId m (t_id thing) = Some first ->
    (d < e)%nat ->
    putDragonTargets m first !! d = Some t1 ->
    putDragonTargets m first !! e = Some t2 ->
    dragon_pair cfg t1 t2 = Some p ->
    path_origin cfg m things p.

Lemma path_origin_cons (cfg : Configuration) (m : SLADEMap) (thing : MapThing)
    (things : list MapThing) (p : ThingPath) :
  path_origin cfg m things p -> path_origin cfg m (thing :: things) p.
Proof.
  intros [before rest t Heq Hd Hin | t first Hin Hd Hf Hp
         | t first t1 t2 d e Hin Hd Hf Hlt H1 H2 Hp].
  - apply (from_normal _ _ _ _ (thing :: before) rest t); [rewrite Heq|..]; auto.
  - apply (from_root _ _ _ _ t first); auto. right. exact Hin.
  - apply (from_pair _ _ _ _ t first t1 t2 d e); auto. right. exact Hin.
Qed.

Lemma collect_paths_origin (cfg : Configuration) (m : SLADEMap)
    (things : list MapThing) (p : ThingPath) :
  p ∈ collect_paths cfg m things -> path_origin cfg m things p.
Proof.
  induction things as [|thing rest IH]; simpl; [intros H; inversion H|].
  rewrite elem_of_app. intros [Hin | Hin]; [|apply path_origin_cons, IH, Hin].
  destruct (is_dragon cfg (tt_flags (thingType cfg (t_type thing)))) eqn:Hd.
  - unfold dragon_paths in Hin.
    destruct (firstWithId m (t_id thing)) as [first|] eqn:Hf; [|inversion Hin].
    apply elem_of_cons in Hin as [-> | Hin].
    + apply (from_root _ _ _ _ thing first); auto. left.
    + apply dragon_pairs_source in Hin as (d & e & t1 & t2 & Hlt & H1 & H2 & Hp).
      apply (from_pair _ _ _ _ thing first t1 t2 d e); auto. left.
  - apply (from_normal _ _ _ _ [] rest thing); auto.
Qed.

(** The largest dragon target list met for the candidates. *)
Definition max_cluster (m : SLADEMap) (things : list MapThing) : nat :=
  foldr Nat.max 0%nat
    ((fun thing => match firstWithId m (t_id thing) with
                   | Some first => length (putDragonTargets m first)
                   | None => 0%nat
                   end) <$> things).

Lemma collect_paths_length (cfg : Configuration) (m : SLADEMap)
    (things : list MapThing) :
  (2 * length (collect_paths cfg m things)
   <= length things * (length things - 1)
      + length things * (2 + max_cluster m things * (max_cluster m things - 1)))%nat.
Proof.
  induction things as [|thing rest IH]; [simpl; lia|].
  set (k := match firstWithId m (t_id thing) with
            | Some first => length (putDragonTargets m first)
            | None => 0%nat
            end).
  change (max_cluster m (thing :: rest)) with (Nat.max k (max_cluster m rest)).
  cbn [collect_paths length]. rewrite length_app.
  assert (2 * length (if is_dragon cfg (tt_flags (thingType cfg (t_type thing)))
                      then dragon_paths cfg m thing
                      else normal_paths cfg thing rest)
          <= 2 * length rest + 2 + k * (k - 1))%nat as Hthis.
  { destruct (is_dragon _ _).
    - unfold dragon_paths, k.
      destruct (firstWithId m (t_id thing)) as [first|]; simpl; [|lia].
      pose proof (dragon_pairs_length cfg (putDragonTargets m first)). lia.
    - pose proof (normal_paths_length cfg thing rest).
      generalize (k * (k - 1))%nat. intros. lia. }
  revert IH Hthis.
  generalize (length (if is_dragon cfg (tt_flags (thingType cfg (t_type thing)))
                      then dragon_paths cfg m thing
                      else normal_paths cfg thing rest)).
  generalize (length (collect_paths cfg m rest)).
  generalize (max_cluster m rest). generalize (length rest). generalize k.
  clear. intros k n K c a IH Hthis.
  assert (K * (K - 1) <= Nat.max k K * (Nat.max k K - 1))%nat as HK
    by (apply Nat.mul_le_mono; lia).
  assert (k * (k - 1) <= Nat.max k K * (Nat.max k K - 1))%nat as Hk
    by (apply Nat.mul_le_mono; lia).
  assert (S n * (S n - 1) = n * (n - 1) + 2 * n)%nat as ->
    by (destruct n; simpl; lia).
  revert IH Hthis HK Hk.
  generalize (Nat.max k K * (Nat.max k K - 1))%nat.
  generalize (K * (K - 1))%nat. generalize (k * (k - 1))%nat.
  generalize (n * (n - 1))%nat.
  intros nn kk KK M IH Hthis HK Hk.
  assert (n * (2 + KK) <= n * (2 + M))%nat as HnM
    by (apply Nat.mul_le_mono_l; lia).
  replace (S n * (2 + M))%nat with (2 + M + n * (2 + M))%nat by (simpl; lia).
  lia.
Qed.

(** *** The loops end within their bounds *)

Section ForLoop.
Context {T A : Type}.
Variable l : list A.
Variable F : nat -> A -> T -> T.

(** The turns of a loop over the elements [xs] from counter [i] on. *)
Fixpoint ifold (i : nat) (xs : list A) (s : T) : T :=
  match xs with
  | [] => s
  | x :: xs' => ifold (S i) xs' (F i x s)
  end.

(** A loop whose turn at [j] does [F j (l[j])] ends when it is given as many
    turns as there are elements left. *)
Lemma for_loop_ifold (body : nat -> T -> option T) :
  (forall j x s, l !! j = Some x -> body j s = Some (F j x s)) ->
  forall gas i s, (length l - i <= gas)%nat ->
    for_loop gas i (length l) body s = Some (ifold i (drop i l) s).
Proof.
  intros Hbody. induction gas as [|gas IH]; intros i s Hgas; cbn [for_loop].
  - destruct (Nat.leb_spec (length l) i) as [Hle|Hlt]; [|lia].
    rewrite drop_ge by exact Hle. reflexivity.
  - destruct (Nat.leb_spec (length l) i) as [Hle|Hlt].
    + rewrite drop_ge by exact Hle. reflexivity.
    + destruct (lookup_lt_is_Some_2 l i Hlt) as [x Hx].
      rewrite (Hbody i x s Hx), IH by lia.
      rewrite (drop_S l x i Hx). reflexivity.
Qed.
End ForLoop.

Lemma normal_step_out (cfg : Configuration) (thing : MapThing) (nexttype tid : Z)
    (path : ThingPath) (tid2 : Z) (out o : list ThingPath) (thing2 : MapThing) :
  normal_step cfg thing nexttype tid (path, tid2, out ++ o) thing2
  = ((normal_step cfg thing nexttype tid (path, tid2, o) thing2).1,
     out ++ (normal_step cfg thing nexttype tid (path, tid2, o) thing2).2).
Proof.
  unfold normal_step. destruct (t_type thing2 =? nexttype); [|reflexivity].
  cbn [fst snd]. rewrite app_assoc. reflexivity.
Qed.

Lemma normal_steps_out (cfg : Configuration) (thing : MapThing) (nexttype tid : Z)
    (path : ThingPath) (tid2 : Z) (out : list ThingPath) (rest : list MapThing) :
  (foldl (normal_step cfg thing nexttype tid) (path, tid2, out) rest).2
  = out ++ (foldl (normal_step cfg thing nexttype tid) (path, tid2, []) rest).2.
Proof.
  assert (foldl (normal_step cfg thing nexttype tid) (path, tid2, out) rest
          = ((foldl (normal_step cfg thing nexttype tid) (path, tid2, []) rest).1,
             out ++ (foldl (normal_step cfg thing nexttype tid)
                       (path, tid2, []) rest).2)) as ->; [|reflexivity].
  induction rest as [|thing2 rest IH] using rev_ind.
  - cbn. rewrite app_nil_r. reflexivity.
  - rewrite !foldl_snoc, IH.
    destruct (foldl (normal_step cfg thing nexttype tid) (path, tid2, []) rest)
      as [[path' tid2'] o].
    cbn [fst snd]. apply normal_step_out.
Qed.

Lemma normal_loop_run (gas : nat) (cfg : Configuration) (things : list MapThing)
    (a : nat) (thing : MapThing) (out : list ThingPath) :
  (length things <= gas)%nat ->
  normal_loop gas cfg things a thing out
  = Some (out ++ normal_paths cfg thing (drop (S a) things)).
Proof.
  intros Hgas. unfold normal_loop, normal_paths.
  rewrite (for_loop_ifold things
             (fun _ thing2 st =>
                normal_step cfg thing (tt_nextType (thingType cfg (t_type thing)))
                  (decode_target (tt_nextArgs (thingType cfg (t_type thing)))
                     thing (-1)) st thing2)).
  - cbn [fmap option_fmap option_map]. f_equal.
    rewrite <- normal_steps_out. f_equal.
    generalize (S a) at 1. generalize (drop (S a) things).
    intros xs. clear.
    generalize (mkThingPath (Some 0%nat) (Some 0%nat) None, -1, out).
    induction xs as [|x xs IH]; intros st i; cbn [ifold foldl]; [reflexivity|].
    apply IH.
  - intros j x st Hx. rewrite Hx. reflexivity.
  - lia.
Qed.

Lemma dragon_loop_run (gas : nat) (cfg : Configuration)
    (dragon_things : list MapThing) (out : list ThingPath) :
  (length dragon_things <= gas)%nat ->
  dragon_loop gas cfg dragon_things out
  = Some (out ++ dragon_pairs cfg dragon_things).
Proof.
  intros Hgas. unfold dragon_loop.
  rewrite (for_loop_ifold dragon_things
             (fun d t1 out =>
                out ++ omap (dragon_pair cfg t1) (drop (S d) dragon_things))).
  - f_equal. rewrite drop_0.
    assert (forall suf i out,
              drop i dragon_things = suf ->
              ifold (fun d t1 out =>
                       out ++ omap (dragon_pair cfg t1) (drop (S d) dragon_things))
                i suf out
              = out ++ dragon_pairs cfg suf) as Hgen.
    { induction suf as [|x suf IH]; intros i o Hdrop; cbn [ifold dragon_pairs].
      - rewrite app_nil_r. reflexivity.
      - assert (drop (S i) dragon_things = suf) as Hnext.
        { replace (S i) with (i + 1)%nat by lia.
          rewrite <- drop_drop, Hdrop. reflexivity. }
        rewrite (IH (S i) _ Hnext), Hnext, <- app_assoc. reflexivity. }
    apply Hgen, drop_0.
  - intros d t1 o Hd. rewrite Hd.
    rewrite (for_loop_ifold dragon_things
               (fun _ t2 out => match dragon_pair cfg t1 t2 with
                                | Some dpath => out ++ [dpath]
                                | None => out
                                end)).
    + f_equal. generalize (S d) at 1. generalize (drop (S d) dragon_things).
      intros xs. revert o.
      induction xs as [|x xs IH]; intros o i; cbn [ifold].
      * rewrite app_nil_r. reflexivity.
      * rewrite IH.
        change (omap (dragon_pair cfg t1) (x :: xs))
          with (match dragon_pair cfg t1 x with
                | Some y => y :: omap (dragon_pair cfg t1) xs
                | None => omap (dragon_pair cfg t1) xs
                end).
        destruct (dragon_pair cfg t1 x); [rewrite <- app_assoc|]; reflexivity.
    + intros e t2 o' He. rewrite He. reflexivity.
    + lia.
  - lia.
Qed.

(** The target list of a candidate is no longer than the longest one. *)
Lemma max_cluster_bound (m : SLADEMap) (things : list MapThing)
    (thing first : MapThing) :
  thing ∈ things -> firstWithId m (t_id thing) = Some first ->
  (length (putDragonTargets m first) <= max_cluster m things)%nat.
Proof.
  intros Hin Hfirst. induction Hin as [thing rest | thing other rest _ IH].
  - unfold max_cluster. cbn [fmap list_fmap foldr]. rewrite Hfirst. lia.
  - specialize (IH Hfirst).
    change (max_cluster m (other :: rest))
      with (Nat.max (match firstWithId m (t_id other) with
                     | Some first => length (putDragonTargets m first)
                     | None => 0%nat
                     end) (max_cluster m rest)).
    lia.
Qed.

(** Given as many turns per loop as the longest vector has elements, the
    loops end, with the path list of [collect_paths]. *)
Lemma updateThingPaths_loops_run (gas : nat) (cfg : Configuration) (m : SLADEMap)
    (things : list MapThing) :
  (length things <= gas)%nat -> (max_cluster m things <= gas)%nat ->
  updateThingPaths_loops gas cfg m things = Some (collect_paths cfg m things).
Proof.
  intros Hgas Hcluster. unfold updateThingPaths_loops.
  rewrite (for_loop_ifold things
             (fun a thing out =>
                out ++ if is_dragon cfg (tt_flags (thingType cfg (t_type thing)))
                       then dragon_paths cfg m thing
                       else normal_paths cfg thing (drop (S a) things))).
  - f_equal. rewrite drop_0.
    assert (forall suf i out,
              drop i things = suf ->
              ifold (fun a thing out =>
                       out ++ if is_dragon cfg (tt_flags (thingType cfg (t_type thing)))
                              then dragon_paths cfg m thing
                              else normal_paths cfg thing (drop (S a) things))
                i suf out
              = out ++ collect_paths cfg m suf) as Hgen.
    { induction suf as [|x suf IH]; intros i o Hdrop; cbn [ifold collect_paths].
      - rewrite app_nil_r. reflexivity.
      - assert (drop (S i) things = suf) as Hnext.
        { replace (S i) with (i + 1)%nat by lia.
          rewrite <- drop_drop, Hdrop. reflexivity. }
        rewrite (IH (S i) _ Hnext), Hnext, <- app_assoc. reflexivity. }
    apply (Hgen things 0%nat []), drop_0.
  - intros a thing out Ha. rewrite Ha.
    destruct (is_dragon cfg (tt_flags (thingType cfg (t_type thing)))).
    + unfold dragon_paths.
      destruct (firstWithId m (t_id thing)) as [first|] eqn:Hfirst.
      * rewrite dragon_loop_run.
        -- rewrite <- app_assoc. reflexivity.
        -- etransitivity; [|exact Hcluster].
           apply (max_cluster_bound m things thing first); [|exact Hfirst].
           apply list_elem_of_lookup. eauto.
      * rewrite app_nil_r. reflexivity.
    + apply normal_loop_run, Hgas.
  - lia.
Qed.

(** Every pair d < e of dragon targets that gives an entry has it in the
    list. *)
Lemma dragon_pairs_complete (cfg : Configuration) (l : list MapThing)
    (d e : nat) (t1 t2 : MapThing) (p : ThingPath) :
  (d < e)%nat -> l !! d = Some t1 -> l !! e = Some t2 ->
  dragon_pair cfg t1 t2 = Some p -> p ∈ dragon_pairs cfg l.
Proof.
  revert d e. induction l as [|x l IH]; intros d e Hlt Hd He Hp; [discriminate|].
  cbn [dragon_pairs]. apply elem_of_app.
  destruct d as [|d].
  - injection Hd as ->. left. apply list_elem_of_omap. exists t2. split; [|exact Hp].
    destruct e as [|e]; [lia|]. apply list_elem_of_lookup. exists e. exact He.
  - right. destruct e as [|e]; [lia|].
    apply (IH d e); [lia | exact Hd | exact He | exact Hp].
Qed.

(** The entries of a dragon-flagged candidate are in the path list. *)
Lemma collect_paths_dragon (cfg : Configuration) (m : SLADEMap)
    (things : list MapThing) (thing : MapThing) (p : ThingPath) :
  thing ∈ things ->
  is_dragon cfg (tt_flags (thingType cfg (t_type thing))) = true ->
  p ∈ dragon_paths cfg m thing -> p ∈ collect_paths cfg m things.
Proof.
  intros Hin Hd Hp. induction Hin as [thing rest | thing other rest _ IH];
    cbn [collect_paths]; apply elem_of_app.
  - left. rewrite Hd. exact Hp.
  - right. apply IH; assumption.
Qed.

(** C4 (amended). [updateThingPaths] is a single pass that completes on
    every candidate list: each of its loops ends within as many turns as the
    longest of the candidate list and the dragon target lists has elements,
    and its path list has at most n(n-1)/2 + n(1 + k(k-1)/2) entries for n
    candidates and target lists of at most k things.  For a dragon-flagged
    candidate it emits the root edge from that candidate to the first thing
    with its id, and the entry of every pair d < e of the dragon target list
    neither of which is dragon-flagged.  Every entry comes from one
    comparison of two things, never from following an edge further: it is
    the entry of a candidate compared with a later candidate, a root edge,
    or the entry of such a pair; end points that a pair entry carries are
    those two things, one of which holds the other's id in its arguments. *)
Theorem updateThingPaths_single_pass
    (cfg : Configuration) (m : SLADEMap) (now : Z) (things : list MapThing)
    (r : MapRenderer2D) :
  let paths := thing_paths_ (updateThingPaths cfg m now things r) in
  (forall gas, (length things <= gas)%nat -> (max_cluster m things <= gas)%nat ->
     updateThingPaths_loops gas cfg m things = Some paths)
  /\ (2 * length paths
      <= length things * (length things - 1)
         + length things * (2 + max_cluster m things * (max_cluster m things - 1)))%nat
  /\ (forall thing first,
        thing ∈ things ->
        is_dragon cfg (tt_flags (thingType cfg (t_type thing))) = true ->
        firstWithId m (t_id thing) = Some first ->
        mkThingPath (Some (t_index thing)) (Some (t_index first)) (Some Dragon)
        ∈ paths
        /\ forall d e t1 t2 p,
             (d < e)%nat ->
             putDragonTargets m first !! d = Some t1 ->
             putDragonTargets m first !! e = Some t2 ->
             dragon_pair cfg t1 t2 = Some p -> p ∈ paths)
  /\ (forall p, p ∈ paths -> path_origin cfg m things p)
  /\ (forall t1 t2 p, dragon_pair cfg t1 t2 = Some p ->
        is_dragon cfg (tt_flags (thingType cfg (t_type t1))) = false
        /\ is_dragon cfg (tt_flags (thingType cfg (t_type t2))) = false
        /\ (p = mkThingPath None None None
            \/ (links_to t1 (t_id t2) = true
                /\ from_index p = Some (t_index t2)
                /\ to_index p = Some (t_index t1))
            \/ (links_to t2 (t_id t1) = true
                /\ from_index p = Some (t_index t1)
                /\ to_index p = Some (t_index t2)))).
Proof.
  cbv zeta. unfold updateThingPaths. cbn [thing_paths_ set_thing_paths].
  split; [|split; [|split; [|split]]].
  - intros gas Hgas Hcluster. apply updateThingPaths_loops_run; assumption.
  - apply collect_paths_length.
  - intros thing first Hin Hd Hfirst. split.
    + apply (collect_paths_dragon cfg m things thing); [exact Hin | exact Hd|].
      unfold dragon_paths. rewrite Hfirst. left.
    + intros d e t1 t2 p Hlt H1 H2 Hp.
      apply (collect_paths_dragon cfg m things thing); [exact Hin | exact Hd|].
      unfold dragon_paths. rewrite Hfirst. right.
      apply (dragon_pairs_complete cfg _ d e t1 t2); assumption.
  - intros p Hp. apply collect_paths_origin, Hp.
  - apply dragon_pair_entry.
Qed.

(** A dragon cluster with a 3-cycle: the connectors A, B, C (ids 5, 6, 7)
    each hold the ids of the other two, and the dragon-flagged thing D shares
    the id of A, the first thing with that id. *)
Definition cycle_A : MapThing := thing_of 0 5 3 [6; 7; 0; 0; 0].
Definition cycle_B : MapThing := thing_of 1 6 3 [5; 7; 0; 0; 0].
Definition cycle_C : MapThing := thing_of 2 7 3 [5; 6; 0; 0; 0].
Definition cycle_D : MapThing := thing_of 3 5 9 [0; 0; 0; 0; 0].

Definition cycle_map : SLADEMap :=
  mkSLADEMap [] [] [] [cycle_A; cycle_B; cycle_C; cycle_D] 0 0
    (fun _ => [cycle_A; cycle_B; cycle_C])
    (fun _ => mkVec2d 0 0) (fun _ => mkVec2d 0 0).

(** On the 3-cycle the pass emits the root edge and one edge per pair, each
    of kind DragonBoth, and no reverse duplicates. *)
Example updateThingPaths_three_cycle :
  thing_paths_
    (updateThingPaths chain_cfg cycle_map 50 (things cycle_map) MapRenderer2D_new)
  = [mkThingPath (Some 3%nat) (Some 0%nat) (Some Dragon);
     mkThingPath (Some 1%nat) (Some 0%nat) (Some DragonBoth);
     mkThingPath (Some 2%nat) (Some 0%nat) (Some DragonBoth);
     mkThingPath (Some 2%nat) (Some 1%nat) (Some DragonBoth)].
Proof. reflexivity. Qed.

(** The reading of C4 as stated: an edge joins two members of the dragon
    target list that are both not dragon-flagged. *)
Definition connector_edge (cfg : Configuration) (targets : list MapThing)
    (p : ThingPath) : Prop :=
  exists t1 t2, t1 ∈ targets /\ t2 ∈ targets
    /\ is_dragon cfg (tt_flags (thingType cfg (t_type t1))) = false
    /\ is_dragon cfg (tt_flags (thingType cfg (t_type t2))) = false
    /\ from_index p = Some (t_index t1) /\ to_index p = Some (t_index t2).

(** C4 (as stated) fails: for the cluster above the pass also emits the
    root edge, which starts at the dragon-flagged thing D (index 3); D is not
    a member of the dragon target list. *)
Lemma updateThingPaths_root_edge_from_dragon :
  exists p,
    p ∈ thing_paths_
          (updateThingPaths chain_cfg cycle_map 50 (things cycle_map)
             MapRenderer2D_new)
    /\ from_index p = Some (t_index cycle_D)
    /\ is_dragon chain_cfg (tt_flags (thingType chain_cfg (t_type cycle_D))) = true
    /\ ~ connector_edge chain_cfg (putDragonTargets cycle_map cycle_A) p.
Proof.
  exists (mkThingPath (Some 3%nat) (Some 0%nat) (Some Dragon)).
  split; [left|]. split; [reflexivity|]. split; [reflexivity|].
  intros (t1 & t2 & H1 & _ & _ & _ & Hfrom & _). simpl in H1, Hfrom.
  repeat (apply elem_of_cons in H1 as [-> | H1]; [discriminate|]).
  inversion H1.
Qed.

Lemma updateThingPaths_single_pass_witness :
  updateThingPaths_loops 4 chain_cfg cycle_map (things cycle_map)
  = Some [mkThingPath (Some 3%nat) (Some 0%nat) (Some Dragon);
          mkThingPath (Some 1%nat) (Some 0%nat) (Some DragonBoth);
          mkThingPath (Some 2%nat) (Some 0%nat) (Some DragonBoth);
          mkThingPath (Some 2%nat) (Some 1%nat) (Some DragonBoth)]
  /\ path_origin chain_cfg cycle_map (things cycle_map)
       (mkThingPath (Some 2%nat) (Some 1%nat) (Some DragonBoth)).
Proof.
  destruct (updateThingPaths_single_pass chain_cfg cycle_map 50 (things cycle_map)
              MapRenderer2D_new) as (Hloops & _ & _ & Horigin & _).
  split.
  - rewrite (Hloops 4%nat); [reflexivity | cbn; lia | cbn; lia].
  - apply Horigin. do 3 right. left.
Defined.

End PathGraphFacts.


(** * Further properties of the code *)

(** ** Thing paths: encoding, direction and count of the entries *)

Module PathGraphMore.
Import PathGraph PathGraphFacts.

Lemma wrap_int_small (z : Z) :
  -2147483648 <= z < 2147483648 -> wrap_int z = z.
Proof. intros Hz. unfold wrap_int. rewrite Z.mod_small by lia. lia. Qed.

Lemma wrap_int_add_r (a b : Z) : wrap_int (a + wrap_int b) = wrap_int (a + b).
Proof.
  unfold wrap_int. f_equal.
  replace (a + ((b + 2147483648) mod 4294967296 - 2147483648) + 2147483648)
    with (a + (b + 2147483648) mod 4294967296) by lia.
  rewrite Zplus_mod_idemp_r. f_equal. lia.
Qed.

(** X1. The two-slot target encoding round-trips for every id an [int]
    holds: when the slot named by the low digit of the rule holds
    [id mod 256] and the slot named by the high digit holds [id / 256], the
    decoded target is [id], whatever the variable held before. *)
Theorem decode_target_round_trip
    (id low_slot high_slot tid0 : Z) (t : MapThing) :
  -2147483648 <= id < 2147483648 ->
  1 <= low_slot <= 9 -> 1 <= high_slot ->
  thing_arg t (low_slot - 1) = id mod 256 ->
  thing_arg t (high_slot - 1) = id / 256 ->
  decode_target (10 * high_slot + low_slot) t tid0 = id.
Proof.
  intros Hid Hlow Hhigh Hlo Hhi. unfold decode_target.
  assert (Z.rem (10 * high_slot + low_slot) 10 = low_slot) as ->.
  { rewrite Z.rem_mod_nonneg by lia.
    rewrite Z.add_comm, Z.mul_comm, Z.mod_add by lia. apply Z.mod_small. lia. }
  assert (Z.quot (10 * high_slot + low_slot) 10 = high_slot) as ->.
  { rewrite Z.quot_div_nonneg by lia.
    rewrite Z.add_comm, Z.mul_comm, Z.div_add by lia.
    rewrite Z.div_small by lia. lia. }
  destruct (Z.eqb_spec (10 * high_slot + low_slot) 0) as [Hz|_]; [lia|].
  destruct (Z.leb_spec 10 (10 * high_slot + low_slot)) as [_|Hlt]; [|lia].
  rewrite Hlo, Hhi, wrap_int_add_r.
  replace (id mod 256 + 256 * (id / 256)) with id
    by (pose proof (Z.div_mod id 256); lia).
  apply wrap_int_small, Hid.
Qed.

Lemma decode_target_round_trip_witness :
  decode_target 21 (thing_of 0 1 1 [44; 1; 0; 0; 0]) (-1) = 300.
Proof.
  apply (decode_target_round_trip 300 1 2 (-1) (thing_of 0 1 1 [44; 1; 0; 0; 0]));
    try reflexivity; lia.
Defined.

(** X2. For the candidates A, B (both not dragon) where B's type is A's next
    type: when A's arguments do not decode to B's id but B's arguments, under
    the rule of B's type, decode to A's id, the path list is the single edge
    from B to A, of kind Normal. *)
Theorem updateThingPaths_reverse_reference
    (cfg : Configuration) (m : SLADEMap) (now : Z) (A B : MapThing)
    (r : MapRenderer2D) :
  is_dragon cfg (tt_flags (thingType cfg (t_type A))) = false ->
  is_dragon cfg (tt_flags (thingType cfg (t_type B))) = false ->
  t_type B = tt_nextType (thingType cfg (t_type A)) ->
  decode_target (tt_nextArgs (thingType cfg (t_type A))) A (-1) <> t_id B ->
  decode_target (tt_nextArgs (thingType cfg (t_type B))) B (-1) = t_id A ->
  thing_paths_ (updateThingPaths cfg m now [A; B] r)
  = [mkThingPath (Some (t_index B)) (Some (t_index A)) (Some Normal)].
Proof.
  intros HA HB Htype HtidA HtidB.
  unfold updateThingPaths; simpl. rewrite HA, HB.
  unfold normal_paths; simpl. unfold normal_step.
  rewrite <- Htype, Z.eqb_refl, HtidB, Z.eqb_refl.
  apply Z.eqb_neq in HtidA. rewrite Z.eqb_sym, HtidA. reflexivity.
Qed.

Lemma updateThingPaths_reverse_reference_witness :
  thing_paths_
    (updateThingPaths chain_cfg empty_map 50
       [thing_of 0 10 1 [0; 0; 0; 0; 0]; thing_of 1 20 2 [10; 0; 0; 0; 0]]
       MapRenderer2D_new)
  = [mkThingPath (Some 1%nat) (Some 0%nat) (Some Normal)].
Proof.
  apply (updateThingPaths_reverse_reference chain_cfg empty_map 50
           (thing_of 0 10 1 [0; 0; 0; 0; 0]) (thing_of 1 20 2 [10; 0; 0; 0; 0])
           MapRenderer2D_new); try reflexivity. discriminate.
Defined.

Lemma normal_steps_count (cfg : Configuration) (thing : MapThing) (nexttype tid : Z)
    (rest : list MapThing) : forall st,
  length (foldl (normal_step cfg thing nexttype tid) st rest).2
  = (length st.2
     + length (filter (fun t2 => t_type t2 = nexttype) rest))%nat.
Proof.
  induction rest as [|thing2 rest IH]; intros [[path tid2] out]; simpl; [lia|].
  rewrite IH, filter_cons.
  destruct (Z.eqb_spec (t_type thing2) nexttype) as [Heq|Hne]; simpl.
  - rewrite decide_True by exact Heq. rewrite length_app. simpl. lia.
  - rewrite decide_False by exact Hne. reflexivity.
Qed.

(** X3. A candidate that is not dragon-flagged pushes exactly one entry for
    every later candidate whose type is its next type, whether the two are
    linked or not; with no such candidate after it, it pushes none. *)
Theorem normal_paths_one_entry_per_candidate
    (cfg : Configuration) (thing : MapThing) (rest : list MapThing) :
  length (normal_paths cfg thing rest)
  = length (filter (fun t2 => t_type t2 = tt_nextType (thingType cfg (t_type thing)))
              rest).
Proof. unfold normal_paths. rewrite normal_steps_count. reflexivity. Qed.

(** The path variable of the normal path holds the entry pushed last, or
    the initial path when none was pushed. *)
Lemma normal_steps_carry (cfg : Configuration) (thing : MapThing) (nexttype tid : Z)
    (init : ThingPath) (tid0 : Z) (rest : list MapThing) :
  let st := foldl (normal_step cfg thing nexttype tid) (init, tid0, []) rest in
  st.1.1 = default init (last st.2).
Proof.
  cbv zeta. induction rest as [|thing2 rest IH] using rev_ind; [reflexivity|].
  rewrite foldl_snoc.
  destruct (foldl (normal_step cfg thing nexttype tid) (init, tid0, []) rest)
    as [[path tid2] out].
  cbn [fst snd] in IH. unfold normal_step.
  destruct (t_type thing2 =? nexttype); [|exact IH].
  cbn [fst snd]. rewrite last_snoc. reflexivity.
Qed.

(** X4. In the normal path, the entry pushed for a later candidate [c] of the
    next type that is linked with the current thing in neither direction
    repeats the entry pushed just before it for the same thing, or, when it
    is the first, is the initial path with both indices 0 and no kind: the
    path variable is not reset between the candidates.  ([st] is the state
    of the loop when it reaches [c]: the path variable, the id decoded for
    the candidates before, and the entries pushed for them.) *)
Theorem updateThingPaths_unlinked_candidate_repeats
    (cfg : Configuration) (thing c : MapThing) (before after : list MapThing) :
  let tt := thingType cfg (t_type thing) in
  let tid := decode_target (tt_nextArgs tt) thing (-1) in
  let init := mkThingPath (Some 0%nat) (Some 0%nat) None in
  let st := foldl (normal_step cfg thing (tt_nextType tt) tid) (init, -1, [])
              before in
  t_type c = tt_nextType tt ->
  t_id c <> tid ->
  t_id thing <> decode_target (tt_nextArgs (thingType cfg (t_type c))) c st.1.2 ->
  st.2 = normal_paths cfg thing before
  /\ normal_paths cfg thing (before ++ c :: after)
       !! length (normal_paths cfg thing before)
     = Some (default init (last (normal_paths cfg thing before))).
Proof.
  cbv zeta. intros Htype Hto Hfrom. split; [reflexivity|].
  unfold normal_paths. rewrite foldl_app. cbn [foldl].
  pose proof (normal_steps_carry cfg thing
                (tt_nextType (thingType cfg (t_type thing)))
                (decode_target (tt_nextArgs (thingType cfg (t_type thing))) thing (-1))
                (mkThingPath (Some 0%nat) (Some 0%nat) None) (-1) before) as Hcarry.
  cbv zeta in Hcarry.
  destruct (foldl _ (mkThingPath (Some 0%nat) (Some 0%nat) None, -1, []) before)
    as [[path tid2] out].
  cbn [fst snd] in Hcarry, Hfrom |- *.
  unfold normal_step at 2. rewrite Htype in Hfrom |- *. rewrite Z.eqb_refl.
  apply Z.eqb_neq in Hto, Hfrom. rewrite Hto, Hfrom.
  rewrite normal_steps_out, <- Hcarry.
  rewrite lookup_app_l by (rewrite length_app; cbn; lia).
  apply list_lookup_middle. reflexivity.
Qed.

Lemma updateThingPaths_unlinked_candidate_repeats_witness :
  normal_paths chain_cfg (thing_of 0 10 1 [20; 0; 0; 0; 0])
    [thing_of 1 20 2 [0; 0; 0; 0; 0]; thing_of 2 30 2 [0; 0; 0; 0; 0]] !! 1%nat
  = Some (mkThingPath (Some 0%nat) (Some 1%nat) (Some Normal)).
Proof.
  apply (updateThingPaths_unlinked_candidate_repeats chain_cfg
           (thing_of 0 10 1 [20; 0; 0; 0; 0]) (thing_of 2 30 2 [0; 0; 0; 0; 0])
           [thing_of 1 20 2 [0; 0; 0; 0; 0]] []);
    [reflexivity | discriminate | discriminate].
Defined.

(** X5. The entry of a one-way reference between two dragon targets does not
    depend on their order in the target list: when [a] holds the id of [b] in
    its arguments, [b] does not hold the id of [a], and neither is
    dragon-flagged, the pair gives the edge from [b] to [a] of kind Dragon
    whichever of the two comes first. *)
Theorem dragon_pair_one_way_direction
    (cfg : Configuration) (a b : MapThing) :
  is_dragon cfg (Z.lor (tt_flags (thingType cfg (t_type a)))
                       (tt_flags (thingType cfg (t_type b)))) = false ->
  links_to a (t_id b) = true -> links_to b (t_id a) = false ->
  dragon_pair cfg a b
  = Some (mkThingPath (Some (t_index b)) (Some (t_index a)) (Some Dragon))
  /\ dragon_pair cfg b a
     = Some (mkThingPath (Some (t_index b)) (Some (t_index a)) (Some Dragon)).
Proof.
  intros Hflags Hab Hba. unfold dragon_pair.
  rewrite (Z.lor_comm (tt_flags (thingType cfg (t_type b)))), Hflags, Hab, Hba.
  split; reflexivity.
Qed.

Lemma dragon_pair_one_way_direction_witness :
  dragon_pair chain_cfg (thing_of 4 8 3 [9; 0; 0; 0; 0]) (thing_of 5 9 3 [0; 0; 0; 0; 0])
  = Some (mkThingPath (Some 5%nat) (Some 4%nat) (Some Dragon))
  /\ dragon_pair chain_cfg (thing_of 5 9 3 [0; 0; 0; 0; 0]) (thing_of 4 8 3 [9; 0; 0; 0; 0])
     = Some (mkThingPath (Some 5%nat) (Some 4%nat) (Some Dragon)).
Proof.
  apply (dragon_pair_one_way_direction chain_cfg
           (thing_of 4 8 3 [9; 0; 0; 0; 0]) (thing_of 5 9 3 [0; 0; 0; 0; 0]));
    reflexivity.
Defined.

End PathGraphMore.

(** ** The thing buffers: one buffer per thing type *)

Module ThingBuffersFacts.
Import Things Samples.

(** The number of entries staged in a list of thing buffers. *)
Definition staged (bs : list ThingBuffer2D) : nat :=
  sum_list_with (fun b => length (tb_things b)) bs.

Lemma staged_cons (b : ThingBuffer2D) (bs : list ThingBuffer2D) :
  staged (b :: bs) = (length (tb_things b) + staged bs)%nat.
Proof. reflexivity. Qed.

Lemma staged_snoc (b : ThingBuffer2D) (bs : list ThingBuffer2D) :
  staged (bs ++ [b]) = (staged bs + length (tb_things b))%nat.
Proof. unfold staged. rewrite sum_list_with_app. simpl. lia. Qed.

Lemma setupThingBuffer_new (E : Env) (type : Z) :
  setupThingBuffer E type ThingBuffer2D_new
  = mkThingBuffer2D type
      (thing_texture E (thingType (configuration E) type)).1
      (thing_texture E (thingType (configuration E) type)).2 [] [].
Proof.
  unfold setupThingBuffer. destruct (thing_texture E _) as [tex sprite]. reflexivity.
Qed.

Lemma add_to_type_effect (type : Z) (e : ThingEntry) (bs : list ThingBuffer2D) :
  match add_to_type type e bs with
  | Some bs' =>
      type ∈ tb_type <$> bs
      /\ tb_type <$> bs' = tb_type <$> bs
      /\ staged bs' = S (staged bs)
      /\ (NoDup (tb_type <$> bs) ->
          Forall2 (fun b b' => if decide (tb_type b = type)
                               then b' = tb_add e b else b' = b) bs bs')
  | None => type ∉ tb_type <$> bs
  end.
Proof.
  induction bs as [|b bs IH].
  - simpl. intros H. inversion H.
  - cbn [add_to_type]. rewrite fmap_cons.
    destruct (Z.eqb_spec (tb_type b) type) as [Heq|Hne].
    + split; [apply elem_of_cons; left; congruence|]. split; [reflexivity|].
      split; [rewrite !staged_cons; simpl; rewrite length_app; simpl; lia|].
      intros Hnd. apply NoDup_cons in Hnd as [Hnotin _]. constructor.
      * rewrite decide_True by exact Heq. reflexivity.
      * apply Forall2_same_length_lookup. split; [reflexivity|].
        intros i b1 b2 H1 H2. rewrite H1 in H2. injection H2 as <-.
        rewrite decide_False; [reflexivity|].
        intros Heq'. apply Hnotin. rewrite Heq, <- Heq'.
        apply list_elem_of_fmap. exists b1. split; [reflexivity|].
        eapply list_elem_of_lookup_2, H1.
    + destruct (add_to_type type e bs) as [bs'|]; cbn [fmap option_fmap option_map].
      * destruct IH as (Hin & Htypes & Hstaged & Hrel).
        split; [apply elem_of_cons; right; exact Hin|].
        split; [rewrite fmap_cons; f_equal; exact Htypes|].
        split; [rewrite !staged_cons; lia|].
        intros Hnd. apply NoDup_cons in Hnd as [_ Hnd]. constructor.
        -- rewrite decide_False by exact Hne. reflexivity.
        -- apply Hrel, Hnd.
      * intros Hin. apply elem_of_cons in Hin as [Heq | Hin]; [congruence|].
        apply IH, Hin.
Qed.

(** What holds of the buffers after the things [sofar] were added. *)
Record grouped (E : Env) (sofar : list MapThing) (bs : list ThingBuffer2D) : Prop := {
  grouped_nodup : NoDup (tb_type <$> bs);
  grouped_types : forall type, type ∈ tb_type <$> bs <-> type ∈ t_type <$> sofar;
  grouped_count : staged bs = length sofar;
  grouped_contents :
    Forall (fun b =>
              tb_things b
              = thing_entry <$> filter (fun t => t_type t = tb_type b) sofar
              /\ tb_buffer b = []
              /\ (tb_texture b, tb_sprite b)
                 = thing_texture E (thingType (configuration E) (tb_type b))) bs
}.

Lemma grouped_nil (E : Env) : grouped E [] [].
Proof.
  split.
  - constructor.
  - intros type. split; intros H; inversion H.
  - reflexivity.
  - constructor.
Qed.

Lemma filter_type_snoc (type : Z) (sofar : list MapThing) (t : MapThing) :
  filter (fun t => t_type t = type) (sofar ++ [t])
  = filter (fun t => t_type t = type) sofar
    ++ (if decide (t_type t = type) then [t] else []).
Proof.
  rewrite filter_app, filter_cons, filter_nil.
  destruct (decide (t_type t = type)); reflexivity.
Qed.

Lemma grouped_add (E : Env) (sofar : list MapThing) (bs : list ThingBuffer2D)
    (t : MapThing) :
  grouped E sofar bs -> grouped E (sofar ++ [t]) (add_thing E bs t).
Proof.
  intros [Hnd Htypes Hcount Hcont]. unfold add_thing.
  pose proof (add_to_type_effect (t_type t) (thing_entry t) bs) as Heff.
  destruct (add_to_type (t_type t) (thing_entry t) bs) as [bs'|].
  - destruct Heff as (Hin & Hsame & Hstaged & Hrel). specialize (Hrel Hnd).
    split.
    + rewrite Hsame. exact Hnd.
    + intros type. rewrite Hsame, fmap_app, elem_of_app, Htypes.
      split; [auto|]. intros [H | H]; [exact H|].
      apply list_elem_of_singleton in H as ->. apply Htypes, Hin.
    + rewrite Hstaged, Hcount, length_app. simpl. lia.
    + apply Forall_forall. intros b' Hb'.
      apply list_elem_of_lookup in Hb' as [i Hi].
      destruct (Forall2_lookup_r _ _ _ _ _ Hrel Hi) as (b & Hb & Hbb').
      pose proof (proj1 (Forall_lookup _ _) Hcont i b Hb) as (Hthings & Hbuf & Htex).
      destruct (decide (tb_type b = t_type t)) as [Heq|Hne]; subst b';
        rewrite filter_type_snoc, fmap_app.
      * simpl. rewrite decide_True by congruence. rewrite Hthings. auto.
      * rewrite decide_False by congruence. simpl. rewrite app_nil_r. auto.
  - rewrite setupThingBuffer_new. split.
    + rewrite fmap_app. apply NoDup_app. split; [exact Hnd|]. split.
      * intros type Hin Hnew. simpl in Hnew.
        apply list_elem_of_singleton in Hnew as ->. apply Heff, Hin.
      * apply NoDup_singleton.
    + intros type. rewrite !fmap_app, !elem_of_app, Htypes. reflexivity.
    + rewrite staged_snoc, Hcount, length_app. simpl. lia.
    + apply Forall_app. split.
      * apply Forall_forall. intros b Hb.
        pose proof (proj1 (Forall_forall _ _) Hcont b Hb) as (Hthings & Hbuf & Htex).
        rewrite filter_type_snoc, fmap_app.
        destruct (decide (t_type t = tb_type b)) as [Heq|Hne];
          [|simpl; rewrite app_nil_r; auto].
        exfalso. apply Heff. rewrite Heq.
        apply list_elem_of_fmap. exists b. auto.
      * constructor; [|constructor]. simpl.
        rewrite filter_type_snoc, decide_True by reflexivity.
        destruct (filter (fun t0 => t_type t0 = t_type t) sofar) as [|x l] eqn:Hf;
          [repeat split; symmetry; apply surjective_pairing|].
        exfalso. apply Heff, Htypes.
        assert (x ∈ filter (fun t0 => t_type t0 = t_type t) sofar) as Hx
          by (rewrite Hf; left).
        apply list_elem_of_filter in Hx as [<- Hx].
        apply list_elem_of_fmap. exists x. auto.
Qed.

(** The buffers built from a list of things. *)
Lemma grouped_things (E : Env) (things : list MapThing) :
  grouped E things (foldl (add_thing E) [] things).
Proof.
  induction things as [|t things IH] using rev_ind; [apply grouped_nil|].
  rewrite foldl_snoc. apply grouped_add, IH.
Qed.

Lemma emit_run (c : GLCall) (w : World) :
  emit c w = Ok tt (mkWorld (rd w) (backend w ++ [c])).
Proof. reflexivity. Qed.

Lemma for_each_emit {A} (f : A -> GLCall) (l : list A) (w : World) :
  for_each l (fun x => emit (f x)) w = Ok tt (mkWorld (rd w) (backend w ++ (f <$> l))).
Proof.
  revert w. induction l as [|x l IH]; intros w; simpl.
  - rewrite app_nil_r. destruct w; reflexivity.
  - unfold bind, emit. rewrite IH. simpl. rewrite <- app_assoc. reflexivity.
Qed.

Lemma updateThingBuffers_run (E : Env) (m : SLADEMap) (now : Z) (w : World) :
  let bs := foldl (add_thing E) [] (things m) in
  updateThingBuffers E m now w
  = Ok tt
      (mkWorld (set_things_updated_ now (set_thing_buffers_ (tb_push <$> bs) (rd w)))
         (backend w ++ ((fun b => gl_upload_things (tb_type b) (tb_things b)) <$> bs))).
Proof.
  cbv zeta. unfold updateThingBuffers, bind. rewrite for_each_emit. reflexivity.
Qed.

Lemma things_rebuilds_app (r : MapRenderer2D) (w : World) (calls : list GLCall) :
  things_rebuilds (mkWorld r (backend w ++ calls))
  = (things_rebuilds w
     + length (filter (fun c => is_things_upload c = true) calls))%nat.
Proof. unfold things_rebuilds; simpl. rewrite filter_app, length_app. reflexivity. Qed.

Lemma filter_none_of {A} (P : GLCall -> bool) (f : A -> GLCall) (l : list A) :
  (forall x, P (f x) = false) ->
  filter (fun c => P c = true) (f <$> l) = [].
Proof.
  intros Hf. induction l as [|x l IH]; [reflexivity|].
  rewrite fmap_cons, filter_cons, Hf.
  destruct (decide (false = true)); [congruence | exact IH].
Qed.

Lemma uploads_all_counted (bs : list ThingBuffer2D) :
  length (filter (fun c => is_things_upload c = true)
            ((fun b => gl_upload_things (tb_type b) (tb_things b)) <$> bs))
  = length bs.
Proof.
  induction bs as [|b bs IH]; [reflexivity|].
  rewrite fmap_cons, filter_cons. simpl.
  destruct (decide (true = true)); [simpl; lia | congruence].
Qed.

(** The types of a list in the order in which they first occur. *)
Definition first_types (types : list Z) : list Z :=
  foldl (fun seen type => if bool_decide (type ∈ seen) then seen else seen ++ [type])
    [] types.

Lemma add_thing_types (E : Env) (bs : list ThingBuffer2D) (t : MapThing) :
  tb_type <$> add_thing E bs t
  = if bool_decide (t_type t ∈ tb_type <$> bs) then tb_type <$> bs
    else (tb_type <$> bs) ++ [t_type t].
Proof.
  unfold add_thing.
  pose proof (add_to_type_effect (t_type t) (thing_entry t) bs) as Heff.
  destruct (add_to_type (t_type t) (thing_entry t) bs) as [bs'|].
  - destruct Heff as (Hin & Hsame & _).
    rewrite bool_decide_eq_true_2 by exact Hin. exact Hsame.
  - rewrite bool_decide_eq_false_2 by exact Heff.
    rewrite fmap_app, setupThingBuffer_new. reflexivity.
Qed.

Lemma add_things_types (E : Env) (things : list MapThing) :
  forall bs : list ThingBuffer2D,
  tb_type <$> foldl (add_thing E) bs things
  = foldl (fun seen type => if bool_decide (type ∈ seen) then seen else seen ++ [type])
      (tb_type <$> bs) (t_type <$> things).
Proof.
  induction things as [|t things IH]; intros bs; [reflexivity|].
  cbn [foldl fmap list_fmap]. rewrite IH, add_thing_types. reflexivity.
Qed.

(** X6. [updateThingBuffers] completes and leaves exactly one buffer per
    thing type that occurs in the map, in the order in which the types first
    occur among the things: the buffers' types are pairwise distinct, a type
    has a buffer exactly when some thing of the map has that type, one upload
    is issued per buffer, and the cache timestamp is the time of the
    rebuild. *)
Theorem updateThingBuffers_one_buffer_per_type
    (E : Env) (m : SLADEMap) (now : Z) (w : World) :
  exists w',
    updateThingBuffers E m now w = Ok tt w'
    /\ tb_type <$> thing_buffers_ (rd w') = first_types (t_type <$> things m)
    /\ NoDup (tb_type <$> thing_buffers_ (rd w'))
    /\ (forall type,
          type ∈ tb_type <$> thing_buffers_ (rd w') <-> type ∈ t_type <$> things m)
    /\ things_rebuilds w' = (things_rebuilds w + length (thing_buffers_ (rd w')))%nat
    /\ things_updated_ (rd w') = now.
Proof.
  eexists. split; [apply updateThingBuffers_run|].
  destruct (grouped_things E (things m)) as [Hnd Htypes _ _].
  cbn [rd thing_buffers_ set_things_updated_ set_thing_buffers_ things_updated_].
  assert (tb_type <$> (tb_push <$> foldl (add_thing E) [] (things m))
          = tb_type <$> foldl (add_thing E) [] (things m)) as Hpush
    by (rewrite <- list_fmap_compose; reflexivity).
  rewrite Hpush. split; [apply add_things_types|].
  split; [exact Hnd|]. split; [exact Htypes|]. split; [|reflexivity].
  rewrite things_rebuilds_app, uploads_all_counted, length_fmap. reflexivity.
Qed.

Lemma pushed_is_staged (bs : list ThingBuffer2D) :
  sum_list_with (fun b => length (tb_buffer b)) (tb_push <$> bs) = staged bs.
Proof.
  induction bs as [|b bs IH]; [reflexivity|].
  rewrite fmap_cons, staged_cons. simpl. rewrite IH. reflexivity.
Qed.

(** X7. After [updateThingBuffers] every buffer holds, uploaded and in map
    order, exactly the things of its type, with nothing left staged and with
    the texture of its type; together the buffers hold every thing of the map
    once. *)
Theorem updateThingBuffers_contents
    (E : Env) (m : SLADEMap) (now : Z) (w : World) :
  exists w',
    updateThingBuffers E m now w = Ok tt w'
    /\ Forall (fun b =>
                 tb_buffer b
                 = thing_entry <$> filter (fun t => t_type t = tb_type b) (things m)
                 /\ tb_things b = []
                 /\ (tb_texture b, tb_sprite b)
                    = thing_texture E (thingType (configuration E) (tb_type b)))
         (thing_buffers_ (rd w'))
    /\ sum_list_with (fun b => length (tb_buffer b)) (thing_buffers_ (rd w'))
       = nThings m.
Proof.
  eexists. split; [apply updateThingBuffers_run|].
  destruct (grouped_things E (things m)) as [_ _ Hcount Hcont].
  cbn [rd thing_buffers_ set_things_updated_ set_thing_buffers_]. split.
  - apply Forall_fmap. eapply Forall_impl; [exact Hcont|].
    intros b (Hthings & _ & Htex). simpl. auto.
  - unfold nThings. rewrite <- Hcount. apply pushed_is_staged.
Qed.

(** With something to draw the rebuilt list of buffers is not empty. *)
Lemma rebuilt_buffers_nonempty (E : Env) (things : list MapThing) :
  things <> [] -> tb_push <$> foldl (add_thing E) [] things <> [].
Proof.
  intros Hne Habs. apply fmap_nil_inv in Habs.
  destruct (grouped_things E things) as [_ _ Hcount _].
  rewrite Habs in Hcount. destruct things; [congruence | discriminate].
Qed.

(** The draw calls of [renderThings] for the buffers [bs]. *)
Definition things_draws (E : Env) (alpha : float) (force_dir : bool)
    (bs : list ThingBuffer2D) : list GLCall :=
  gl_setBlend Blend_Normal
  :: ((fun b => gl_draw_things b (col_vec4 1 1 1 alpha) (thing_shape (cv E) =? 1)
                  force_dir) <$> bs).

(** A call of [renderThings] that finds the cache fresh. *)
Lemma renderThings_fresh (E : Env) (m : SLADEMap) (view_ : View) (now : Z)
    (alpha : float) (force_dir : bool) (w : World) :
  nThings m <> 0%nat ->
  thing_buffers_ (rd w) <> [] ->
  thingsUpdated m <= things_updated_ (rd w) ->
  exists w', renderThings E m view_ now alpha force_dir w = Ok tt w'
    /\ things_rebuilds w' = things_rebuilds w
    /\ thing_buffers_ (rd w') = thing_buffers_ (rd w)
    /\ things_updated_ (rd w') = things_updated_ (rd w)
    /\ ((alpha <=? c_0_01f)%float = true -> w' = w)
    /\ ((alpha <=? c_0_01f)%float = false ->
        backend w'
        = backend w ++ things_draws E alpha force_dir (thing_buffers_ (rd w))).
Proof.
  intros Hn Hne Hold. unfold renderThings.
  rewrite (bool_decide_eq_false_2 _ Hn), orb_false_r.
  destruct (alpha <=? c_0_01f)%float;
    [exists w; repeat split; discriminate|].
  unfold bind, modify_rd, get_rd, ret.
  cbn [rd backend thing_buffers_ set_things_angles_ things_updated_].
  rewrite bool_decide_eq_false_2 by exact Hne.
  rewrite (proj2 (Z.ltb_ge _ _) Hold). cbn [orb].
  rewrite (emit_run (gl_setBlend Blend_Normal)).
  cbn [rd backend thing_buffers_ set_things_angles_].
  rewrite for_each_emit. eexists. split; [reflexivity|].
  cbn [rd backend thing_buffers_ set_things_angles_ things_updated_].
  split; [|split; [reflexivity|split; [reflexivity|split; [discriminate|]]]].
  - rewrite <- app_assoc.
    rewrite (things_rebuilds_app _ w), filter_app, length_app.
    rewrite (filter_none_of _ (fun b => gl_draw_things b _ _ _)) by reflexivity.
    simpl. lia.
  - intros _. rewrite <- app_assoc. reflexivity.
Qed.

(** X8. A first call of [renderThings] that passes the fast reject (alpha
    above 0.01 on a map with things) completes; when the map's things are then
    no newer than the cache timestamp that call leaves, a second call performs
    no rebuild: no upload is issued and the buffers and the timestamp are those
    left by the first call.  A second call that is fast-rejected for its alpha
    does nothing at all; one that is not sets the blend mode and draws each
    buffer the first call left, once and in order. *)
Theorem renderThings_second_call_no_rebuild
    (E1 E2 : Env) (m : SLADEMap) (view_ : View) (now1 now2 : Z)
    (alpha1 alpha2 : float) (force1 force2 : bool) (w : World) :
  (alpha1 <=? c_0_01f)%float = false ->
  nThings m <> 0%nat ->
  exists w1,
    renderThings E1 m view_ now1 alpha1 force1 w = Ok tt w1
    /\ things_angles_ (rd w1) = force1
    /\ (thingsUpdated m <= things_updated_ (rd w1) ->
        exists w2,
          renderThings E2 m view_ now2 alpha2 force2 w1 = Ok tt w2
          /\ things_rebuilds w2 = things_rebuilds w1
          /\ thing_buffers_ (rd w2) = thing_buffers_ (rd w1)
          /\ things_updated_ (rd w2) = things_updated_ (rd w1)
          /\ ((alpha2 <=? c_0_01f)%float = true -> w2 = w1)
          /\ ((alpha2 <=? c_0_01f)%float = false ->
              backend w2
              = backend w1
                  ++ things_draws E2 alpha2 force2 (thing_buffers_ (rd w1)))).
Proof.
  intros Halpha Hn.
  assert (things m <> []) as Hthings
    by (intros Habs; apply Hn; unfold nThings; rewrite Habs; reflexivity).
  assert (exists w1, renderThings E1 m view_ now1 alpha1 force1 w = Ok tt w1
                     /\ things_angles_ (rd w1) = force1
                     /\ thing_buffers_ (rd w1) <> []) as (w1 & Hrun & Hangles & Hne).
  { unfold renderThings. rewrite Halpha, bool_decide_eq_false_2 by exact Hn.
    unfold bind, modify_rd, get_rd, ret.
    cbn [orb rd backend thing_buffers_ set_things_angles_ things_updated_].
    destruct (bool_decide (thing_buffers_ (rd w) = []) || _) eqn:Hstale.
    - rewrite updateThingBuffers_run, (emit_run (gl_setBlend Blend_Normal)).
      cbn [rd backend thing_buffers_ set_things_updated_ set_thing_buffers_].
      rewrite for_each_emit. eexists. split; [reflexivity|].
      cbn [rd thing_buffers_ things_angles_ set_things_updated_ set_thing_buffers_
           set_things_angles_].
      split; [reflexivity|]. apply rebuilt_buffers_nonempty, Hthings.
    - rewrite (emit_run (gl_setBlend Blend_Normal)).
      cbn [rd backend thing_buffers_ set_things_angles_].
      rewrite for_each_emit. eexists. split; [reflexivity|].
      cbn [rd thing_buffers_ things_angles_ set_things_angles_].
      split; [reflexivity|].
      apply orb_false_iff in Hstale as [Hstale _].
      apply bool_decide_eq_false in Hstale. exact Hstale. }
  exists w1. split; [exact Hrun|]. split; [exact Hangles|].
  intros Hold. apply renderThings_fresh; assumption.
Qed.

Lemma renderThings_second_call_no_rebuild_witness :
  exists w1 w2,
    renderThings default_env ThingsFacts.one_thing_map unit_view 100 1 true new_world
    = Ok tt w1
    /\ renderThings default_env ThingsFacts.one_thing_map unit_view 200 1 false w1
       = Ok tt w2
    /\ things_rebuilds w2 = things_rebuilds w1
    /\ thing_buffers_ (rd w2) = thing_buffers_ (rd w1).
Proof.
  destruct (renderThings_second_call_no_rebuild default_env default_env
              ThingsFacts.one_thing_map unit_view 100 200 1 1 true false new_world
              eq_refl)
    as (w1 & Hrun1 & _ & Hsecond); [discriminate|].
  assert (w1 = world_after (renderThings default_env ThingsFacts.one_thing_map
                              unit_view 100 1 true new_world)) as Hw1
    by (rewrite Hrun1; reflexivity).
  destruct Hsecond as (w2 & Hrun2 & Hcount & Hbufs & _);
    [rewrite Hw1; simpl; lia|].
  exists w1, w2. auto.
Defined.

End ThingBuffersFacts.

(** ** The lines cache: what a rebuild does *)

Module LinesMore.
Import Lines Samples BufferFacts LinesFacts ThingBuffersFacts.

Lemma lines_fold_staged (m : SLADEMap) (sd : bool) (ls : list MapLine) :
  forall b : LineBuffer,
  lb_lines (foldl (fun b line => foldl (fun b e => lb_add2d e b) b
                                   (line_entries m sd line)) b ls)
  = lb_lines b ++ flat_map (line_entries m sd) ls.
Proof.
  induction ls as [|l ls IH]; intros b; simpl.
  - rewrite app_nil_r. reflexivity.
  - rewrite IH, lb_lines_fold_add. simpl. rewrite <- !app_assoc. reflexivity.
Qed.

Lemma line_entries_count (m : SLADEMap) (sd : bool) (ls : list MapLine) :
  length (flat_map (line_entries m sd) ls)
  = (length ls * (if sd then 2 else 1))%nat.
Proof.
  induction ls as [|l ls IH]; [reflexivity|].
  simpl. rewrite length_app, IH. destruct sd; simpl; lia.
Qed.

(** The conditions under which [renderLines] finds its cache stale. *)
Lemma lines_stale_triggers (m : SLADEMap) (sd : bool) (r : MapRenderer2D) :
  lines_buffer_ r = None
  \/ (exists lb, lines_buffer_ r = Some lb /\ lb_buffer lb = [])
  \/ sd <> lines_dirs_ r
  \/ nLines m <> n_lines_ r
  \/ lines_updated_ r < geometryUpdated m
  \/ (exists l, l ∈ lines m /\ lines_updated_ r < l_modified_time l) ->
  lines_stale m sd r = true.
Proof.
  unfold lines_stale. intros [H | [(lb & H & He) | [H | [H | [H | (l & Hin & H)]]]]].
  - rewrite H. reflexivity.
  - rewrite H, (bool_decide_eq_true_2 _ He). reflexivity.
  - destruct sd, (lines_dirs_ r); simpl; try congruence;
      rewrite ?orb_true_r; reflexivity.
  - rewrite (bool_decide_eq_true_2 _ H), !orb_true_r. reflexivity.
  - rewrite (proj2 (Z.ltb_lt _ _) H), !orb_true_r. reflexivity.
  - assert (modifiedSince_lines m (lines_updated_ r) = true) as ->.
    { apply existsb_exists. exists l. split; [apply list_elem_of_In, Hin|].
      apply Z.ltb_lt, H. }
    rewrite !orb_true_r. reflexivity.
Qed.

(** X9. With a GL context, a call of [renderLines] on a map with lines that
    is not fast-rejected for its alpha, whose buffer has nothing staged, and
    that finds the lines buffer absent, empty, built for the other
    [show_direction], for another line count, older than the map's geometry,
    or older than some line's modifiedTime, issues exactly two backend calls:
    one upload of the rebuilt line entries, then one draw of the buffer in
    white with the given alpha.  The buffer then holds one entry per line, and
    a direction tab per line as well when [show_direction] is set, has the
    configured line width, the cache records the direction flag, the line
    count and the time of the rebuild, and the thing cache is not touched. *)
Theorem renderLines_stale_rebuilds_once
    (E : Env) (m : SLADEMap) (view_ : View) (now : Z) (show_direction : bool)
    (alpha : float) (w : World) :
  gl_context E = true ->
  nLines m <> 0%nat ->
  (alpha <=? c_0_01f)%float = false ->
  (forall lb, lines_buffer_ (rd w) = Some lb -> lb_lines lb = []) ->
  lines_buffer_ (rd w) = None
  \/ (exists lb, lines_buffer_ (rd w) = Some lb /\ lb_buffer lb = [])
  \/ show_direction <> lines_dirs_ (rd w)
  \/ nLines m <> n_lines_ (rd w)
  \/ lines_updated_ (rd w) < geometryUpdated m
  \/ (exists l, l ∈ lines m /\ lines_updated_ (rd w) < l_modified_time l) ->
  exists w' lb,
    renderLines E m view_ now show_direction alpha w = Ok tt w'
    /\ backend w'
       = backend w
           ++ [gl_upload_lines buf_lines
                 (flat_map (line_entries m show_direction) (lines m));
               gl_draw_lines lb (Some (col_vec4 1 1 1 alpha))]
    /\ lines_rebuilds w' = S (lines_rebuilds w)
    /\ lines_buffer_ (rd w') = Some lb
    /\ lb_buffer lb = flat_map (line_entries m show_direction) (lines m)
    /\ lb_lines lb = []
    /\ lb_width_mult lb = line_width (cv E)
    /\ length (lb_buffer lb)
       = (nLines m * (if show_direction then 2 else 1))%nat
    /\ lines_dirs_ (rd w') = show_direction
    /\ n_lines_ (rd w') = nLines m
    /\ lines_updated_ (rd w') = now
    /\ thing_buffers_ (rd w') = thing_buffers_ (rd w)
    /\ things_updated_ (rd w') = things_updated_ (rd w)
    /\ things_rebuilds w' = things_rebuilds w.
Proof.
  intros Hctx Hn Halpha Hstaged Htrigger.
  apply lines_stale_triggers in Htrigger.
  assert (lb_lines (default LineBuffer_new (lines_buffer_ (rd w))) = []) as Hempty.
  { destruct (lines_buffer_ (rd w)) as [lb|] eqn:Hlb; [apply Hstaged|]; reflexivity. }
  assert (flat_map (line_entries m show_direction) (lines m) <> []) as Hne.
  { unfold nLines in Hn. destruct (lines m) as [|l ls]; [simpl in Hn; congruence|].
    discriminate. }
  unfold renderLines. rewrite (bool_decide_eq_false_2 _ Hn), Halpha.
  unfold bind at 1. unfold get_rd at 1. rewrite Htrigger.
  unfold bind at 1. unfold updateLinesBuffer.
  unfold bind at 1. unfold get_rd at 1.
  unfold bind at 1. rewrite push_lines_run, Hctx.
  unfold modify_rd at 1. cbn [rd backend].
  unfold bind at 1. unfold get_rd at 1. cbn [rd lines_buffer_ set_lines_cache].
  unfold bind at 1. unfold modify_rd at 1. cbn [rd backend].
  rewrite draw_lines_run. cbn [rd backend].
  unfold lb_draws, lb_push.
  cbn [lb_buffer lb_lines lb_width_mult lb_setWidthMult andb].
  rewrite lines_fold_staged, Hempty, app_nil_l.
  rewrite (bool_decide_eq_false_2 _ Hne). cbn [negb].
  eexists. eexists. split; [reflexivity|].
  cbn [rd backend lines_buffer_ set_lines_cache set_lines_buffer_ lines_dirs_
       n_lines_ lines_updated_ thing_buffers_ things_updated_ lb_buffer lb_lines
       lb_width_mult].
  split; [rewrite <- app_assoc; reflexivity|].
  split.
  { rewrite <- app_assoc. unfold lines_rebuilds. cbn [backend].
    rewrite filter_app, length_app. simpl. lia. }
  split; [reflexivity|]. split; [reflexivity|]. split; [reflexivity|].
  split; [reflexivity|]. split; [apply line_entries_count|].
  repeat (split; [reflexivity|]).
  rewrite <- app_assoc. rewrite (things_rebuilds_app _ w). simpl. lia.
Qed.

(** The one-line map with its line modified at time 50, after the cache of a
    renderer that was built at time 10. *)
Definition touched_line_map : SLADEMap :=
  mkSLADEMap (vertices one_line_map) [mkMapLine 0 1 0 (Some 0%nat) None false 50]
    [] [] 0 0 (fun _ => []) (fun _ => mkVec2d 32 0) (fun _ => mkVec2d 32 8).

Definition world_built_at_10 : World :=
  world_after (renderLines default_env one_line_map unit_view 10 true 1 new_world).

Lemma renderLines_stale_rebuilds_once_witness :
  exists w' lb,
    renderLines default_env touched_line_map unit_view 60 true 1 world_built_at_10
    = Ok tt w'
    /\ lines_rebuilds w' = 2%nat
    /\ lines_buffer_ (rd w') = Some lb
    /\ length (lb_buffer lb) = 2%nat
    /\ lines_updated_ (rd w') = 60.
Proof.
  destruct (renderLines_stale_rebuilds_once default_env touched_line_map unit_view
              60 true 1 world_built_at_10)
    as (w' & lb & Hrun & _ & Hcount & Hlb & _ & _ & _ & Hlen & _ & _ & Htime & _).
  - reflexivity.
  - discriminate.
  - reflexivity.
  - intros lb [= <-]. reflexivity.
  - do 5 right. exists (mkMapLine 0 1 0 (Some 0%nat) None false 50).
    split; [left | simpl; lia].
  - exists w', lb. repeat split; assumption.
Defined.

End LinesMore.

(** ** Hilight overlays: faults and fading *)

Module HilightMore.
Import VertexRadius Things Hilight Samples ThingBuffersFacts.

(** X10. [renderVertexHilight] dereferences a null pointer exactly when the
    hilighted vertex exists and the vertices buffer was never built; in every
    other case it completes. *)
Theorem renderVertexHilight_fault_iff
    (E : Env) (m : SLADEMap) (view_ : View) (index : Z) (fade : float) (w : World) :
  (renderVertexHilight E m view_ index fade w = Fault
   <-> is_Some (map_vertex m index) /\ vertices_buffer_ (rd w) = None)
  /\ (renderVertexHilight E m view_ index fade w <> Fault
      -> exists w', renderVertexHilight E m view_ index fade w = Ok tt w').
Proof.
  unfold renderVertexHilight.
  destruct (map_vertex m index) as [v|] eqn:Hv.
  - unfold bind, get_rd. cbn [rd].
    destruct (vertices_buffer_ (rd w)) as [vb|] eqn:Hvb.
    + split; [split; [discriminate | intros [_ H]; discriminate]|].
      intros _. eexists. reflexivity.
    + split; [split; [intros _; split; [eexists|]; reflexivity | reflexivity]|].
      intros H. exfalso. apply H. reflexivity.
  - split; [split; [discriminate | intros [[x H] _]; discriminate]|].
    intros _. exists w. reflexivity.
Qed.

Lemma renderThingOverlays_completes (E : Env) (view_ : View) (dc : Context)
    (things : list MapThing) (radius_extra : float) (offset : Vec2d) (w : World) :
  exists dc' w', renderThingOverlays E view_ dc things radius_extra offset w = Ok dc' w'.
Proof.
  unfold renderThingOverlays. destruct (thing_overlay_square (cv E)).
  - unfold bind. rewrite for_each_emit. eexists. eexists. reflexivity.
  - eexists. eexists. reflexivity.
Qed.

(** X11. [renderFlatHilight] dereferences a null pointer exactly when the
    hilighted sector exists, the hilight fill is enabled and the flats buffer
    was never built; [renderLineHilight] and [renderThingHilight] complete in
    every state. *)
Theorem renderFlatHilight_fault_iff
    (E : Env) (m : SLADEMap) (view_ : View) (dc : Context) (index : Z)
    (fade : float) (w : World) :
  (renderFlatHilight E m dc index fade w = Fault
   <-> is_Some (map_sector m index)
       /\ sector_hilight_fill (cv E) = true
       /\ flats_buffer_ (rd w) = None)
  /\ (exists dc' w', renderLineHilight E m dc index fade w = Ok dc' w')
  /\ (exists dc' w', renderThingHilight E m view_ dc index fade w = Ok dc' w').
Proof.
  split; [|split].
  - unfold renderFlatHilight.
    destruct (map_sector m index) as [s|] eqn:Hs;
      [|split; [discriminate | intros [[x H] _]; discriminate]].
    destruct (sector_hilight_fill (cv E)).
    + unfold bind, get_rd. rewrite !emit_run. cbn [rd backend].
      destruct (flats_buffer_ (rd w)) as [fb|].
      * split; [discriminate | intros (_ & _ & H); discriminate].
      * split; [intros _; split; [eexists; reflexivity | split; reflexivity]
               | reflexivity].
    + split; [discriminate | intros (_ & H & _); discriminate].
  - unfold renderLineHilight. destruct (map_line m index); eexists; eexists; reflexivity.
  - unfold renderThingHilight. destruct (map_thing m index) as [thing|];
      [|eexists; eexists; reflexivity].
    destruct (thing_overlay_square (cv E)); [eexists; eexists; reflexivity|].
    apply renderThingOverlays_completes.
Qed.

(** X12. With hilight animation disabled the four hilight passes ignore the
    fade they are given: each behaves as it does for fade 1.0. *)
Theorem hilight_fade_ignored_without_animation
    (E : Env) (m : SLADEMap) (view_ : View) (dc : Context) (index : Z)
    (fade : float) (w : World) :
  map_animate_hilight (cv E) = false ->
  renderVertexHilight E m view_ index fade w
  = renderVertexHilight E m view_ index c_1_0f w
  /\ renderLineHilight E m dc index fade w = renderLineHilight E m dc index c_1_0f w
  /\ renderThingHilight E m view_ dc index fade w
     = renderThingHilight E m view_ dc index c_1_0f w
  /\ renderFlatHilight E m dc index fade w = renderFlatHilight E m dc index c_1_0f w.
Proof.
  intros Hoff.
  unfold renderVertexHilight, renderLineHilight, renderThingHilight,
    renderFlatHilight, hilight_fade.
  rewrite Hoff. repeat split.
Qed.

Definition still_env : Env :=
  mkEnv (mkCVars true 7 1.5 0 true false true false)
    (mkTextureManager (fun _ => 0) (fun _ => 1))
    (mkConfiguration (fun _ => mkThingType 0 0 0 20 false "" "") 2)
    3 true.

Lemma hilight_fade_ignored_without_animation_witness :
  renderLineHilight still_env one_line_map plain_context 0 0.25 new_world
  = renderLineHilight still_env one_line_map plain_context 0 1 new_world.
Proof.
  apply (hilight_fade_ignored_without_animation still_env one_line_map unit_view
           plain_context 0 0.25 new_world).
  reflexivity.
Defined.

(** X13. In point sprite mode [renderThingOverlays] hands the drawing
    context back unchanged, uploads one sprite per thing behind what was
    staged (each at the thing's position moved by the offset), and draws with
    an outline width that is never above 4. *)
Theorem renderThingOverlays_sprites
    (E : Env) (view_ : View) (dc : Context) (things : list MapThing)
    (radius_extra : float) (offset : Vec2d) (w : World) :
  thing_overlay_square (cv E) = false ->
  exists w',
    renderThingOverlays E view_ dc things radius_extra offset w = Ok dc w'
    /\ length (psb_buffer (thing_overlay_buffer_ (rd w')))
       = (length (psb_points (thing_overlay_buffer_ (rd w))) + length things)%nat
    /\ (fun s => (ps_x s, ps_y s))
       <$> drop (length (psb_points (thing_overlay_buffer_ (rd w))))
             (psb_buffer (thing_overlay_buffer_ (rd w')))
       = (fun t => (f32 (vx (t_position t) + vx offset),
                    f32 (vy (t_position t) + vy offset))) <$> things
    /\ psb_points (thing_overlay_buffer_ (rd w')) = []
    /\ (c_4_0f <? psb_outline_width (thing_overlay_buffer_ (rd w')))%float = false.
Proof.
  intros Hsquare. unfold renderThingOverlays. rewrite Hsquare.
  unfold bind, get_rd, modify_rd, ret. rewrite !emit_run. cbn [rd backend].
  rewrite ?emit_run. cbn [rd backend].
  eexists. split; [reflexivity|].
  cbn [rd thing_overlay_buffer_ set_thing_overlay_buffer_ psb_buffer psb_points
       psb_outline_width].
  split; [rewrite length_app, length_fmap; reflexivity|].
  split; [rewrite drop_app_length, <- list_fmap_compose; reflexivity|].
  split; [reflexivity|].
  destruct (c_4_0f <? fdiv c_3_0f (f32 (vx (View_scale view_ false))))%float eqn:Hw;
    [reflexivity | exact Hw].
Qed.

Lemma renderThingOverlays_sprites_witness :
  exists w',
    renderThingOverlays default_env unit_view plain_context
      (things ThingsFacts.one_thing_map) 0 (mkVec2d 8 8) new_world
    = Ok plain_context w'
    /\ length (psb_buffer (thing_overlay_buffer_ (rd w'))) = 1%nat.
Proof.
  destruct (renderThingOverlays_sprites default_env unit_view plain_context
              (things ThingsFacts.one_thing_map) 0 (mkVec2d 8 8) new_world eq_refl)
    as (w' & Hrun & Hlen & _).
  exists w'. split; [exact Hrun | exact Hlen].
Defined.

End HilightMore.

(** ** Sector visibility: what the table depends on *)

Module VisibilityMore.
Import Visibility VisibilityFacts.

(** X14. The table [updateVisibility] leaves depends on the map, the view and
    the viewport only, not on the table it finds: two runs from any two
    renderer states give the same table, a second run changes nothing, and no
    other member of the renderer is written. *)
Theorem updateVisibility_rebuilds_wholesale
    (m : SLADEMap) (view_ : View) (view_tl view_br : Vec2d) (r r' : MapRenderer2D) :
  vis_s_ (updateVisibility m view_ view_tl view_br r)
  = vis_s_ (updateVisibility m view_ view_tl view_br r')
  /\ updateVisibility m view_ view_tl view_br
       (updateVisibility m view_ view_tl view_br r)
     = updateVisibility m view_ view_tl view_br r
  /\ set_vis_s_ (vis_s_ r) (updateVisibility m view_ view_tl view_br r) = r.
Proof.
  split; [|split].
  - rewrite !updateVisibility_table. reflexivity.
  - pose proof (updateVisibility_table m view_ view_tl view_br
                  (updateVisibility m view_ view_tl view_br r)) as H2.
    pose proof (updateVisibility_table m view_ view_tl view_br r) as H1.
    unfold updateVisibility in *. cbn [vis_s_ set_vis_s_] in *.
    unfold set_vis_s_. cbn. rewrite H1 in *. rewrite H2. reflexivity.
  - unfold updateVisibility. destruct r; reflexivity.
Qed.

(** X15. For a sector that is not too small the directional tests are tried
    with this precedence: Below, then Right, then Above, then Left; the entry
    is Visible exactly when none of the four tests holds. *)
Theorem updateVisibility_direction_precedence
    (m : SLADEMap) (view_ : View) (view_tl view_br : Vec2d) (r : MapRenderer2D)
    (a : nat) (s : MapSector) :
  sectors m !! a = Some s ->
  ((vx (bb_max (boundingBox s)) - vx (bb_min (boundingBox s)))
     * vx (View_scale view_ false) <? 4)%float = false ->
  ((vy (bb_max (boundingBox s)) - vy (bb_min (boundingBox s)))
     * vx (View_scale view_ false) <? 4)%float = false ->
  let left := (vx (bb_max (boundingBox s)) <? vx view_tl)%float in
  let above := (vy (bb_max (boundingBox s)) <? vy view_tl)%float in
  let right := (vx view_br <? vx (bb_min (boundingBox s)))%float in
  let below := (vy view_br <? vy (bb_min (boundingBox s)))%float in
  vis_s_ (updateVisibility m view_ view_tl view_br r) !! a
  = Some (if below then VIS_BELOW
          else if right then VIS_RIGHT
          else if above then VIS_ABOVE
          else if left then VIS_LEFT
          else VIS_NONE)
  /\ (vis_s_ (updateVisibility m view_ view_tl view_br r) !! a = Some VIS_NONE
      <-> left = false /\ above = false /\ right = false /\ below = false).
Proof.
  intros Hs Hw Hh. cbv zeta.
  rewrite (updateVisibility_lookup _ _ _ _ _ _ _ Hs).
  unfold classify. rewrite Hw, Hh. cbn [orb]. split; [reflexivity|].
  repeat match goal with
         | |- context [if ?c then _ else _] => destruct c
         end;
    split; try discriminate; try (intros (? & ? & ? & ?); discriminate);
    repeat split.
Qed.

(** A wide sector above and to the left of the viewport. *)
Definition far_sector : MapSector :=
  mkMapSector (mkBBox (mkVec2d (-200) (-200)) (mkVec2d (-100) (-100))) [].

Definition far_map : SLADEMap :=
  mkSLADEMap [] [] [far_sector] [] 0 0 (fun _ => [])
    (fun _ => mkVec2d 0 0) (fun _ => mkVec2d 0 0).

Lemma updateVisibility_direction_precedence_witness :
  vis_s_ (updateVisibility far_map (mkView (mkVec2d 1 1) (mkVec2d 1 1))
            (mkVec2d 0 0) (mkVec2d 100 100) MapRenderer2D_new) !! 0%nat
  = Some VIS_ABOVE.
Proof.
  destruct (updateVisibility_direction_precedence far_map
              (mkView (mkVec2d 1 1) (mkVec2d 1 1)) (mkVec2d 0 0) (mkVec2d 100 100)
              MapRenderer2D_new 0 far_sector eq_refl eq_refl eq_refl) as [H _].
  exact H.
Defined.

End VisibilityMore.

(** ** Sample settings for the further passes *)

Module MoreSamples.
Import Samples.

(** The default settings, with the default arguments of the calls. *)
Definition default_env2 : Env2 :=
  mkEnv2 default_env false true 4 1 1 1 false 0 (mkVec2d 0 0).

End MoreSamples.

(** ** Vertices: the buffer the hilight draws from *)

Module VerticesFacts.
Import VertexRadius Hilight Vertices Samples MoreSamples.

(** Nothing is left staged in the vertices buffer, if there is one. *)
Definition nothing_staged (r : MapRenderer2D) : Prop :=
  match vertices_buffer_ r with
  | Some vb => psb_points vb = []
  | None => True
  end.

(** X16. A call of [renderVertices] that is not rejected never faults: it
    leaves a vertices buffer and the vertex count of the map in the cache, so
    a vertex hilight that follows it does not fault for any index.  When the
    call found the cache stale, with nothing staged, the buffer holds exactly
    one sprite per vertex of the map, in the order of the map. *)
Theorem renderVertices_prepares_hilight
    (E : Env2) (m : SLADEMap) (view_ : View) (now : Z) (alpha : float)
    (vc : VerticesCache) (w : World) :
  nVertices m <> 0%nat ->
  (alpha <=? c_0_01f)%float = false ->
  exists vc' w' vb,
    renderVertices E m view_ now alpha vc w = Ok vc' w'
    /\ vertices_buffer_ (rd w') = Some vb
    /\ n_vertices_ vc' = nVertices m
    /\ (nothing_staged (rd w) -> vertices_stale m (rd w) vc = true ->
        psb_points vb = [] /\ psb_buffer vb = vertex_sprite E <$> vertices m)
    /\ (forall index fade,
          renderVertexHilight (env E) m view_ index fade w' <> Fault).
Proof.
  intros Hn Ha. unfold renderVertices.
  rewrite bool_decide_eq_false_2 by exact Hn. rewrite Ha.
  unfold bind at 1. unfold get_rd at 1.
  destruct (vertices_stale m (rd w) vc) eqn:Hstale.
  - unfold updateVerticesBuffer, bind, get_rd, modify_rd, emit, ret.
    cbn [rd backend vertices_buffer_ set_vertices_buffer_].
    eexists _, _, _. split; [reflexivity|]. cbn [rd vertices_buffer_].
    split; [reflexivity|]. split; [reflexivity|]. split.
    + intros Hst _. cbn [psb_points psb_buffer]. split; [reflexivity|].
      unfold nothing_staged in Hst.
      destruct (vertices_buffer_ (rd w)) as [vb|]; cbn [default].
      * unfold id. rewrite Hst. reflexivity.
      * reflexivity.
    + intros index fade. unfold renderVertexHilight.
      destruct (map_vertex m index); [|discriminate].
      unfold bind, get_rd, modify_rd, emit. cbn [rd vertices_buffer_]. discriminate.
  - unfold vertices_stale in Hstale.
    apply orb_false_iff in Hstale as [Hstale _].
    apply orb_false_iff in Hstale as [Hset Hcount].
    apply bool_decide_eq_false in Hcount.
    destruct (vertices_buffer_ (rd w)) as [vb|] eqn:Hvb; [|discriminate].
    unfold bind, get_rd, modify_rd, emit, ret.
    cbn [rd backend vertices_buffer_ set_vertices_buffer_]. rewrite Hvb.
    cbn [rd backend vertices_buffer_ set_vertices_buffer_].
    eexists _, _, _. split; [reflexivity|]. cbn [rd vertices_buffer_].
    split; [reflexivity|]. split.
    + destruct (decide (nVertices m = n_vertices_ vc)) as [->|]; [reflexivity|].
      contradiction.
    + split; [discriminate|].
      intros index fade. unfold renderVertexHilight.
      destruct (map_vertex m index); [|discriminate].
      unfold bind, get_rd, modify_rd, emit. cbn [rd vertices_buffer_]. discriminate.
Qed.

Lemma renderVertices_prepares_hilight_witness :
  exists vc' w' vb,
    renderVertices default_env2 one_line_map unit_view 5 1 (mkVerticesCache 0 0)
      new_world = Ok vc' w'
    /\ vertices_buffer_ (rd w') = Some vb
    /\ psb_buffer vb = [mkPointSprite 0 0 1; mkPointSprite 64 0 1].
Proof.
  destruct (renderVertices_prepares_hilight default_env2 one_line_map unit_view 5 1
              (mkVerticesCache 0 0) new_world)
    as (vc' & w' & vb & Hrun & Hvb & _ & Hfresh & _).
  - discriminate.
  - reflexivity.
  - exists vc', w', vb. split; [exact Hrun|]. split; [exact Hvb|].
    destruct Hfresh as [_ ->]; reflexivity.
Defined.

End VerticesFacts.

(** ** Selection overlays of sectors: faults and the outline *)

Module SelectionFacts.
Import Hilight Selection Samples MoreSamples.

(** A sector of the list that [renderFlatOverlays] cannot get past: a null
    pointer, an index outside the visibility table, or a polygon to fill
    while there is no flats buffer. *)
Definition sector_faults (E : Env2) (ss : SectorSides) (r : MapRenderer2D)
    (sector : option nat) : Prop :=
  match sector with
  | None => True
  | Some s =>
      match vis_s_ r !! s with
      | None => True
      | Some v =>
          outside_screen v = false
          /\ sector_selected_fill E && hasPolygon ss s = true
          /\ flats_buffer_ r = None
      end
  end.

(** What one turn of the loop over the sectors does, for the renderer [r]: the
    lists it hands on and the backend calls it makes, or nothing when it
    faults. *)
Definition sector_step (E : Env2) (m : SLADEMap) (ss : SectorSides)
    (r : MapRenderer2D) (acc : list Z * list Rectf) (sector : option nat)
    : option ((list Z * list Rectf) * list GLCall) :=
  match sector with
  | None => None
  | Some s =>
      match vis_s_ r !! s with
      | None => None
      | Some v =>
          if outside_screen v then Some (acc, [])
          else if sector_selected_fill E && hasPolygon ss s then
            match flats_buffer_ r with
            | None => None
            | Some _ => Some (foldl (overlay_side m) acc (side_lines ss s),
                              [gl_draw_polygon (Z.of_nat s)])
            end
          else Some (foldl (overlay_side m) acc (side_lines ss s), [])
      end
  end.

Fixpoint sectors_run (E : Env2) (m : SLADEMap) (ss : SectorSides)
    (r : MapRenderer2D) (acc : list Z * list Rectf) (sectors : list (option nat))
    : option ((list Z * list Rectf) * list GLCall) :=
  match sectors with
  | [] => Some (acc, [])
  | x :: l =>
      match sector_step E m ss r acc x with
      | None => None
      | Some (acc', cs) =>
          match sectors_run E m ss r acc' l with
          | None => None
          | Some (acc'', cs') => Some (acc'', cs ++ cs')
          end
      end
  end.

Lemma world_eta (w : World) : mkWorld (rd w) (backend w) = w.
Proof. destruct w; reflexivity. Qed.

Lemma overlay_sector_step (E : Env2) (m : SLADEMap) (ss : SectorSides)
    (acc : list Z * list Rectf) (sector : option nat) (w : World) :
  overlay_sector E m ss acc sector w
  = match sector_step E m ss (rd w) acc sector with
    | Some (acc', cs) => Ok acc' (mkWorld (rd w) (backend w ++ cs))
    | None => Fault
    end.
Proof.
  unfold overlay_sector, sector_step.
  destruct sector as [s|]; [|reflexivity].
  unfold bind at 1. unfold get_rd at 1.
  destruct (vis_s_ (rd w) !! s) as [v|]; [|reflexivity].
  destruct (outside_screen v).
  - unfold ret. rewrite app_nil_r, world_eta. reflexivity.
  - destruct (sector_selected_fill E && hasPolygon ss s).
    + destruct (flats_buffer_ (rd w)); [|reflexivity].
      unfold bind, emit, ret. reflexivity.
    + unfold bind, ret. rewrite app_nil_r, world_eta. reflexivity.
Qed.

Lemma fold_each_sectors (E : Env2) (m : SLADEMap) (ss : SectorSides)
    (sectors : list (option nat)) : forall (acc : list Z * list Rectf) (w : World),
  fold_each sectors acc (overlay_sector E m ss) w
  = match sectors_run E m ss (rd w) acc sectors with
    | Some (acc', cs) => Ok acc' (mkWorld (rd w) (backend w ++ cs))
    | None => Fault
    end.
Proof.
  induction sectors as [|x l IH]; intros acc w; cbn [fold_each sectors_run].
  - unfold ret. rewrite app_nil_r, world_eta. reflexivity.
  - unfold bind. rewrite overlay_sector_step.
    destruct (sector_step E m ss (rd w) acc x) as [[acc' cs]|]; [|reflexivity].
    rewrite IH. cbn [rd backend].
    destruct (sectors_run E m ss (rd w) acc' l) as [[acc'' cs']|]; [|reflexivity].
    rewrite app_assoc. reflexivity.
Qed.

Lemma sector_step_None (E : Env2) (m : SLADEMap) (ss : SectorSides)
    (r : MapRenderer2D) (acc : list Z * list Rectf) (sector : option nat) :
  sector_step E m ss r acc sector = None <-> sector_faults E ss r sector.
Proof.
  unfold sector_step, sector_faults.
  destruct sector as [s|]; [|tauto].
  destruct (vis_s_ r !! s) as [v|]; [|tauto].
  destruct (outside_screen v); [intuition discriminate|].
  destruct (sector_selected_fill E && hasPolygon ss s); [|intuition discriminate].
  destruct (flats_buffer_ r); intuition discriminate.
Qed.

Lemma sectors_run_None (E : Env2) (m : SLADEMap) (ss : SectorSides)
    (r : MapRenderer2D) (sectors : list (option nat)) :
  forall acc : list Z * list Rectf,
  sectors_run E m ss r acc sectors = None
  <-> exists sector, sector ∈ sectors /\ sector_faults E ss r sector.
Proof.
  induction sectors as [|x l IH]; intros acc; cbn [sectors_run].
  - split; [discriminate|]. intros (sector & Hin & _). inversion Hin.
  - destruct (sector_step E m ss r acc x) as [[acc' cs]|] eqn:Hstep.
    + specialize (IH acc').
      destruct (sectors_run E m ss r acc' l) as [[acc'' cs']|].
      * split; [discriminate|].
        intros (sector & Hin & Hf). apply elem_of_cons in Hin as [-> | Hin].
        -- apply (sector_step_None E m ss r acc) in Hf. congruence.
        -- destruct IH as [_ IH]. discriminate IH. exists sector. auto.
      * split; [|reflexivity]. intros _.
        destruct IH as [IH _]. destruct (IH eq_refl) as (sector & Hin & Hf).
        exists sector. split; [right; exact Hin | exact Hf].
    + split; [|reflexivity]. intros _. exists x. split; [left|].
      apply (sector_step_None E m ss r acc), Hstep.
Qed.

Lemma renderFlatOverlays_run
    (E : Env2) (m : SLADEMap) (ss : SectorSides) (dc : Context)
    (sectors : list (option nat)) (w : World) :
  renderFlatOverlays E m ss dc sectors w
  = match sectors_run E m ss (rd w) (replicate (nLines m) 0, []) sectors with
    | Some (acc, cs) =>
        Ok tt (mkWorld (rd w)
                 (backend w ++ [gl_shader_colour (col_ampf (dc_colour dc) 1 1 1 c_0_2f);
                                gl_setup_shader (dc_view dc)]
                    ++ cs ++ [dc_drawLines dc acc.2]))
    | None => Fault
    end.
Proof.
  unfold renderFlatOverlays, bind, emit. cbn [rd backend].
  rewrite fold_each_sectors. cbn [rd backend].
  destruct (sectors_run E m ss (rd w) (replicate (nLines m) 0, []) sectors)
    as [[acc cs]|]; [|reflexivity].
  cbn [rd backend]. rewrite <- !app_assoc. reflexivity.
Qed.

(** X17. [renderFlatOverlays] faults exactly when the list holds a sector it
    cannot get past: a null pointer, a sector whose index lies outside the
    visibility table, or a sector on screen whose polygon is to be filled
    while the flats buffer was never built.  A sector classified as off
    screen is passed over before the fill is tried. *)
Theorem renderFlatOverlays_fault_iff
    (E : Env2) (m : SLADEMap) (ss : SectorSides) (dc : Context)
    (sectors : list (option nat)) (w : World) :
  renderFlatOverlays E m ss dc sectors w = Fault
  <-> exists sector, sector ∈ sectors /\ sector_faults E ss (rd w) sector.
Proof.
  rewrite <- (sectors_run_None E m ss (rd w) sectors (replicate (nLines m) 0, [])).
  rewrite renderFlatOverlays_run.
  destruct (sectors_run E m ss (rd w) (replicate (nLines m) 0, []) sectors)
    as [[acc cs]|]; split; (discriminate || reflexivity).
Qed.

(** The rectangle [renderFlatOverlays] draws for the line with index [l]. *)
Definition line_rect (m : SLADEMap) (l : nat) : option Rectf :=
  (fun line => rect_of (line_start m line) (line_end m line)) <$> lines m !! l.

(** The lists of the loop stand for the line indices [added]: the render list
    holds their rectangles in order, and the flags are set on them only. *)
Definition tracks (m : SLADEMap) (added : list nat) (acc : list Z * list Rectf)
    : Prop :=
  acc.2 = omap (line_rect m) added
  /\ NoDup added
  /\ (forall l, l ∈ added -> is_Some (lines m !! l))
  /\ (forall l, is_Some (lines m !! l) ->
        acc.1 !! l = Some (if bool_decide (l ∈ added) then 1 else 0)).

Lemma tracks_initial (m : SLADEMap) : tracks m [] (replicate (nLines m) 0, []).
Proof.
  split; [reflexivity|]. split; [constructor|]. split.
  - intros l Hl. inversion Hl.
  - intros l [line Hl]. cbn [fst].
    rewrite bool_decide_eq_false_2 by (intros H; inversion H).
    apply lookup_replicate_2. apply lookup_lt_Some in Hl. exact Hl.
Qed.

Lemma overlay_side_tracks (m : SLADEMap) (added : list nat)
    (acc : list Z * list Rectf) (l : nat) :
  tracks m added acc ->
  exists added',
    tracks m added' (overlay_side m acc l)
    /\ forall k, k ∈ added' <-> k ∈ added \/ (k = l /\ is_Some (lines m !! l)).
Proof.
  intros (Hrects & Hnodup & Hvalid & Hflags).
  destruct acc as [lines_added render_lines]. cbn [fst snd] in *.
  unfold overlay_side.
  destruct (lines m !! l) as [line|] eqn:Hl.
  - rewrite (Hflags l) by (rewrite Hl; eauto). cbn [default]. unfold id.
    case_bool_decide as Hin.
    + exists added. split.
      * change (0 <? 1) with true. cbn iota.
        split; [exact Hrects|]. split; [exact Hnodup|]. split; assumption.
      * intros k. split; [auto|]. intros [H | [-> _]]; assumption.
    + exists (added ++ [l]). change (0 <? 0) with false. cbn iota. split.
      * split; [|split; [|split]]; cbn [fst snd].
        -- rewrite omap_app, Hrects. simpl. unfold line_rect.
           rewrite Hl. reflexivity.
        -- apply NoDup_app. split; [exact Hnodup|]. split.
           ++ intros k Hk Hk'. apply list_elem_of_singleton in Hk'. congruence.
           ++ apply NoDup_singleton.
        -- intros k Hk. apply elem_of_app in Hk as [Hk | Hk]; [auto|].
           apply list_elem_of_singleton in Hk as ->. rewrite Hl. eauto.
        -- intros k Hk. destruct (decide (k = l)) as [-> | Hne].
           ++ rewrite list_lookup_insert_eq.
              ** rewrite bool_decide_eq_true_2; [reflexivity|].
                 apply elem_of_app. right. left.
              ** specialize (Hflags l Hk). apply lookup_lt_Some in Hflags.
                 exact Hflags.
           ++ rewrite list_lookup_insert_ne by congruence.
              rewrite (Hflags k Hk).
              rewrite (bool_decide_ext (k ∈ added ++ [l]) (k ∈ added));
                [reflexivity|].
              rewrite elem_of_app, list_elem_of_singleton. tauto.
      * intros k. rewrite elem_of_app, list_elem_of_singleton.
        split; [intros [H | ->]; [left; exact H | right; eauto]
               |intros [H | [-> _]]; auto].
  - exists added. split.
    + split; [exact Hrects|]. split; [exact Hnodup|]. split; assumption.
    + intros k. split; [auto|]. intros [H | [_ [? ?]]]; [exact H | discriminate].
Qed.

Lemma overlay_sides_tracks (m : SLADEMap) (ls : list nat) :
  forall (added : list nat) (acc : list Z * list Rectf),
  tracks m added acc ->
  exists added',
    tracks m added' (foldl (overlay_side m) acc ls)
    /\ forall k, k ∈ added' <-> k ∈ added \/ (k ∈ ls /\ is_Some (lines m !! k)).
Proof.
  induction ls as [|l ls IH]; intros added acc Ht; cbn [foldl].
  - exists added. split; [exact Ht|].
    intros k. split; [auto|]. intros [H | [H _]]; [exact H | inversion H].
  - destruct (overlay_side_tracks m added acc l Ht) as (added1 & Ht1 & Hin1).
    destruct (IH added1 _ Ht1) as (added2 & Ht2 & Hin2).
    exists added2. split; [exact Ht2|].
    intros k. rewrite Hin2, Hin1, elem_of_cons. split.
    + intros [[H | [-> H]] | [H1 H2]]; auto.
    + intros [H | [[-> | H1] H2]]; auto.
Qed.

(** Line [k] belongs to a sector of the list that is not off screen. *)
Definition outlined (ss : SectorSides) (r : MapRenderer2D)
    (sectors : list (option nat)) (k : nat) : Prop :=
  exists s v, Some s ∈ sectors /\ vis_s_ r !! s = Some v
              /\ outside_screen v = false /\ k ∈ side_lines ss s.

Lemma sectors_run_tracks (E : Env2) (m : SLADEMap) (ss : SectorSides)
    (r : MapRenderer2D) (sectors : list (option nat)) :
  forall (added : list nat) (acc acc' : list Z * list Rectf) (cs : list GLCall),
  tracks m added acc ->
  sectors_run E m ss r acc sectors = Some (acc', cs) ->
  exists added',
    tracks m added' acc'
    /\ forall k, k ∈ added'
         <-> k ∈ added \/ (is_Some (lines m !! k) /\ outlined ss r sectors k).
Proof.
  induction sectors as [|x l IH]; intros added acc acc' cs Ht Hrun;
    cbn [sectors_run] in Hrun.
  - injection Hrun as <- <-. exists added. split; [exact Ht|].
    intros k. split; [auto|].
    intros [H | [_ (s & v & Hin & _)]]; [exact H | inversion Hin].
  - destruct (sector_step E m ss r acc x) as [[acc1 cs1]|] eqn:Hstep; [|discriminate].
    destruct (sectors_run E m ss r acc1 l) as [[acc2 cs2]|] eqn:Hrest; [|discriminate].
    injection Hrun as <- <-.
    assert (exists added1, tracks m added1 acc1
              /\ forall k, k ∈ added1
                   <-> k ∈ added \/ (is_Some (lines m !! k) /\ outlined ss r [x] k))
      as (added1 & Ht1 & Hin1).
    { unfold sector_step in Hstep.
      destruct x as [s|]; [|discriminate].
      destruct (vis_s_ r !! s) as [v|] eqn:Hv; [|discriminate].
      destruct (outside_screen v) eqn:Hout.
      - injection Hstep as <- <-. exists added. split; [exact Ht|].
        intros k. split; [auto|].
        intros [H | [_ (s' & v' & Hin & Hv' & Hout' & _)]]; [exact H|].
        apply list_elem_of_singleton in Hin. injection Hin as ->. congruence.
      - assert (acc1 = foldl (overlay_side m) acc (side_lines ss s)) as ->.
        { destruct (sector_selected_fill E && hasPolygon ss s);
            [destruct (flats_buffer_ r); [|discriminate]|];
            injection Hstep as <- <-; reflexivity. }
        destruct (overlay_sides_tracks m (side_lines ss s) added acc Ht)
          as (added1 & Ht1 & Hin1).
        exists added1. split; [exact Ht1|].
        intros k. rewrite Hin1. apply or_iff_compat_l. split.
        + intros [Hk Hsome]. split; [exact Hsome|].
          exists s, v. split; [left|]. auto.
        + intros [Hsome (s' & v' & Hin & Hv' & Hout' & Hk)].
          apply list_elem_of_singleton in Hin. injection Hin as ->. auto. }
    destruct (IH added1 acc1 acc2 cs2 Ht1 Hrest) as (added2 & Ht2 & Hin2).
    exists added2. split; [exact Ht2|].
    intros k. rewrite Hin2, Hin1. unfold outlined. split.
    + intros [[H | [Hsome (s & v & Hin & H)]] | [Hsome (s & v & Hin & H)]].
      * left. exact H.
      * right. split; [exact Hsome|]. exists s, v.
        apply list_elem_of_singleton in Hin as <-. split; [left | exact H].
      * right. split; [exact Hsome|]. exists s, v. split; [right; exact Hin | exact H].
    + intros [H | [Hsome (s & v & Hin & H)]]; [left; left; exact H|].
      apply elem_of_cons in Hin as [<- | Hin].
      * left. right. split; [exact Hsome|]. exists s, v. split; [left | exact H].
      * right. split; [exact Hsome|]. exists s, v. auto.
Qed.

(** X18. When no sector of the list makes it fault, [renderFlatOverlays]
    completes, leaves the renderer as it was, and ends with one draw of the
    outline: every line that is a side of a sector of the list that is not
    off screen is in it exactly once, however many of the sectors share it,
    and no other line is. *)
Theorem renderFlatOverlays_outline_once
    (E : Env2) (m : SLADEMap) (ss : SectorSides) (dc : Context)
    (sectors : list (option nat)) (w : World) :
  (forall sector, sector ∈ sectors -> ~ sector_faults E ss (rd w) sector) ->
  exists w' added,
    renderFlatOverlays E m ss dc sectors w = Ok tt w'
    /\ rd w' = rd w
    /\ last (backend w') = Some (dc_drawLines dc (omap (line_rect m) added))
    /\ NoDup added
    /\ forall k, k ∈ added
         <-> is_Some (lines m !! k) /\ outlined ss (rd w) sectors k.
Proof.
  intros Hok. rewrite renderFlatOverlays_run.
  destruct (sectors_run E m ss (rd w) (replicate (nLines m) 0, []) sectors)
    as [[acc cs]|] eqn:Hrun.
  - destruct (sectors_run_tracks E m ss (rd w) sectors [] _ acc cs
                (tracks_initial m) Hrun) as (added & (Hrects & Hnodup & _) & Hin).
    eexists _, added. split; [reflexivity|]. cbn [rd backend].
    split; [reflexivity|]. split; [|split; [exact Hnodup|]].
    + rewrite !app_assoc, last_snoc, Hrects. reflexivity.
    + intros k. rewrite Hin. split; [|auto].
      intros [H | H]; [inversion H | exact H].
  - apply sectors_run_None in Hrun as (sector & Hin & Hf).
    exfalso. exact (Hok sector Hin Hf).
Qed.

Definition two_rooms : SectorSides :=
  mkSectorSides (fun _ => [0%nat; 1%nat]) (fun _ => false).

(** A renderer whose visibility table knows two sectors, one of them small. *)
Definition seen_world : World :=
  mkWorld (set_vis_s_ [VIS_NONE; VIS_SMALL] MapRenderer2D_new) [].

Lemma renderFlatOverlays_outline_once_witness :
  exists w',
    renderFlatOverlays default_env2 MovingFacts.two_line_map
      two_rooms plain_context [Some 0%nat; Some 1%nat] seen_world = Ok tt w'
    /\ last (backend w')
       = Some (dc_drawLines plain_context [mkRectf 0 0 64 0; mkRectf 64 0 128 0]).
Proof.
  destruct (renderFlatOverlays_outline_once default_env2
              MovingFacts.two_line_map two_rooms plain_context
              [Some 0%nat; Some 1%nat] seen_world)
    as (w' & added & Hrun & _).
  - intros sector Hin.
    apply elem_of_cons in Hin as [-> | Hin];
      [|apply list_elem_of_singleton in Hin as ->];
      intros (_ & Hfill & _); discriminate.
  - exists w'. split; [exact Hrun|].
    vm_compute in Hrun. injection Hrun as <-. reflexivity.
Defined.

(** X19. [renderFlatSelection] faults as soon as one item of the selection
    does not resolve to a sector of the map, for instance a sector item whose
    index is no longer in range: the null pointer is put in the list and
    dereferenced by [renderFlatOverlays]. *)
Theorem renderFlatSelection_stale_item_faults
    (E : Env2) (m : SLADEMap) (ss : SectorSides) (dc : Context)
    (selection : list Item) (fade : float) (w : World) (item : Item) :
  item ∈ selection -> asSector item m = None ->
  renderFlatSelection E m ss dc selection fade w = Fault.
Proof.
  intros Hin Has. unfold renderFlatSelection.
  rewrite bool_decide_eq_false_2 by (intros ->; inversion Hin).
  unfold bind. rewrite renderFlatOverlays_run.
  match goal with
  | |- context [sectors_run ?E ?m ?ss ?r ?acc ?l] =>
      destruct (sectors_run_None E m ss r l acc) as [_ Hnone]
  end.
  rewrite Hnone; [reflexivity|].
  exists None. split; [|exact I].
  apply list_elem_of_fmap. exists item. split; [|exact Hin].
  rewrite Has. reflexivity.
Qed.

Lemma renderFlatSelection_stale_item_faults_witness :
  renderFlatSelection default_env2 one_line_map two_rooms
    plain_context [mkItem 0 IT_Sector] 1 new_world = Fault.
Proof.
  apply (renderFlatSelection_stale_item_faults default_env2
           one_line_map two_rooms plain_context [mkItem 0 IT_Sector] 1 new_world
           (mkItem 0 IT_Sector)).
  - left.
  - reflexivity.
Defined.

(** Whether an item names a line, or a vertex, of the map. *)
Definition names_line (m : SLADEMap) (item : Item) : bool :=
  match item_type item with
  | IT_Line => (0 <=? item_index item) && (item_index item <? Z.of_nat (nLines m))
  | _ => false
  end.

Definition names_vertex (m : SLADEMap) (item : Item) : bool :=
  match item_type item with
  | IT_Vertex =>
      (0 <=? item_index item) && (item_index item <? Z.of_nat (nVertices m))
  | _ => false
  end.

Lemma at_index_is_Some {A} (l : list A) (index : Z) :
  is_Some (at_index l index)
  <-> (0 <=? index) && (index <? Z.of_nat (length l)) = true.
Proof.
  unfold at_index. rewrite andb_true_iff, Z.leb_le, Z.ltb_lt.
  destruct (Z.ltb_spec index 0) as [Hneg | Hpos].
  - split; [intros [? H]; discriminate | lia].
  - rewrite lookup_lt_is_Some. lia.
Qed.

Lemma asLine_names_line (m : SLADEMap) (item : Item) :
  is_Some (asLine item m) <-> names_line m item = true.
Proof.
  unfold asLine, names_line, map_line, nLines.
  destruct (item_type item); try (split; [intros [? H] |]; discriminate).
  rewrite <- at_index_is_Some.
  destruct (at_index (lines m) (item_index item)); split; eauto;
    intros [? H]; discriminate.
Qed.

Lemma asVertex_names_vertex (m : SLADEMap) (item : Item) :
  is_Some (asVertex item m) <-> names_vertex m item = true.
Proof.
  unfold asVertex, names_vertex, map_vertex, nVertices.
  destruct (item_type item); try (split; [intros [? H] |]; discriminate).
  rewrite <- at_index_is_Some.
  destruct (at_index (vertices m) (item_index item)); split; eauto;
    intros [? H]; discriminate.
Qed.

Lemma selected_lines_length (m : SLADEMap) (selection : list Item) :
  length (selected_lines m selection)
  = (2 * length (filter (fun item => names_line m item = true) selection))%nat.
Proof.
  unfold selected_lines.
  induction selection as [|item selection IH]; [reflexivity|].
  cbn [flat_map]. rewrite length_app, IH.
  destruct (names_line m item) eqn:Hn.
  - rewrite filter_cons_True by exact Hn.
    apply asLine_names_line in Hn as [[a line] ->]. cbn [length]. lia.
  - rewrite filter_cons_False by congruence.
    destruct (asLine item m) as [[a line]|] eqn:Has; [|reflexivity].
    assert (names_line m item = true) by (apply asLine_names_line; eauto).
    congruence.
Qed.

Lemma selected_points_length (m : SLADEMap) (selection : list Item) :
  length (selected_points m selection)
  = length (filter (fun item => names_vertex m item = true) selection).
Proof.
  unfold selected_points.
  induction selection as [|item selection IH]; [reflexivity|].
  change (omap ?f (item :: ?l))
    with (match f item with Some y => y :: omap f l | None => omap f l end).
  cbv beta. destruct (names_vertex m item) eqn:Hn.
  - rewrite filter_cons_True by exact Hn.
    apply asVertex_names_vertex in Hn as [[a v] ->]. cbn [length]. rewrite IH.
    reflexivity.
  - rewrite filter_cons_False by congruence.
    destruct (asVertex item m) as [[a v]|] eqn:Has; [|exact IH].
    assert (names_vertex m item = true) by (apply asVertex_names_vertex; eauto).
    congruence.
Qed.

(** X20. The selection overlays of lines, vertices and things pass over the
    items that do not name a feature of the map, and never fault.  For a
    selection that is not empty, the line overlay is one draw of two
    rectangles (the line and its direction tab) per item that names a line,
    the vertex overlay is one draw of one point per item that names a vertex,
    and neither touches the renderer.  For an empty selection the four
    selection overlays do nothing at all. *)
Theorem selection_overlays_skip_stale_items
    (E : Env2) (m : SLADEMap) (ss : SectorSides) (view_ : View) (dc : Context)
    (selection : list Item) (fade : float) (w : World) :
  (selection = [] ->
   renderLineSelection E m dc selection fade w = Ok dc w
   /\ renderVertexSelection E m view_ dc selection fade w = Ok dc w
   /\ renderThingSelection E m view_ dc selection fade w = Ok dc w
   /\ renderFlatSelection E m ss dc selection fade w = Ok dc w)
  /\ (selection <> [] ->
      (exists dc' rects,
         renderLineSelection E m dc selection fade w
         = Ok dc' (mkWorld (rd w) (backend w ++ [dc_drawLines dc' rects]))
         /\ length rects
            = (2 * length (filter (fun item => names_line m item = true)
                             selection))%nat)
      /\ (exists dc' points,
            renderVertexSelection E m view_ dc selection fade w
            = Ok dc' (mkWorld (rd w) (backend w ++ [dc_drawPointSprites dc' points]))
            /\ length points
               = length (filter (fun item => names_vertex m item = true) selection))
      /\ (exists dc' w',
            renderThingSelection E m view_ dc selection fade w = Ok dc' w')).
Proof.
  unfold renderLineSelection, renderVertexSelection, renderThingSelection,
    renderFlatSelection.
  split.
  - intros ->. repeat split.
  - intros Hne. rewrite !bool_decide_eq_false_2 by exact Hne.
    split; [|split].
    + eexists _, _. split; [reflexivity|]. apply selected_lines_length.
    + eexists _, _. split; [reflexivity|]. apply selected_points_length.
    + apply HilightMore.renderThingOverlays_completes.
Qed.

Lemma selection_overlays_skip_stale_items_witness :
  exists dc' rects,
    renderLineSelection default_env2 one_line_map plain_context
      [mkItem 0 IT_Line; mkItem 7 IT_Line; mkItem 0 IT_Vertex] 1 new_world
    = Ok dc' (mkWorld MapRenderer2D_new [dc_drawLines dc' rects])
    /\ length rects = 2%nat.
Proof.
  destruct (selection_overlays_skip_stale_items default_env2 one_line_map
              two_rooms unit_view plain_context
              [mkItem 0 IT_Line; mkItem 7 IT_Line; mkItem 0 IT_Vertex] 1 new_world)
    as [_ Hsome].
  destruct Hsome as [(dc' & rects & Hrun & Hlen) _]; [discriminate|].
  exists dc', rects. split; [exact Hrun | exact Hlen].
Defined.

End SelectionFacts.

(** ** Moving lines and sectors *)

Module MovingMoreFacts.
Import Lines Moving MovingMore Samples BufferFacts MovingFacts.

(** Whether vertex [v] is an end of a line the selection resolves to. *)
Definition end_selectedb (m : SLADEMap) (items : list Item) (v : nat) : bool :=
  existsb (fun item => match asLine item m with
                       | Some (_, line) =>
                           bool_decide (l_v1 line = v) || bool_decide (l_v2 line = v)
                       | None => false
                       end) items.

(** What is drawn for line [a] while the lines of [items] are moved: nothing
    when neither end belongs to a moved line, else the line with the ends
    that belong to one moved by the offset. *)
Definition carried_line (m : SLADEMap) (items : list Item) (move_vec : Vec2d)
    (a : nat) : list LineEntry :=
  match lines m !! a with
  | None => []
  | Some line =>
      let sel1 := end_selectedb m items (l_v1 line) in
      let sel2 := end_selectedb m items (l_v2 line) in
      if sel1 || sel2 then
        let p1 := moved_end sel1 (line_start m line) move_vec in
        let p2 := moved_end sel2 (line_end m line) move_vec in
        [mkLineEntry p1.1 p1.2 p2.1 p2.2 (lineColour (Some line) true) c_1_0f]
      else []
  end.

(** A line moved as a whole. *)
Definition translated (m : SLADEMap) (line : MapLine) (move_vec : Vec2d)
    : LineEntry :=
  let s := line_start m line in
  let e := line_end m line in
  mkLineEntry (f32 (vx s + vx move_vec)) (f32 (vy s + vy move_vec))
    (f32 (vx e + vx move_vec)) (f32 (vy e + vy move_vec))
    (lineColour (Some line) true) c_1_0f.

(** The ends of every line are vertices of the map. *)
Definition line_ends_in_map (m : SLADEMap) : Prop :=
  forall l line, lines m !! l = Some line ->
    is_Some (vertices m !! l_v1 line) /\ is_Some (vertices m !! l_v2 line).

Section MarkingLines.
Variable m : SLADEMap.

(** Line [l] has vertex [v] at the end [proj] and is among the lines
    connected to [v]. *)
Definition reached (proj : MapLine -> nat) (v l : nat) : Prop :=
  exists vert l0, vertices m !! v = Some vert
                  /\ l0 ∈ connected_lines_ vert /\ hit m proj v l0 l.

Lemma mark_vertex_marked (v : nat) (Q1 Q2 : nat -> Prop) (lines_drawn : list Z) :
  marked m Q1 Q2 lines_drawn ->
  marked m (fun l => Q1 l \/ reached l_v1 v l) (fun l => Q2 l \/ reached l_v2 v l)
    (mark_vertex m v lines_drawn).
Proof.
  intros Hm. unfold mark_vertex, reached.
  destruct (vertices m !! v) as [vert|].
  - eapply marked_iff; [| |apply mark_lines_marked, Hm]; intros l; simpl;
      apply or_iff_compat_l;
      (split; [intros (l0 & Hin & H); exists vert, l0; auto
              |intros (vert' & l0 & [= <-] & Hin & H); eauto]).
  - eapply marked_iff; [| |exact Hm]; intros l; simpl;
      (split; [auto | intros [H | (? & ? & ? & _)]; [exact H | discriminate]]).
Qed.

(** Line [l] is reached at the end [proj] from an end of a line that an item
    resolves to. *)
Definition found_line (proj : MapLine -> nat) (items : list Item) (l : nat) : Prop :=
  exists item a line v,
    item ∈ items /\ asLine item m = Some (a, line)
    /\ (v = l_v1 line \/ v = l_v2 line) /\ reached proj v l.

Lemma mark_line_items_marked (items : list Item) : forall Q1 Q2 lines_drawn,
  marked m Q1 Q2 lines_drawn ->
  marked m (fun l => Q1 l \/ found_line l_v1 items l)
    (fun l => Q2 l \/ found_line l_v2 items l)
    (foldl (mark_line_item m) lines_drawn items).
Proof.
  induction items as [|item items IH]; intros Q1 Q2 lines_drawn Hm; cbn [foldl].
  - eapply marked_iff; [| |exact Hm]; intros l;
      (split; [auto | intros [H | (it & ? & ? & ? & Hin & _)];
                      [exact H | inversion Hin]]).
  - unfold mark_line_item at 2.
    destruct (asLine item m) as [[a line]|] eqn:Has.
    + eapply marked_iff;
        [| |apply IH, mark_vertex_marked, mark_vertex_marked, Hm];
        intros l; cbv beta; rewrite !Logic.or_assoc; apply or_iff_compat_l;
        unfold found_line;
        (split;
         [intros [H | [H | (it & a' & line' & v & Hin & Has' & Hv & H)]];
          [exists item, a, line, (l_v1 line); split; [left|]; auto
          |exists item, a, line, (l_v2 line); split; [left|]; auto
          |exists it, a', line', v; split; [right; exact Hin|]; auto]
         |intros (it & a' & line' & v & Hin & Has' & Hv & H);
          apply elem_of_cons in Hin as [-> | Hin];
          [rewrite Has in Has'; injection Has' as <- <-;
           destruct Hv as [-> | ->]; auto
          |right; right; exists it, a', line', v; auto]]).
    + eapply marked_iff; [| |apply IH, Hm]; intros l; cbv beta;
        apply or_iff_compat_l; unfold found_line;
        (split;
         [intros (it & a' & line' & v & Hin & H);
          exists it, a', line', v; split; [right; exact Hin | exact H]
         |intros (it & a' & line' & v & Hin & Has' & H);
          apply elem_of_cons in Hin as [-> | Hin]; [congruence|];
          exists it, a', line', v; auto]).
Qed.
End MarkingLines.

Lemma lines_drawn_of_lines_marked (m : SLADEMap) (items : list Item) :
  marked m (found_line m l_v1 items) (found_line m l_v2 items)
    (lines_drawn_of_lines m items).
Proof.
  unfold lines_drawn_of_lines.
  eapply marked_iff; [| |apply mark_line_items_marked, marked_initial];
    intros l; simpl; tauto.
Qed.

Lemma asLine_Some (m : SLADEMap) (item : Item) (a : nat) (line : MapLine) :
  asLine item m = Some (a, line) -> lines m !! a = Some line.
Proof.
  unfold asLine, map_line, at_index.
  destruct (item_type item); try discriminate.
  destruct (item_index item <? 0); [discriminate|].
  destruct (lines m !! Z.to_nat (item_index item)) eqn:Hl; [|discriminate].
  intros [= <- <-]. exact Hl.
Qed.

Lemma end_selectedb_true (m : SLADEMap) (items : list Item) (v : nat) :
  end_selectedb m items v = true
  <-> exists item a line, item ∈ items /\ asLine item m = Some (a, line)
                          /\ (v = l_v1 line \/ v = l_v2 line).
Proof.
  unfold end_selectedb. rewrite existsb_exists. split.
  - intros (item & Hin & H). apply list_elem_of_In in Hin.
    destruct (asLine item m) as [[a line]|] eqn:Has; [|discriminate].
    exists item, a, line. split; [exact Hin|]. split; [exact Has|].
    apply orb_true_iff in H as [H | H]; apply bool_decide_eq_true in H; auto.
  - intros (item & a & line & Hin & Has & Hv). exists item. split.
    + apply list_elem_of_In, Hin.
    + rewrite Has. apply orb_true_iff.
      destruct Hv as [-> | ->]; [left | right]; apply bool_decide_eq_true; reflexivity.
Qed.

Lemma found_line_selected (m : SLADEMap) (proj : MapLine -> nat) (items : list Item)
    (l : nat) (line : MapLine) :
  connected_lines_complete m -> line_ends_in_map m ->
  (proj = l_v1 \/ proj = l_v2) ->
  lines m !! l = Some line ->
  found_line m proj items l <-> end_selectedb m items (proj line) = true.
Proof.
  intros Hwf Hends Hproj Hl. rewrite end_selectedb_true.
  unfold found_line, reached, hit. split.
  - intros (item & a & line0 & v & Hin & Has & Hv
            & vert & l0 & _ & _ & _ & line' & Hl' & Hp).
    exists item, a, line0. split; [exact Hin|]. split; [exact Has|]. congruence.
  - intros (item & a & line0 & Hin & Has & Hv).
    assert (is_Some (vertices m !! proj line)) as [vert Hvert].
    { destruct (Hends l line Hl) as [H1 H2]. destruct Hproj as [-> | ->]; assumption. }
    exists item, a, line0, (proj line). split; [exact Hin|]. split; [exact Has|].
    split; [exact Hv|]. exists vert, l. split; [exact Hvert|]. split.
    + eapply Hwf; [exact Hvert | exact Hl |]. destruct Hproj as [-> | ->]; auto.
    + split; [reflexivity|]. exists line. auto.
Qed.

Lemma moving_lines_of_lines_carried (m : SLADEMap) (items : list Item)
    (move_vec : Vec2d) :
  connected_lines_complete m -> line_ends_in_map m ->
  moving_lines_of_lines m items move_vec
  = flat_map (carried_line m items move_vec) (seq 0 (nLines m)).
Proof.
  intros Hwf Hends. unfold moving_lines_of_lines.
  induction (seq 0 (nLines m)) as [|a l IH]; simpl; [reflexivity|].
  rewrite IH. f_equal.
  unfold moving_line, carried_line.
  destruct (lines m !! a) as [line|] eqn:Hl; [|reflexivity].
  destruct (lines_drawn_of_lines_marked m items a line Hl) as (b1 & b2 & -> & Hb1 & Hb2).
  rewrite (found_line_selected m l_v1 items a line Hwf Hends (or_introl eq_refl) Hl) in Hb1.
  rewrite (found_line_selected m l_v2 items a line Hwf Hends (or_intror eq_refl) Hl) in Hb2.
  assert (end_selectedb m items (l_v1 line) = b1) as ->
    by (destruct b1, (end_selectedb m items (l_v1 line)); intuition congruence).
  assert (end_selectedb m items (l_v2 line) = b2) as ->
    by (destruct b2, (end_selectedb m items (l_v2 line)); intuition congruence).
  unfold moved_end. destruct b1, b2; reflexivity.
Qed.

(** A line the selection resolves to is drawn moved as a whole. *)
Lemma selected_line_carried (m : SLADEMap) (items : list Item) (move_vec : Vec2d)
    (item : Item) (a : nat) (line : MapLine) :
  item ∈ items -> asLine item m = Some (a, line) ->
  translated m line move_vec
  ∈ flat_map (carried_line m items move_vec) (seq 0 (nLines m)).
Proof.
  intros Hin Has. pose proof (asLine_Some m item a line Has) as Hl.
  apply (elem_of_flat_map_seq _ _ a); [apply lookup_lt_Some in Hl; exact Hl|].
  unfold carried_line. rewrite Hl.
  assert (end_selectedb m items (l_v1 line) = true) as ->
    by (apply end_selectedb_true; exists item, a, line; auto).
  assert (end_selectedb m items (l_v2 line) = true) as ->
    by (apply end_selectedb_true; exists item, a, line; auto).
  left.
Qed.

(** What a run of [renderMovingLines] leaves: as for
    [renderMovingVertices], with the overlay of the moved lines last. *)
Lemma renderMovingLines_run
    (E : Env) (m : SLADEMap) (dc : Context) (items : list Item)
    (move_vec : Vec2d) (w : World) :
  let lb := foldl (fun b e => lb_add2d e b) (temp_lines_buffer_ (rd w))
              (moving_lines_of_lines m items move_vec) in
  let lb' := lb_setWidthMult (line_width (cv E)) (lb_push (gl_context E) lb) in
  exists dc',
    renderMovingLines E m dc items move_vec w
    = Ok dc'
        (mkWorld (set_temp_lines_buffer_ lb' (rd w))
           (backend w ++ moving_calls (gl_context E) (lb_lines lb) lb'
              ++ [dc_drawLines dc' (line_overlays m items move_vec)])).
Proof.
  eexists. unfold renderMovingLines, moving_calls, bind, get_rd, modify_rd.
  cbn [rd]. rewrite LinesFacts.push_lines_run. cbn [rd backend].
  unfold emit at 1. cbn [rd backend]. rewrite LinesFacts.draw_lines_run.
  cbn [rd backend]. unfold emit, ret. cbn [rd backend].
  rewrite <- !app_assoc. reflexivity.
Qed.

(** The temporary lines buffer and the backend after [renderMovingLines], with
    and without a GL context. *)
Lemma renderMovingLines_buffer
    (E : Env) (m : SLADEMap) (dc : Context) (items : list Item)
    (move_vec : Vec2d) (w : World) :
  connected_lines_complete m -> line_ends_in_map m ->
  let added := flat_map (carried_line m items move_vec) (seq 0 (nLines m)) in
  let staged := lb_lines (temp_lines_buffer_ (rd w)) ++ added in
  exists dc' w',
    renderMovingLines E m dc items move_vec w = Ok dc' w'
    /\ (let calls :=
          moving_calls (gl_context E) staged (temp_lines_buffer_ (rd w')) in
        backend w'
        = backend w ++ calls ++ [dc_drawLines dc' (line_overlays m items move_vec)]
        /\ (gl_context E = true ->
            lb_buffer (temp_lines_buffer_ (rd w')) = staged
            /\ lb_lines (temp_lines_buffer_ (rd w')) = []
            /\ gl_upload_lines buf_temp_lines staged ∈ calls
            /\ (staged <> [] ->
                gl_draw_lines (temp_lines_buffer_ (rd w')) None ∈ calls)
            /\ (staged = [] -> forall b c, gl_draw_lines b c ∉ calls))
        /\ (gl_context E = false ->
            lb_lines (temp_lines_buffer_ (rd w')) = staged
            /\ lb_buffer (temp_lines_buffer_ (rd w'))
               = lb_buffer (temp_lines_buffer_ (rd w))
            /\ calls = [gl_setBlend Blend_Normal])).
Proof.
  intros Hwf Hends. cbv zeta.
  destruct (renderMovingLines_run E m dc items move_vec w) as (dc' & Hrun).
  cbv zeta in Hrun.
  pose proof (moving_calls_spec (gl_context E) (line_width (cv E))
                (foldl (fun b e => lb_add2d e b) (temp_lines_buffer_ (rd w))
                   (moving_lines_of_lines m items move_vec))) as [Htrue Hfalse].
  cbv zeta in Htrue, Hfalse.
  set (lb := foldl (fun b e => lb_add2d e b) (temp_lines_buffer_ (rd w))
               (moving_lines_of_lines m items move_vec)) in *.
  assert (lb_lines lb
          = lb_lines (temp_lines_buffer_ (rd w))
            ++ flat_map (carried_line m items move_vec) (seq 0 (nLines m)))
    as Hstaged
    by (subst lb; rewrite lb_lines_fold_add, moving_lines_of_lines_carried
          by assumption; reflexivity).
  assert (lb_buffer lb = lb_buffer (temp_lines_buffer_ (rd w))) as Hkept
    by (subst lb; apply lb_buffer_fold_add).
  rewrite Hstaged in Htrue, Hfalse. rewrite Hkept in Hfalse.
  eexists _, _. split; [exact Hrun|].
  cbn [rd backend temp_lines_buffer_ set_temp_lines_buffer_].
  rewrite Hstaged.
  split; [reflexivity|split; [exact Htrue|exact Hfalse]].
Qed.

(** X21. [renderMovingLines] adds to the temporary lines buffer, behind what
    was staged before, one segment for every line that shares an end with a
    line the selection resolves to, with exactly the shared ends moved by the
    offset: a selected line is added moved as a whole, and a line neither end
    of which belongs to a selected line adds nothing.  With a GL context the
    staged segments are uploaded and, unless there is none, drawn; without one
    they stay staged and nothing is uploaded or drawn.  The last backend call
    is the overlay of the lines the items resolve to. *)
Theorem renderMovingLines_carries_selected
    (E : Env) (m : SLADEMap) (dc : Context) (items : list Item)
    (move_vec : Vec2d) (w : World) :
  connected_lines_complete m -> line_ends_in_map m ->
  let added := flat_map (carried_line m items move_vec) (seq 0 (nLines m)) in
  let staged := lb_lines (temp_lines_buffer_ (rd w)) ++ added in
  exists dc' w',
    renderMovingLines E m dc items move_vec w = Ok dc' w'
    /\ (let calls :=
          moving_calls (gl_context E) staged (temp_lines_buffer_ (rd w')) in
        backend w'
        = backend w ++ calls ++ [dc_drawLines dc' (line_overlays m items move_vec)]
        /\ (gl_context E = true ->
            lb_buffer (temp_lines_buffer_ (rd w')) = staged
            /\ lb_lines (temp_lines_buffer_ (rd w')) = []
            /\ gl_upload_lines buf_temp_lines staged ∈ calls
            /\ (staged <> [] ->
                gl_draw_lines (temp_lines_buffer_ (rd w')) None ∈ calls)
            /\ (staged = [] -> forall b c, gl_draw_lines b c ∉ calls))
        /\ (gl_context E = false ->
            lb_lines (temp_lines_buffer_ (rd w')) = staged
            /\ lb_buffer (temp_lines_buffer_ (rd w'))
               = lb_buffer (temp_lines_buffer_ (rd w))
            /\ calls = [gl_setBlend Blend_Normal]))
    /\ (forall item a line,
          item ∈ items -> asLine item m = Some (a, line) ->
          translated m line move_vec ∈ added)
    /\ (forall a line,
          lines m !! a = Some line ->
          end_selectedb m items (l_v1 line) = false ->
          end_selectedb m items (l_v2 line) = false ->
          carried_line m items move_vec a = []).
Proof.
  intros Hwf Hends. cbv zeta.
  destruct (renderMovingLines_buffer E m dc items move_vec w Hwf Hends)
    as (dc' & w' & Hrun & Hcalls).
  exists dc', w'. split; [exact Hrun|]. split; [exact Hcalls|]. split.
  - intros item a line Hin Has. eapply selected_line_carried; eassumption.
  - intros a line Hl H1 H2. unfold carried_line. rewrite Hl, H1, H2. reflexivity.
Qed.

Lemma two_line_map_ends : line_ends_in_map two_line_map.
Proof.
  intros l line Hl.
  destruct l as [|[|l]]; simpl in Hl; try discriminate;
    injection Hl as <-; simpl; split; eauto.
Qed.

Lemma renderMovingLines_carries_selected_witness :
  exists dc' w',
    renderMovingLines default_env two_line_map plain_context
      [mkItem 0 IT_Line] (mkVec2d 8 16) new_world = Ok dc' w'
    /\ lb_buffer (temp_lines_buffer_ (rd w'))
       = [mkLineEntry 8 16 72 16 (col_config "map_line_normal") 1;
          mkLineEntry 72 16 128 0 (col_config "map_line_normal") 1].
Proof.
  destruct (renderMovingLines_carries_selected default_env two_line_map
              plain_context [mkItem 0 IT_Line] (mkVec2d 8 16) new_world
              two_line_map_complete two_line_map_ends)
    as (dc' & w' & Hrun & (_ & Hctx & _) & _).
  exists dc', w'. split; [exact Hrun|].
  destruct (Hctx eq_refl) as (-> & _). reflexivity.
Defined.

(** Items built from distinct line indices are distinct. *)
Lemma NoDup_omap_seq (flag : nat -> bool) (n : nat) :
  NoDup (omap (fun a => if flag a then Some (mkItem (Z.of_nat a) IT_Line) else None)
           (seq 0 n)).
Proof.
  apply (NoDup_fmap_1 item_index).
  generalize 0%nat as j. induction n as [|n IH]; intros j; cbn [seq]; [constructor|].
  assert (forall j' k, Z.of_nat k ∈ item_index <$>
            omap (fun a => if flag a then Some (mkItem (Z.of_nat a) IT_Line) else None)
              (seq j' n) -> (j' <= k)%nat) as Hge.
  { intros j' k Hk. apply list_elem_of_fmap in Hk as (it & Hit & Hin).
    apply list_elem_of_omap in Hin as (a & Ha & Hf).
    apply elem_of_seq in Ha. destruct (flag a); [|discriminate].
    injection Hf as <-. cbn in Hit. lia. }
  change (omap ?f (j :: ?l)) with (match f j with Some y => y :: omap f l | None => omap f l end).
  cbv beta. destruct (flag j); [|apply IH].
  rewrite fmap_cons. constructor; [|apply IH].
  cbn [item_index]. intros Hin. apply Hge in Hin. lia.
Qed.

(** Items built from line indices come in the order of the indices. *)
Lemma omap_seq_ordered (flag : nat -> bool) (n : nat) :
  forall j i k a b,
    omap (fun a => if flag a then Some (mkItem (Z.of_nat a) IT_Line) else None)
      (seq j n) !! i = Some (mkItem (Z.of_nat a) IT_Line) ->
    omap (fun a => if flag a then Some (mkItem (Z.of_nat a) IT_Line) else None)
      (seq j n) !! k = Some (mkItem (Z.of_nat b) IT_Line) ->
    (i < k)%nat -> (a < b)%nat.
Proof.
  induction n as [|n IH]; intros j i k a b Hi Hk Hlt; cbn [seq] in Hi, Hk;
    [discriminate|].
  assert (forall j' k' c,
            omap (fun a => if flag a then Some (mkItem (Z.of_nat a) IT_Line) else None)
              (seq j' n) !! k' = Some (mkItem (Z.of_nat c) IT_Line) -> (j' <= c)%nat)
    as Hge.
  { intros j' k' c Hc. apply list_elem_of_lookup_2 in Hc.
    apply list_elem_of_omap in Hc as (x & Hx & Hf).
    apply elem_of_seq in Hx. destruct (flag x); [|discriminate].
    injection Hf as Hf. lia. }
  change (omap ?f (j :: ?l))
    with (match f j with Some y => y :: omap f l | None => omap f l end) in Hi, Hk.
  cbv beta in Hi, Hk. destruct (flag j).
  - destruct k as [|k]; [lia|]. cbn [lookup list_lookup] in Hk.
    destruct i as [|i].
    + injection Hi as Hi. apply Hge in Hk. lia.
    + apply (IH (S j) i k); [exact Hi | exact Hk | lia].
  - apply (IH (S j) i k); assumption.
Qed.

(** Line [a] is a side of a sector the selection resolves to. *)
Definition side_of_selected (m : SLADEMap) (ss : SectorSides) (sectors : list Item)
    (a : nat) : Prop :=
  exists item s sec,
    item ∈ sectors /\ asSector item m = Some (s, sec) /\ a ∈ side_lines ss s.

(** The flags of the first [n] lines say which lines satisfy [Q]. *)
Definition flagged (n : nat) (Q : nat -> Prop) (lines_moved : list Z) : Prop :=
  forall a, (a < n)%nat ->
    exists b : bool, lines_moved !! a = Some (if b then 1 else 0) /\ (b = true <-> Q a).

Lemma flagged_iff (n : nat) (Q Q' : nat -> Prop) (lines_moved : list Z) :
  (forall a, Q a <-> Q' a) -> flagged n Q lines_moved -> flagged n Q' lines_moved.
Proof.
  intros HQ Hf a Ha. destruct (Hf a Ha) as (b & Hb & Hiff).
  exists b. rewrite <- HQ. auto.
Qed.

Lemma flag_sides_flagged (n : nat) (ls : list nat) :
  forall (Q : nat -> Prop) (lines_moved : list Z),
  flagged n Q lines_moved ->
  flagged n (fun a => Q a \/ a ∈ ls)
    (foldl (fun lines_moved l => <[l := 1]> lines_moved) lines_moved ls).
Proof.
  induction ls as [|l ls IH]; intros Q lines_moved Hf; cbn [foldl].
  - eapply flagged_iff; [|exact Hf]. intros a. split; [auto|].
    intros [H | H]; [exact H | inversion H].
  - eapply flagged_iff; [|apply IH with (Q := fun a => Q a \/ a = l)].
    + intros a. cbv beta. rewrite elem_of_cons. tauto.
    + intros a Ha. destruct (Hf a Ha) as (b & Hb & Hiff).
      destruct (decide (a = l)) as [-> | Hne].
      * exists true. split.
        -- apply list_lookup_insert_eq. apply lookup_lt_Some in Hb. exact Hb.
        -- split; auto.
      * exists b. split.
        -- rewrite list_lookup_insert_ne by congruence. exact Hb.
        -- rewrite Hiff. split; [auto|]. intros [H | H]; [exact H | contradiction].
Qed.

Lemma lines_moved_flagged (m : SLADEMap) (ss : SectorSides) (sectors : list Item) :
  flagged (nLines m) (side_of_selected m ss sectors) (lines_moved_of m ss sectors).
Proof.
  unfold lines_moved_of.
  assert (forall (Q : nat -> Prop) (lines_moved : list Z),
            flagged (nLines m) Q lines_moved ->
            flagged (nLines m) (fun a => Q a \/ side_of_selected m ss sectors a)
              (foldl (fun lines_moved item =>
                        match asSector item m with
                        | Some (s, _) =>
                            foldl (fun lines_moved l => <[l := 1]> lines_moved)
                              lines_moved (side_lines ss s)
                        | None => lines_moved
                        end) lines_moved sectors)) as Hgen.
  { induction sectors as [|item sectors IH]; intros Q lines_moved Hf; cbn [foldl].
    - eapply flagged_iff; [|exact Hf]. intros a. split; [auto|].
      intros [H | (it & ? & ? & Hin & _)]; [exact H | inversion Hin].
    - destruct (asSector item m) as [[s sec]|] eqn:Has.
      + eapply flagged_iff; [|apply IH, flag_sides_flagged, Hf].
        intros a. cbv beta. rewrite Logic.or_assoc. apply or_iff_compat_l.
        unfold side_of_selected. split.
        * intros [H | (it & s' & sec' & Hin & H)].
          -- exists item, s, sec. split; [left|]. auto.
          -- exists it, s', sec'. split; [right; exact Hin | exact H].
        * intros (it & s' & sec' & Hin & Has' & H).
          apply elem_of_cons in Hin as [-> | Hin].
          -- left. rewrite Has in Has'. injection Has' as <- <-. exact H.
          -- right. exists it, s', sec'. auto.
      + eapply flagged_iff; [|apply IH, Hf].
        intros a. cbv beta. apply or_iff_compat_l. unfold side_of_selected. split.
        * intros (it & s' & sec' & Hin & H).
          exists it, s', sec'. split; [right; exact Hin | exact H].
        * intros (it & s' & sec' & Hin & Has' & H).
          apply elem_of_cons in Hin as [-> | Hin]; [congruence|].
          exists it, s', sec'. auto. }
  eapply flagged_iff; [|apply Hgen with (Q := fun _ => False)].
  - intros a. tauto.
  - intros a Ha. exists false. split.
    + apply lookup_replicate_2. exact Ha.
    + split; [discriminate | contradiction].
Qed.

Lemma moved_line_items_spec (m : SLADEMap) (ss : SectorSides) (sectors : list Item)
    (it : Item) :
  it ∈ moved_line_items m ss sectors
  <-> exists a, it = mkItem (Z.of_nat a) IT_Line /\ (a < nLines m)%nat
                /\ side_of_selected m ss sectors a.
Proof.
  unfold moved_line_items. rewrite list_elem_of_omap. split.
  - intros (a & Ha & Hit). apply elem_of_seq in Ha.
    assert (a < nLines m)%nat as Hlt by lia.
    destruct (lines_moved_flagged m ss sectors a Hlt) as (b & Hb & Hiff).
    rewrite Hb in Hit. destruct b; cbn in Hit; [|discriminate].
    injection Hit as <-. exists a. split; [reflexivity|]. split; [exact Hlt|].
    apply Hiff. reflexivity.
  - intros (a & -> & Hlt & Hside). exists a. split; [apply elem_of_seq; lia|].
    destruct (lines_moved_flagged m ss sectors a Hlt) as (b & Hb & Hiff).
    rewrite Hb. apply Hiff in Hside as ->. reflexivity.
Qed.

Lemma asLine_of_nat (m : SLADEMap) (a : nat) (line : MapLine) :
  lines m !! a = Some line ->
  asLine (mkItem (Z.of_nat a) IT_Line) m = Some (a, line).
Proof.
  intros Hl. unfold asLine, map_line, at_index. cbn [item_type item_index].
  destruct (Z.ltb_spec (Z.of_nat a) 0) as [Hneg|_]; [lia|].
  rewrite Nat2Z.id, Hl. reflexivity.
Qed.

(** X22. [renderMovingSectors] is [renderMovingLines] on exactly the lines
    that are a side of a sector the selection resolves to, each once and in
    the order of the map.  So it adds to the temporary lines buffer, behind
    what was staged before, every such line moved as a whole and the lines
    that share an end with one stretched; with a GL context the staged
    segments are uploaded and, unless there is none, drawn; without one they
    stay staged and nothing is uploaded or drawn. *)
Theorem renderMovingSectors_carries_sides
    (E : Env) (m : SLADEMap) (ss : SectorSides) (dc : Context)
    (sectors : list Item) (move_vec : Vec2d) (w : World) :
  connected_lines_complete m -> line_ends_in_map m ->
  let moved := moved_line_items m ss sectors in
  let added := flat_map (carried_line m moved move_vec) (seq 0 (nLines m)) in
  let staged := lb_lines (temp_lines_buffer_ (rd w)) ++ added in
  exists dc' w',
    renderMovingSectors E m ss dc sectors move_vec w = Ok dc' w'
    /\ NoDup moved
    /\ (forall it, it ∈ moved
          <-> exists a, it = mkItem (Z.of_nat a) IT_Line /\ (a < nLines m)%nat
                        /\ side_of_selected m ss sectors a)
    /\ (forall i j a b,
          moved !! i = Some (mkItem (Z.of_nat a) IT_Line) ->
          moved !! j = Some (mkItem (Z.of_nat b) IT_Line) ->
          (i < j)%nat -> (a < b)%nat)
    /\ (let calls :=
          moving_calls (gl_context E) staged (temp_lines_buffer_ (rd w')) in
        backend w'
        = backend w ++ calls ++ [dc_drawLines dc' (line_overlays m moved move_vec)]
        /\ (gl_context E = true ->
            lb_buffer (temp_lines_buffer_ (rd w')) = staged
            /\ lb_lines (temp_lines_buffer_ (rd w')) = []
            /\ gl_upload_lines buf_temp_lines staged ∈ calls
            /\ (staged <> [] ->
                gl_draw_lines (temp_lines_buffer_ (rd w')) None ∈ calls)
            /\ (staged = [] -> forall b c, gl_draw_lines b c ∉ calls))
        /\ (gl_context E = false ->
            lb_lines (temp_lines_buffer_ (rd w')) = staged
            /\ lb_buffer (temp_lines_buffer_ (rd w'))
               = lb_buffer (temp_lines_buffer_ (rd w))
            /\ calls = [gl_setBlend Blend_Normal]))
    /\ (forall a line,
          lines m !! a = Some line -> side_of_selected m ss sectors a ->
          translated m line move_vec ∈ added).
Proof.
  intros Hwf Hends. cbv zeta. unfold renderMovingSectors.
  destruct (renderMovingLines_buffer E m dc (moved_line_items m ss sectors)
              move_vec w Hwf Hends)
    as (dc' & w' & Hrun & Hcalls).
  exists dc', w'. split; [exact Hrun|].
  split; [unfold moved_line_items; apply NoDup_omap_seq|].
  split; [apply moved_line_items_spec|].
  split; [apply omap_seq_ordered|]. split; [exact Hcalls|].
  intros a line Hl Hside.
  apply (selected_line_carried m _ move_vec (mkItem (Z.of_nat a) IT_Line) a line).
  - apply moved_line_items_spec. exists a. split; [reflexivity|].
    split; [apply lookup_lt_Some in Hl; exact Hl | exact Hside].
  - apply asLine_of_nat, Hl.
Qed.

(** The two lines of [two_line_map], with one sector on the first of them. *)
Definition one_room_map : SLADEMap :=
  mkSLADEMap (vertices two_line_map) (lines two_line_map)
    [mkMapSector (mkBBox (mkVec2d 0 0) (mkVec2d 64 64)) []] [] 0 0 (fun _ => [])
    (fun _ => mkVec2d 0 0) (fun _ => mkVec2d 0 0).

Definition one_room_sides : SectorSides :=
  mkSectorSides (fun _ => [0%nat]) (fun _ => false).

Lemma renderMovingSectors_carries_sides_witness :
  exists dc' w',
    renderMovingSectors default_env one_room_map one_room_sides plain_context
      [mkItem 0 IT_Sector] (mkVec2d 8 16) new_world = Ok dc' w'
    /\ lb_buffer (temp_lines_buffer_ (rd w'))
       = [mkLineEntry 8 16 72 16 (col_config "map_line_normal") 1;
          mkLineEntry 72 16 128 0 (col_config "map_line_normal") 1].
Proof.
  destruct (renderMovingSectors_carries_sides default_env one_room_map
              one_room_sides plain_context [mkItem 0 IT_Sector] (mkVec2d 8 16)
              new_world two_line_map_complete two_line_map_ends)
    as (dc' & w' & Hrun & _ & _ & _ & (_ & Hctx & _) & _).
  exists dc', w'. split; [exact Hrun|].
  destruct (Hctx eq_refl) as (-> & _). reflexivity.
Defined.

End MovingMoreFacts.

(** ** Things drawn from a list: one draw per type *)

Module ThingListFacts.
Import Things Hilight MovingMore Samples MoreSamples.

(** The backend calls of the loop of [renderThings] over a list, and the
    temporary things buffer it leaves. *)
Fixpoint by_type_run (E : Env2) (alpha : float) (offset : Vec2d)
    (things : list MapThing) (types_rendered : list Z) (tb : ThingBuffer2D)
    : list GLCall * ThingBuffer2D :=
  match things with
  | [] => ([], tb)
  | t :: rest =>
      let ttype := t_type t in
      if bool_decide (ttype ∈ types_rendered)
      then by_type_run E alpha offset rest types_rendered tb
      else
        let tb := add_same_type E offset ttype (t :: rest)
                    (setupThingBuffer (env E) ttype tb) in
        let '(cs, tb') := by_type_run E alpha offset rest
                            (types_rendered ++ [ttype]) (tb_push tb) in
        (gl_upload_things ttype (tb_things tb)
           :: gl_draw_things (tb_push tb) (col_vec4 1 1 1 alpha)
                (thing_shape (cv (env E)) =? 1) (draw_force_dir E) :: cs, tb')
  end.

Lemma render_by_type_run (E : Env2) (alpha : float) (offset : Vec2d)
    (things : list MapThing) :
  forall (types_rendered : list Z) (tb : ThingBuffer2D) (w : World),
  render_by_type E alpha offset things types_rendered tb w
  = Ok (by_type_run E alpha offset things types_rendered tb).2
      (mkWorld (rd w)
         (backend w ++ (by_type_run E alpha offset things types_rendered tb).1)).
Proof.
  induction things as [|t rest IH]; intros types_rendered tb w;
    cbn [render_by_type by_type_run].
  - unfold ret. cbn [fst snd]. rewrite app_nil_r. destruct w; reflexivity.
  - case_bool_decide; [apply IH|].
    unfold bind, emit. cbn [rd backend]. rewrite IH. cbn [rd backend].
    destruct (by_type_run E alpha offset rest (types_rendered ++ [t_type t])
                (tb_push (add_same_type E offset (t_type t) (t :: rest)
                            (setupThingBuffer (env E) (t_type t) tb))))
      as [cs tb'].
    cbn [fst snd]. rewrite <- !app_assoc. reflexivity.
Qed.

(** The buffers handed to the draw calls of a trace, in order. *)
Definition drawn_buffers (cs : list GLCall) : list ThingBuffer2D :=
  omap (fun c => match c with
                 | gl_draw_things b _ _ _ => Some b
                 | _ => None
                 end) cs.

(** The entries of the things of type [ty], in the order of the list. *)
Definition entries_of_type (E : Env2) (offset : Vec2d) (ty : Z)
    (things : list MapThing) : list ThingEntry :=
  moved_entry E offset <$> filter (fun t => t_type t = ty) things.

Lemma setupThingBuffer_keeps (E : Env) (ty : Z) (tb : ThingBuffer2D) :
  tb_type (setupThingBuffer E ty tb) = ty
  /\ tb_things (setupThingBuffer E ty tb) = tb_things tb.
Proof.
  unfold setupThingBuffer.
  destruct (thing_texture E (thingType (configuration E) ty)); split; reflexivity.
Qed.

Lemma add_same_type_effect (E : Env2) (offset : Vec2d) (ty : Z)
    (things : list MapThing) : forall tb : ThingBuffer2D,
  tb_type (add_same_type E offset ty things tb) = tb_type tb
  /\ tb_things (add_same_type E offset ty things tb)
     = tb_things tb ++ entries_of_type E offset ty things.
Proof.
  unfold add_same_type, entries_of_type.
  induction things as [|t rest IH]; intros tb; cbn [foldl].
  - rewrite filter_nil, fmap_nil, app_nil_r. split; reflexivity.
  - destruct (Z.eqb_spec (t_type t) ty) as [Heq | Hne].
    + destruct (IH (tb_add (moved_entry E offset t) tb)) as [-> ->].
      rewrite filter_cons_True by exact Heq. rewrite fmap_cons.
      cbn [tb_add tb_type tb_things]. rewrite <- app_assoc. split; reflexivity.
    + rewrite filter_cons_False by exact Hne. apply IH.
Qed.

Lemma entries_of_other_type (E : Env2) (offset : Vec2d) (ty : Z) (t : MapThing)
    (rest : list MapThing) :
  ty <> t_type t ->
  entries_of_type E offset ty (t :: rest) = entries_of_type E offset ty rest.
Proof.
  intros Hne. unfold entries_of_type.
  rewrite filter_cons_False by congruence. reflexivity.
Qed.

(** What the loop draws from a point on: a buffer for every type that occurs
    from there on and was not rendered before, no type twice, each buffer
    with the things of its type. *)
Lemma by_type_run_draws (E : Env2) (alpha : float) (offset : Vec2d)
    (things : list MapThing) :
  forall (types_rendered : list Z) (tb : ThingBuffer2D),
  tb_things tb = [] ->
  let res := by_type_run E alpha offset things types_rendered tb in
  tb_things res.2 = []
  /\ NoDup (tb_type <$> drawn_buffers res.1)
  /\ (forall ty, ty ∈ tb_type <$> drawn_buffers res.1
        <-> (ty ∉ types_rendered) /\ ty ∈ t_type <$> things)
  /\ Forall (fun b => tb_things b = []
                      /\ tb_buffer b = entries_of_type E offset (tb_type b) things)
       (drawn_buffers res.1).
Proof.
  induction things as [|t rest IH]; intros types_rendered tb Hempty;
    cbn [by_type_run]; cbv zeta.
  - cbn [fst snd]. split; [exact Hempty|]. split; [constructor|]. split.
    + intros ty. split; [intros H; inversion H | intros [_ H]; inversion H].
    + constructor.
  - case_bool_decide as Hseen.
    + destruct (IH types_rendered tb Hempty) as (H1 & H2 & H3 & H4).
      split; [exact H1|]. split; [exact H2|]. split.
      * intros ty. rewrite H3, fmap_cons, elem_of_cons. split; [tauto|].
        intros [Hn [-> | H]]; [contradiction | auto].
      * rewrite Forall_forall in H4 |- *. intros b Hb.
        destruct (H4 b Hb) as [Hb1 Hb2]. split; [exact Hb1|].
        rewrite entries_of_other_type; [exact Hb2|].
        intros Heq. apply (list_elem_of_fmap_2 tb_type) in Hb.
        apply H3 in Hb as [Hn _]. congruence.
    + set (tb1 := add_same_type E offset (t_type t) (t :: rest)
                    (setupThingBuffer (env E) (t_type t) tb)).
      destruct (setupThingBuffer_keeps (env E) (t_type t) tb) as [Hty Hth].
      destruct (add_same_type_effect E offset (t_type t) (t :: rest)
                  (setupThingBuffer (env E) (t_type t) tb)) as [Hty1 Hth1].
      fold tb1 in Hty1, Hth1. rewrite Hty in Hty1. rewrite Hth, Hempty in Hth1.
      cbn [app] in Hth1.
      specialize (IH (types_rendered ++ [t_type t]) (tb_push tb1) eq_refl).
      destruct (by_type_run E alpha offset rest (types_rendered ++ [t_type t])
                  (tb_push tb1)) as [cs tb'].
      cbn [fst snd] in IH |- *. destruct IH as (H1 & H2 & H3 & H4).
      change (drawn_buffers (?u :: ?d :: cs)) with (tb_push tb1 :: drawn_buffers cs).
      rewrite fmap_cons. cbn [tb_push tb_type]. rewrite Hty1.
      split; [exact H1|]. split; [|split].
      * constructor; [|exact H2]. intros Hin. apply H3 in Hin as [Hn _].
        apply Hn, elem_of_app. right. left.
      * intros ty. rewrite elem_of_cons, H3, fmap_cons, elem_of_cons, elem_of_app,
          list_elem_of_singleton.
        split.
        -- intros [-> | [Hn H]]; [split; [exact Hseen | left; reflexivity]|].
           split; [tauto | right; exact H].
        -- intros [Hn [-> | H]]; [left; reflexivity|].
           destruct (decide (ty = t_type t)) as [-> | Hne]; [left; reflexivity|].
           right. split; [tauto | exact H].
      * constructor.
        -- cbn [tb_push tb_things tb_buffer tb_type]. split; [reflexivity|].
           rewrite Hty1. exact Hth1.
        -- rewrite Forall_forall in H4 |- *. intros b Hb.
           destruct (H4 b Hb) as [Hb1 Hb2]. split; [exact Hb1|].
           rewrite entries_of_other_type; [exact Hb2|].
           intros Heq. apply (list_elem_of_fmap_2 tb_type) in Hb.
           apply H3 in Hb as [Hn _]. apply Hn, elem_of_app. right.
           rewrite Heq. left.
Qed.

(** X23. [renderThings] for a list of things makes one draw per thing type
    that occurs in the list, no type twice; the buffer of a draw holds the
    entries of all things of its type, in the order of the list and moved by
    the offset.  The renderer is not touched, and the temporary buffer is
    left with nothing staged. *)
Theorem renderThings_list_one_draw_per_type
    (E : Env2) (things : list MapThing) (alpha : float) (offset : Vec2d)
    (tb : ThingBuffer2D) (w : World) :
  tb_things tb = [] ->
  exists tb' w' calls,
    renderThings_list E things alpha offset tb w = Ok tb' w'
    /\ rd w' = rd w
    /\ backend w' = backend w ++ calls
    /\ tb_things tb' = []
    /\ NoDup (tb_type <$> drawn_buffers calls)
    /\ (forall ty, ty ∈ tb_type <$> drawn_buffers calls <-> ty ∈ t_type <$> things)
    /\ Forall (fun b => tb_buffer b = entries_of_type E offset (tb_type b) things)
         (drawn_buffers calls).
Proof.
  intros Hempty. unfold renderThings_list, bind, emit. cbn [rd backend].
  rewrite render_by_type_run. cbn [rd backend].
  destruct (by_type_run_draws E alpha offset things [] tb Hempty)
    as (H1 & H2 & H3 & H4).
  eexists _, _, (gl_setBlend Blend_Normal :: _).
  split; [reflexivity|]. cbn [rd backend].
  split; [reflexivity|]. split; [rewrite <- app_assoc; reflexivity|].
  split; [exact H1|].
  change (drawn_buffers (gl_setBlend Blend_Normal :: ?cs)) with (drawn_buffers cs).
  split; [exact H2|]. split.
  - intros ty. rewrite H3. split; [tauto|]. intros H. split; [|exact H].
    intros Hin. inversion Hin.
  - eapply Forall_impl; [exact H4|]. intros b [_ Hb]. exact Hb.
Qed.

(** Three things of two types, the two of type 1 apart. *)
Definition mixed_things : list MapThing :=
  [mkMapThing 0 0 1 [] (mkVec2d 0 0) 0 false 0;
   mkMapThing 1 0 2 [] (mkVec2d 32 0) 90 false 0;
   mkMapThing 2 0 1 [] (mkVec2d 64 0) 180 false 0].

Lemma renderThings_list_one_draw_per_type_witness :
  exists tb' w' calls,
    renderThings_list default_env2 mixed_things 1 (mkVec2d 8 8) ThingBuffer2D_new
      new_world = Ok tb' w'
    /\ backend w' = calls
    /\ (tb_buffer <$> drawn_buffers calls)
       = [[mkThingEntry 8 8 0 1; mkThingEntry 72 8 180 1]; [mkThingEntry 40 8 90 1]].
Proof.
  destruct (renderThings_list_one_draw_per_type default_env2 mixed_things 1
              (mkVec2d 8 8) ThingBuffer2D_new new_world eq_refl)
    as (tb' & w' & calls & Hrun & _ & Hcalls & _).
  exists tb', w', calls. split; [exact Hrun|]. split; [exact Hcalls|].
  vm_compute in Hrun. injection Hrun as _ <-. cbn in Hcalls. subst calls.
  reflexivity.
Defined.

(** A draw of [things] followed by their overlays, as [renderMovingThings]
    and [renderPasteThings] both do it, with point sprite overlays. *)
Lemma things_then_overlays (E : Env2) (view_ : View) (dc : Context)
    (things : list MapThing) (pos : Vec2d) (tb : ThingBuffer2D) (w : World) :
  thing_overlay_square (cv (env E)) = false ->
  exists w',
    (do tb <- renderThings_list E things c_1_0f pos tb;
     do dc <- renderThingOverlays (env E) view_ dc things 0 pos;
     ret (dc, tb)) w
    = Ok (dc, (by_type_run E c_1_0f pos things [] tb).2) w'
    /\ (fun s => (ps_x s, ps_y s))
       <$> drop (length (psb_points (thing_overlay_buffer_ (rd w))))
             (psb_buffer (thing_overlay_buffer_ (rd w')))
       = (fun e => (te_x e, te_y e)) <$> (moved_entry E pos <$> things).
Proof.
  intros Hsquare. unfold bind at 1. unfold renderThings_list, bind at 1, emit at 1.
  cbn [rd backend]. rewrite render_by_type_run. cbn [rd backend].
  unfold bind at 1. unfold renderThingOverlays. rewrite Hsquare.
  unfold bind, get_rd, modify_rd, ret, emit. cbn [rd backend].
  eexists. split; [reflexivity|].
  cbn [rd thing_overlay_buffer_ set_thing_overlay_buffer_ psb_buffer].
  rewrite drop_app_length, <- !list_fmap_compose. reflexivity.
Qed.

(** X24. [renderMovingThings] and [renderPasteThings] draw the things and
    their overlays at the same places: with point sprite overlays, the
    sprites added to the overlay buffer sit, thing by thing, at the positions
    of the entries drawn for the things, both moved by the offset.
    [renderMovingThings] leaves out the items that do not resolve to a thing
    from both.  Neither faults, and the temporary things buffer is left with
    nothing staged. *)
Theorem renderMovingThings_overlays_follow_things
    (E : Env2) (m : SLADEMap) (view_ : View) (dc : Context) (items : list Item)
    (things : list MapThing) (move_vec : Vec2d) (tb : ThingBuffer2D) (w : World) :
  tb_things tb = [] ->
  thing_overlay_square (cv (env E)) = false ->
  (exists dc' tb' w',
     renderMovingThings E m view_ dc items move_vec tb w = Ok (dc', tb') w'
     /\ tb_things tb' = []
     /\ (fun s => (ps_x s, ps_y s))
        <$> drop (length (psb_points (thing_overlay_buffer_ (rd w))))
              (psb_buffer (thing_overlay_buffer_ (rd w')))
        = (fun e => (te_x e, te_y e))
          <$> (moved_entry E move_vec <$> omap (fun item => asThing item m) items))
  /\ (exists dc' tb' w',
        renderPasteThings E view_ dc things move_vec tb w = Ok (dc', tb') w'
        /\ tb_things tb' = []
        /\ (fun s => (ps_x s, ps_y s))
           <$> drop (length (psb_points (thing_overlay_buffer_ (rd w))))
                 (psb_buffer (thing_overlay_buffer_ (rd w')))
           = (fun e => (te_x e, te_y e)) <$> (moved_entry E move_vec <$> things)).
Proof.
  intros Hempty Hsquare. split.
  - destruct (things_then_overlays E view_ (setColourFromConfig "map_moving" c_1_0f dc)
                (omap (fun item => asThing item m) items) move_vec tb w Hsquare)
      as (w' & Hrun & Hpos).
    eexists _, _, w'. split; [exact Hrun|]. split; [|exact Hpos].
    apply (by_type_run_draws E c_1_0f move_vec _ [] tb Hempty).
  - destruct (things_then_overlays E view_ (setColourFromConfig "map_linedraw" c_1_0f dc)
                things move_vec tb w Hsquare)
      as (w' & Hrun & Hpos).
    eexists _, _, w'. split; [exact Hrun|]. split; [|exact Hpos].
    apply (by_type_run_draws E c_1_0f move_vec _ [] tb Hempty).
Qed.

Lemma renderMovingThings_overlays_follow_things_witness :
  exists dc' tb' w',
    renderPasteThings default_env2 unit_view plain_context mixed_things
      (mkVec2d 8 8) ThingBuffer2D_new new_world = Ok (dc', tb') w'
    /\ (fun s => (ps_x s, ps_y s)) <$> psb_buffer (thing_overlay_buffer_ (rd w'))
       = [(8, 8); (40, 8); (72, 8)]%float.
Proof.
  destruct (renderMovingThings_overlays_follow_things default_env2
              ThingsFacts.one_thing_map unit_view plain_context [] mixed_things
              (mkVec2d 8 8) ThingBuffer2D_new new_world eq_refl eq_refl)
    as [_ (dc' & tb' & w' & Hrun & _ & Hpos)].
  exists dc', tb', w'. split; [exact Hrun|]. exact Hpos.
Defined.

End ThingListFacts.

(** ** The view: zoom limits, interpolation and the visible region *)

Module ViewFacts.
Import ViewOps Samples.

Lemma ltb_irrefl (x : float) : (x <? x)%float = false.
Proof.
  rewrite ltb_spec. unfold SFltb, SFcompare.
  destruct (Prim2SF x) as [s | s | | s m e]; try reflexivity.
  - destruct s; reflexivity.
  - rewrite Z.compare_refl.
    replace (PosDef.Pos.compare_cont Eq m m) with Eq
      by (symmetry; apply Pos.compare_cont_refl).
    destruct s; reflexivity.
Qed.

(** A component of the scale is neither below the lower nor above the upper
    limit of the view. *)
Definition within_limits (v : ViewState) (s : float) : Prop :=
  (s <? min_scale_ v)%float = false /\ (max_scale_ v <? s)%float = false.

Lemma limit_scale_within (v : ViewState) (s : float) :
  (max_scale_ v <? min_scale_ v)%float = false ->
  within_limits v (limit_scale v s).
Proof.
  intros Hlimits. unfold within_limits, limit_scale.
  destruct (s <? min_scale_ v)%float eqn:Hlow.
  - rewrite Hlimits. split; [apply ltb_irrefl | exact Hlimits].
  - destruct (max_scale_ v <? s)%float eqn:Hhigh.
    + split; [exact Hlimits | apply ltb_irrefl].
    + split; assumption.
Qed.

Lemma updateVisibleRegion_keeps (v : ViewState) :
  view (updateVisibleRegion v) = view v
  /\ offset_ (updateVisibleRegion v) = offset_ v
  /\ offset_inter_ (updateVisibleRegion v) = offset_inter_ v
  /\ min_scale_ (updateVisibleRegion v) = min_scale_ v
  /\ max_scale_ (updateVisibleRegion v) = max_scale_ v.
Proof.
  unfold updateVisibleRegion. destruct (y_flipped_ v); repeat split.
Qed.

(** What [zoom] and [setScale] leave as the scale. *)
Lemma zoom_scale (v : ViewState) (amount : float) :
  scale_ (view (zoom v amount))
  = mkVec2d (limit_scale v (vx (scale_ (view v)) * amount))
      (limit_scale v (vy (scale_ (view v)) * amount)).
Proof.
  unfold zoom. cbv zeta.
  match goal with
  | |- scale_ (view (updateVisibleRegion ?u)) = _ =>
      destruct (updateVisibleRegion_keeps u) as [-> _]
  end.
  cbn [limit_scales set_scale_ interpolated_].
  destruct (interpolated_ v); reflexivity.
Qed.

Lemma setScale_scale (v : ViewState) (scale : Vec2d) (focus_point : Z * Z) :
  scale_ (view (setScale v scale focus_point))
  = mkVec2d (limit_scale v (vx scale)) (limit_scale v (vy scale)).
Proof.
  unfold setScale. cbv zeta.
  match goal with
  | |- scale_ (view (updateVisibleRegion ?u)) = _ =>
      destruct (updateVisibleRegion_keeps u) as [-> _]
  end.
  cbn [limit_scales set_scale_ set_offset_ interpolated_].
  destruct (interpolated_ v); reflexivity.
Qed.

(** X25. [zoom] and [setScale] leave both components of the scale within the
    zoom limits of the view, whatever scale they are asked for (the lower
    limit not being above the upper one); the limits themselves are not
    changed, and on a view that is not interpolated the interpolated scale
    is the new scale. *)
Theorem scale_kept_within_limits
    (v : ViewState) (amount : float) (scale : Vec2d) (focus_point : Z * Z) :
  (max_scale_ v <? min_scale_ v)%float = false ->
  (within_limits v (vx (scale_ (view (zoom v amount))))
   /\ within_limits v (vy (scale_ (view (zoom v amount))))
   /\ min_scale_ (zoom v amount) = min_scale_ v
   /\ max_scale_ (zoom v amount) = max_scale_ v
   /\ (interpolated_ v = false ->
       scale_inter_ (view (zoom v amount)) = scale_ (view (zoom v amount))))
  /\ (within_limits v (vx (scale_ (view (setScale v scale focus_point))))
      /\ within_limits v (vy (scale_ (view (setScale v scale focus_point))))
      /\ min_scale_ (setScale v scale focus_point) = min_scale_ v
      /\ max_scale_ (setScale v scale focus_point) = max_scale_ v
      /\ (interpolated_ v = false ->
          scale_inter_ (view (setScale v scale focus_point))
          = scale_ (view (setScale v scale focus_point))
          /\ offset_inter_ (setScale v scale focus_point)
             = offset_ (setScale v scale focus_point))).
Proof.
  intros Hlimits. split.
  - rewrite zoom_scale. cbn [vx vy].
    split; [apply limit_scale_within, Hlimits|].
    split; [apply limit_scale_within, Hlimits|].
    unfold zoom. cbv zeta.
    match goal with
    | |- context [updateVisibleRegion ?u] =>
        destruct (updateVisibleRegion_keeps u) as (-> & _ & _ & -> & ->)
    end.
    cbn [limit_scales set_scale_ interpolated_].
    destruct (interpolated_ v); (split; [reflexivity|]); (split; [reflexivity|]);
      intros H; (discriminate H || reflexivity).
  - rewrite setScale_scale. cbn [vx vy].
    split; [apply limit_scale_within, Hlimits|].
    split; [apply limit_scale_within, Hlimits|].
    unfold setScale. cbv zeta.
    match goal with
    | |- context [updateVisibleRegion ?u] =>
        destruct (updateVisibleRegion_keeps u) as (-> & -> & -> & -> & ->)
    end.
    cbn [limit_scales set_scale_ set_offset_ interpolated_].
    destruct (interpolated_ v); (split; [reflexivity|]); (split; [reflexivity|]);
      intros H; (discriminate H || (split; reflexivity)).
Qed.

(** A centred view of 640 by 480 pixels at scale 1, with the zoom limits
    0.25 and 10. *)
Definition sample_view : ViewState :=
  mkViewState unit_view (640, 480) (mkVec2d 0 0) (mkVec2d 0 0) 0.25 10
    false true false (mkVec2d 0 0) (mkVec2d 0 0).

Lemma scale_kept_within_limits_witness :
  scale_ (view (zoom sample_view 1000)) = mkVec2d 10 10
  /\ within_limits sample_view (vx (scale_ (view (zoom sample_view 1000)))).
Proof.
  split; [reflexivity|].
  apply (scale_kept_within_limits sample_view 1000 (mkVec2d 1 1) (0, 0)).
  reflexivity.
Defined.

Lemma interpolate_offset_done (target inter mult : float) :
  (interpolate_offset target inter mult).2 = false ->
  (interpolate_offset target inter mult).1 = target.
Proof.
  unfold interpolate_offset.
  destruct ((target - inter <? - c_offset_eps)%float
            || (c_offset_eps <? target - inter)%float); [|reflexivity].
  destruct (((target - inter <? 0)%float
             && (inter + (target - inter) * mult <? target)%float)
            || ((0 <? target - inter)%float
                && (target <? inter + (target - inter) * mult)%float));
    [reflexivity | discriminate].
Qed.

Lemma Vec2d_eta (p : Vec2d) : mkVec2d (vx p) (vy p) = p.
Proof. destruct p; reflexivity. Qed.

(** X26. When [interpolate] reports that nothing is interpolating any more,
    the view is at its target: the interpolated scale is the scale and the
    interpolated offset is the offset.  It never changes the scale it
    interpolates towards, and without a point to zoom towards it does not
    change the offset either. *)
Theorem interpolate_done_at_target
    (to_int : float -> Z) (setOffset : ViewState -> float -> float -> ViewState)
    (v : ViewState) (mult : float) (towards : option Vec2d) :
  (forall u x y, view (setOffset u x y) = view u) ->
  let v' := (interpolate to_int setOffset v mult towards).1 in
  scale_ (view v') = scale_ (view v)
  /\ (towards = None -> offset_ v' = offset_ v)
  /\ ((interpolate to_int setOffset v mult towards).2 = false ->
      scale_inter_ (view v') = scale_ (view v')
      /\ offset_inter_ v' = offset_ v').
Proof.
  intros Hkeeps. cbv zeta. unfold interpolate.
  set (stepped := if _ : bool then _ else _).
  assert (scale_ (view stepped.1) = scale_ (view v)
          /\ (towards = None -> offset_ stepped.1 = offset_ v)
          /\ (stepped.2 = false ->
              scale_inter_ (view stepped.1) = scale_ (view stepped.1)))
    as (Hscale & Hoff & Hdone).
  { subst stepped. cbn [vx vy].
    destruct ((vx (scale_ (view v)) - vx (scale_inter_ (view v)) <? - c_scale_eps)%float
              || (c_scale_eps <? vx (scale_ (view v)) - vx (scale_inter_ (view v)))%float);
      [|cbn; auto].
    destruct towards as [t|].
    - match goal with
      | |- context [if ?c then (set_scale_inter_ _ _, false) else _] => destruct c
      end; cbn [fst snd set_offset_inter_ view];
        rewrite Hkeeps; cbn [set_scale_inter_ view scale_ scale_inter_];
        (split; [reflexivity|]); (split; [discriminate|]);
        intros H; (discriminate H || reflexivity).
    - match goal with
      | |- context [if ?c then (set_scale_inter_ _ _, false) else _] => destruct c
      end; cbn [fst snd set_scale_inter_ view scale_ scale_inter_ offset_];
        (split; [reflexivity|]); (split; [reflexivity|]);
        intros H; (discriminate H || reflexivity). }
  destruct stepped as [v1 interpolating]. cbn [fst snd] in Hscale, Hoff, Hdone.
  pose proof (interpolate_offset_done (vx (offset_ v1)) (vx (offset_inter_ v1)) mult)
    as Hx.
  destruct (interpolate_offset (vx (offset_ v1)) (vx (offset_inter_ v1)) mult)
    as [x moving_x].
  cbn [set_offset_inter_ offset_ offset_inter_ vx vy].
  pose proof (interpolate_offset_done (vy (offset_ v1)) (vy (offset_inter_ v1)) mult)
    as Hy.
  destruct (interpolate_offset (vy (offset_ v1)) (vy (offset_inter_ v1)) mult)
    as [y moving_y].
  cbn [fst snd set_offset_inter_ view offset_ offset_inter_ vx vy] in *.
  split; [exact Hscale|]. split; [exact Hoff|].
  intros Hstill.
  apply orb_false_iff in Hstill as [Hstill Hmy].
  apply orb_false_iff in Hstill as [Hint Hmx].
  split; [apply Hdone, Hint|].
  rewrite (Hx Hmx), (Hy Hmy). apply Vec2d_eta.
Qed.

(** [View::setOffset] as its name says: the offset is set. *)
Definition plain_setOffset (v : ViewState) (x y : float) : ViewState :=
  set_offset_ (mkVec2d x y) v.

Lemma interpolate_done_at_target_witness :
  (interpolate (fun _ => 0) plain_setOffset sample_view 0.5 None).2 = false
  /\ offset_inter_ (interpolate (fun _ => 0) plain_setOffset sample_view 0.5 None).1
     = mkVec2d 0 0.
Proof.
  split; [reflexivity|].
  apply (interpolate_done_at_target (fun _ => 0) plain_setOffset sample_view 0.5 None).
  - reflexivity.
  - reflexivity.
Defined.

Definition set_y_flipped_ (b : bool) (v : ViewState) : ViewState :=
  mkViewState (view v) (size_ v) (offset_ v) (offset_inter_ v) (min_scale_ v)
    (max_scale_ v) (interpolated_ v) (centered_ v) b (visible_tl v) (visible_br v).

(** X27. The visible region [updateVisibleRegion] computes is the same
    canvas rectangle whether the view is y-flipped or not: in a flipped view
    the corners are taken at the opposite screen rows, which the flip in
    [canvasYUninterpolated] undoes. *)
Theorem visible_region_ignores_y_flip (v : ViewState) :
  -2147483648 <= (size_ v).2 < 2147483648 ->
  visible_tl (updateVisibleRegion (set_y_flipped_ true v))
  = visible_tl (updateVisibleRegion (set_y_flipped_ false v))
  /\ visible_br (updateVisibleRegion (set_y_flipped_ true v))
     = visible_br (updateVisibleRegion (set_y_flipped_ false v)).
Proof.
  intros Hrange. unfold updateVisibleRegion.
  cbn [set_y_flipped_ y_flipped_ set_visible_region_ visible_tl visible_br].
  unfold canvasXUninterpolated, canvasYUninterpolated.
  cbn [set_y_flipped_ y_flipped_ view size_ offset_ centered_].
  assert (int_sub (size_ v).2 (size_ v).2 = 0) as ->.
  { unfold int_sub. rewrite Z.sub_diag. reflexivity. }
  assert (int_sub (size_ v).2 0 = (size_ v).2) as ->.
  { unfold int_sub. rewrite Z.sub_0_r.
    rewrite Z.mod_small by lia. lia. }
  split; reflexivity.
Qed.

Lemma visible_region_ignores_y_flip_witness :
  visible_tl (updateVisibleRegion (set_y_flipped_ true sample_view))
  = mkVec2d (-320) (-240).
Proof.
  destruct (visible_region_ignores_y_flip sample_view) as [Htl _].
  - cbn. lia.
  - rewrite Htl. reflexivity.
Defined.

(** The interpolated scale and offset are the scale and the offset. *)
Definition at_target (v : ViewState) : Prop :=
  scale_inter_ (view v) = scale_ (view v) /\ offset_inter_ v = offset_ v.

Lemma updateVisibleRegion_at_target (v : ViewState) :
  at_target v -> at_target (updateVisibleRegion v).
Proof.
  unfold at_target.
  destruct (updateVisibleRegion_keeps v) as (-> & -> & -> & _). auto.
Qed.

Lemma updateVisibleRegion_interpolated (v : ViewState) :
  interpolated_ (updateVisibleRegion v) = interpolated_ v.
Proof. unfold updateVisibleRegion. destruct (y_flipped_ v); reflexivity. Qed.

(** X28. A view that is not interpolated stays at its target under [zoom],
    [pan] and [setScale]: afterwards the interpolated scale and offset are
    still the scale and the offset, so [scale(true)] and [scale()] give the
    renderer the same value, and the view is still not interpolated.
    [resetInter] with all three flags brings any view to its target. *)
Theorem view_stays_at_target
    (v : ViewState) (amount x y : float) (scale : Vec2d) (focus_point : Z * Z) :
  interpolated_ v = false -> at_target v ->
  (at_target (zoom v amount) /\ interpolated_ (zoom v amount) = false
   /\ View_scale (view (zoom v amount)) true = View_scale (view (zoom v amount)) false)
  /\ (at_target (pan v x y) /\ interpolated_ (pan v x y) = false
      /\ view (pan v x y) = view v)
  /\ (at_target (setScale v scale focus_point)
      /\ interpolated_ (setScale v scale focus_point) = false)
  /\ forall u, at_target (resetInter u true true true).
Proof.
  intros Hplain [Hscale Hoffset]. split; [|split; [|split]].
  - assert (at_target (zoom v amount)) as Hat.
    { unfold zoom. cbv zeta. apply updateVisibleRegion_at_target.
      cbn [limit_scales set_scale_ interpolated_]. rewrite Hplain.
      split; [reflexivity | exact Hoffset]. }
    split; [exact Hat|]. split.
    + unfold zoom. cbv zeta. rewrite updateVisibleRegion_interpolated.
      cbn [limit_scales set_scale_ interpolated_]. rewrite Hplain. exact Hplain.
    + unfold View_scale. apply Hat.
  - unfold pan. cbv zeta. split; [|split].
    + apply updateVisibleRegion_at_target.
      cbn [set_offset_ interpolated_]. rewrite Hplain.
      split; [exact Hscale | reflexivity].
    + rewrite updateVisibleRegion_interpolated.
      cbn [set_offset_ interpolated_]. rewrite Hplain. exact Hplain.
    + match goal with
      | |- view (updateVisibleRegion ?u) = _ =>
          destruct (updateVisibleRegion_keeps u) as [-> _]
      end.
      cbn [set_offset_ interpolated_]. rewrite Hplain. reflexivity.
  - unfold setScale. cbv zeta. split.
    + apply updateVisibleRegion_at_target.
      cbn [limit_scales set_scale_ set_offset_ interpolated_]. rewrite Hplain.
      split; reflexivity.
    + rewrite updateVisibleRegion_interpolated.
      cbn [limit_scales set_scale_ set_offset_ interpolated_]. rewrite Hplain.
      exact Hplain.
  - intros u. unfold resetInter, at_target. cbv zeta.
    cbn [set_scale_inter_ set_offset_inter_ view scale_ scale_inter_ offset_
         offset_inter_ vx vy].
    split; [reflexivity | apply Vec2d_eta].
Qed.

Lemma view_stays_at_target_witness :
  at_target (pan sample_view 16 (-8))
  /\ offset_ (pan sample_view 16 (-8)) = mkVec2d 16 (-8).
Proof.
  split; [|reflexivity].
  apply (view_stays_at_target sample_view 2 16 (-8) (mkVec2d 1 1) (0, 0)).
  - reflexivity.
  - split; reflexivity.
Defined.

End ViewFacts.
